(** * calculate_rmsd: alignment and correspondence engine

    A shallow embedding of [calculate_rmsd.py] over the real numbers.

    - NumPy [float64] arrays of shape (N,3) are lists of triples of reals;
      3x3 matrices are triples of rows.
    - Python exceptions and NumPy's non-finite results ([nan], [inf]) are
      explicit outcomes of the functions that can produce them.
    - The LAPACK and SciPy routines the program calls ([np.linalg.svd],
      [np.linalg.eig], [np.linalg.eigh], [np.argsort],
      [linear_sum_assignment]) are arguments of the functions that call
      them; what a theorem needs from them is a hypothesis on the value they
      return at the matrix the program passes. *)

From Stdlib Require Import ZArith Reals Lra Lia Psatz.
From Stdlib Require Import List Permutation Arith Bool String Ascii.
Import ListNotations.

Set Implicit Arguments.

Abbreviation length := Datatypes.length (only parsing).

(* ================================================================== *)
(** * Part I: the program *)
(* ================================================================== *)

(** ** Outcomes of a call *)

Inductive pyexn : Type :=
| KeyError          (* dictionary lookup of an absent key *)
| IndexError        (* array index out of range *)
| ValueError        (* operands could not be broadcast together *)
| ZeroDivisionError (* np.average: weights sum to zero *)
| NotAligned.       (* check_reflections: print error and quit() *)

(** [Ok a]: the call returns [a].  [Nan]: the call returns, but the float
    computation left the finite reals (division by zero, square root of a
    negative number); NumPy yields [nan] or [inf] there.  [Raise e]: the
    call raises. *)
Inductive outcome (A : Type) : Type :=
| Ok (a : A)
| Nan
| Raise (e : pyexn).

Arguments Ok {A} a.
Arguments Nan {A}.
Arguments Raise {A} e.

Definition bind {A B : Type} (m : outcome A) (k : A -> outcome B) : outcome B :=
  match m with
  | Ok a => k a
  | Nan => Nan
  | Raise e => Raise e
  end.

Declare Scope py_scope.
Delimit Scope py_scope with py.
Notation "x <- m ;; k" := (bind m (fun x => k))
  (at level 61, m at next level, right associativity) : py_scope.
Notation "' p <- m ;; k" := (bind m (fun p => k))
  (at level 61, p pattern, m at next level, right associativity) : py_scope.

Definition raises {A : Type} (m : outcome A) : Prop := exists e, m = Raise e.

Open Scope R_scope.
Open Scope py_scope.

(** ** Vectors and 3x3 matrices *)

Definition vec3 : Type := R * R * R.
Definition mat3 : Type := vec3 * vec3 * vec3.   (* rows *)

Definition vzero : vec3 := (0, 0, 0).
Definition vadd (a b : vec3) : vec3 :=
  let '(a0, a1, a2) := a in let '(b0, b1, b2) := b in (a0 + b0, a1 + b1, a2 + b2).
Definition vsub (a b : vec3) : vec3 :=
  let '(a0, a1, a2) := a in let '(b0, b1, b2) := b in (a0 - b0, a1 - b1, a2 - b2).
Definition vmul (a b : vec3) : vec3 :=          (* elementwise a * b *)
  let '(a0, a1, a2) := a in let '(b0, b1, b2) := b in (a0 * b0, a1 * b1, a2 * b2).
Definition vscale (k : R) (a : vec3) : vec3 :=
  let '(a0, a1, a2) := a in (k * a0, k * a1, k * a2).
Definition vneg (a : vec3) : vec3 :=
  let '(a0, a1, a2) := a in (- a0, - a1, - a2).
Definition vtotal (a : vec3) : R :=             (* a.sum() *)
  let '(a0, a1, a2) := a in a0 + a1 + a2.
Definition vdot (a b : vec3) : R := vtotal (vmul a b).
Definition cross (a b : vec3) : vec3 :=
  let '(a0, a1, a2) := a in let '(b0, b1, b2) := b in
  (a1 * b2 - a2 * b1, a2 * b0 - a0 * b2, a0 * b1 - a1 * b0).
Definition norm (a : vec3) : R := sqrt (vdot a a).

Definition mzero : mat3 := (vzero, vzero, vzero).
Definition eye : mat3 := ((1, 0, 0), (0, 1, 0), (0, 0, 1)).
Definition madd (A B : mat3) : mat3 :=
  let '(a0, a1, a2) := A in let '(b0, b1, b2) := B in
  (vadd a0 b0, vadd a1 b1, vadd a2 b2).
Definition msub (A B : mat3) : mat3 :=
  let '(a0, a1, a2) := A in let '(b0, b1, b2) := B in
  (vsub a0 b0, vsub a1 b1, vsub a2 b2).
Definition mscale (k : R) (A : mat3) : mat3 :=
  let '(a0, a1, a2) := A in (vscale k a0, vscale k a1, vscale k a2).
Definition transpose (A : mat3) : mat3 :=
  let '((a00, a01, a02), (a10, a11, a12), (a20, a21, a22)) := A in
  ((a00, a10, a20), (a01, a11, a21), (a02, a12, a22)).
Definition outer (a b : vec3) : mat3 :=         (* np.outer(a, b) *)
  let '(a0, a1, a2) := a in (vscale a0 b, vscale a1 b, vscale a2 b).
Definition matvec (A : mat3) (x : vec3) : vec3 :=   (* A . x, x a column *)
  let '(a0, a1, a2) := A in (vdot a0 x, vdot a1 x, vdot a2 x).
Definition vecmat (x : vec3) (A : mat3) : vec3 :=   (* x . A, x a row *)
  matvec (transpose A) x.
Definition mmul (A B : mat3) : mat3 :=          (* np.dot(A, B) *)
  let '(a0, a1, a2) := A in (vecmat a0 B, vecmat a1 B, vecmat a2 B).
Definition diag (s : vec3) : mat3 :=            (* np.diag(s) *)
  let '(s0, s1, s2) := s in ((s0, 0, 0), (0, s1, 0), (0, 0, s2)).
Definition det (A : mat3) : R :=                (* np.linalg.det *)
  let '((a00, a01, a02), (a10, a11, a12), (a20, a21, a22)) := A in
  a00 * (a11 * a22 - a12 * a21)
  - a01 * (a10 * a22 - a12 * a20)
  + a02 * (a10 * a21 - a11 * a20).
Definition trace (A : mat3) : R :=
  let '((a00, _, _), (_, a11, _), (_, _, a22)) := A in a00 + a11 + a22.

(** [V[:, -1] = -V[:, -1]] *)
Definition neg_last_col (V : mat3) : mat3 :=
  let '((a00, a01, a02), (a10, a11, a12), (a20, a21, a22)) := V in
  ((a00, a01, - a02), (a10, a11, - a12), (a20, a21, - a22)).
(** [S[-1] = -S[-1]] *)
Definition neg_last (Sv : vec3) : vec3 :=
  let '(s0, s1, s2) := Sv in (s0, s1, - s2).

(** ** Point sets: arrays of shape (N,3) *)

Definition points : Type := list vec3.

Definition rsum (l : list R) : R := fold_right Rplus 0 l.
Definition vsum (l : list vec3) : vec3 := fold_right vadd vzero l.   (* X.sum(axis=0) *)
Definition msum (l : list mat3) : mat3 := fold_right madd mzero l.
Definition total (X : points) : R := vtotal (vsum X).                (* X.sum() *)

Fixpoint map2 {A B C : Type} (f : A -> B -> C) (l : list A) (m : list B) : list C :=
  match l, m with
  | a :: l', b :: m' => f a b :: map2 f l' m'
  | _, _ => []
  end.

(** Elementwise arithmetic of two (N,3) and (M,3) arrays under NumPy's
    broadcasting rule: the first dimensions must agree, or one of them is 1
    and that single row is stretched. *)
Definition broadcast2 (f : vec3 -> vec3 -> vec3) (V W : points) : outcome points :=
  if Nat.eqb (length V) (length W) then Ok (map2 f V W)
  else match V, W with
       | [v], _ => Ok (map (fun w => f v w) W)
       | _, [w] => Ok (map (fun v => f v w) V)
       | _, _ => Raise ValueError
       end.

(** [np.sqrt] on a float: [nan] below zero. *)
Definition np_sqrt (x : R) : outcome R :=
  if Rlt_dec x 0 then Nan else Ok (sqrt x).

(** Float division: [nan] or [inf] when the divisor is zero. *)
Definition np_div (x y : R) : outcome R :=
  if Req_dec_T y 0 then Nan else Ok (x / y).

(** ** rmsd *)

(** [diff = np.array(V) - np.array(W); N = len(V);
     return np.sqrt((diff * diff).sum() / N)] *)
Definition rmsd (V W : points) : outcome R :=
  diff <- broadcast2 vsub V W ;;
  let N := length V in
  q <- np_div (total (map (fun d => vmul d d) diff)) (INR N) ;;
  np_sqrt q.

(** ** centroid *)

(** [X.mean(axis=0)]; the mean of an empty array is [nan]. *)
Definition centroid (X : points) : outcome vec3 :=
  let '(s0, s1, s2) := vsum X in
  let N := INR (length X) in
  c0 <- np_div s0 N ;; c1 <- np_div s1 N ;; c2 <- np_div s2 N ;;
  Ok (c0, c1, c2).

(** [X - centroid(X)]: broadcasting the mean over the rows.  On an empty
    array the mean is [nan] and the difference is the empty array again. *)
Definition center (X : points) : points :=
  match centroid X with
  | Ok c => map (fun x => vsub x c) X
  | _ => X
  end.

(** ** Kabsch *)

(** What [np.linalg.svd] returns on a 3x3 matrix: [V, S, W] with
    [C = V . diag(S) . W]. *)
Definition svd_routine : Type := mat3 -> mat3 * vec3 * mat3.

(** [np.dot(np.transpose(P), Q)] for P of shape (n,3) and Q of shape (m,3):
    the inner dimensions n and m must agree. *)
Definition covariance (P Q : points) : outcome mat3 :=
  if Nat.eqb (length P) (length Q) then Ok (msum (map2 outer P Q))
  else Raise ValueError.

(** The sign correction shared by [kabsch], [kabsch_fit] and
    [kabsch_weighted]:
    [d = (det(V) * det(W)) < 0.0; if d: S[-1] = -S[-1]; V[:, -1] = -V[:, -1]] *)
Definition sign_fix (VSW : mat3 * vec3 * mat3) : mat3 * vec3 * mat3 :=
  let '(V, Sv, W) := VSW in
  if Rlt_dec (det V * det W) 0 then (neg_last_col V, neg_last Sv, W)
  else (V, Sv, W).

Section Kabsch.

Variable svd : svd_routine.

Definition kabsch (P Q : points) : outcome mat3 :=
  C <- covariance P Q ;;
  let '(V, Sv, W) := sign_fix (svd C) in
  Ok (mmul V W).

Definition kabsch_rotate (P Q : points) : outcome points :=
  U <- kabsch P Q ;;
  Ok (map (fun p => vecmat p U) P).

(** [if W is None: W = np.ones(len(P)) / len(P)] *)
Definition default_weights (P : points) (W : option (list R)) : list R :=
  match W with
  | None => repeat (1 / INR (length P)) (length P)
  | Some w => w
  end.

(** [np.array([W, W, W]).T] *)
Definition weights3 (W : list R) : points := map (fun w => (w, w, w)) W.

(** [for i: for j: for k: C[i, k] += P[j, i] * Q[j, k] * W[j, i]] *)
Definition weighted_cov (P Q : points) (W : list R) : mat3 :=
  msum (map2 (fun pq w => let '(p, q) := pq in mscale w (outer p q)) (combine P Q) W).

(** [(P * W).sum(axis=0)] *)
Definition weighted_sum (P W3 : points) : vec3 := vsum (map2 vmul P W3).

(** [(P * P * W).sum()] *)
Definition weighted_sq (P W3 : points) : R := total (map2 vmul (map2 vmul P P) W3).

(** [C = (C - np.outer(CMP, CMQ) * iw) * iw], the matrix handed to
    [np.linalg.svd]. *)
Definition weighted_C (P Q : points) (W : list R) (iw : R) : mat3 :=
  let W3 := weights3 W in
  let C := weighted_cov P Q W in
  let CMP := weighted_sum P W3 in
  let CMQ := weighted_sum Q W3 in
  mscale iw (msub C (mscale iw (outer CMP CMQ))).

(** [if msd < 0.0: msd = 0.0] *)
Definition clamp0 (msd : R) : R := if Rlt_dec msd 0 then 0 else msd.

(** The arithmetic of [kabsch_weighted] between [iw = 3.0 / W.sum()] and
    the clamp: the rotation U, the translation V and the mean squared
    deviation [msd = (PSQ + QSQ) * iw - 2.0 * S.sum()]. *)
Definition kabsch_weighted_core (P Q : points) (W : list R) (iw : R) : mat3 * vec3 * R :=
  let W3 := weights3 W in
  let CMP := weighted_sum P W3 in
  let CMQ := weighted_sum Q W3 in
  let PSQ := weighted_sq P W3 - vtotal (vmul CMP CMP) * iw in
  let QSQ := weighted_sq Q W3 - vtotal (vmul CMQ CMQ) * iw in
  let C := weighted_C P Q W iw in
  let '(V, Sv, W') := sign_fix (svd C) in
  let U := mmul V W' in
  let msd := (PSQ + QSQ) * iw - 2 * vtotal Sv in
  let V := vscale iw (vsub CMP (matvec U CMQ)) in
  (U, V, msd).

(** [kabsch_weighted] after the default for [W] is filled in.  Rows of P, Q
    and W are taken to be equally many; other shapes are rejected. *)
Definition kabsch_weighted_body (P Q : points) (W : list R)
  : outcome (mat3 * vec3 * R) :=
  let n := length P in
  if negb (Nat.eqb (length Q) n && Nat.eqb (length W) n) then Raise ValueError else
  iw <- np_div 3 (total (weights3 W)) ;;
  let '(U, V, msd) := kabsch_weighted_core P Q W iw in
  r <- np_sqrt (clamp0 msd) ;;
  Ok (U, V, r).

Definition kabsch_weighted (P Q : points) (W : option (list R))
  : outcome (mat3 * vec3 * R) :=
  kabsch_weighted_body P Q (default_weights P W).

(** [R, T, RMSD = kabsch_weighted(Q, P, W); PNEW = np.dot(P, R.T) + T];
    the RMSD is returned beside PNEW (the caller's flag [rmsd] only selects
    whether it is kept). *)
Definition kabsch_weighted_fit (P Q : points) (W : option (list R))
  : outcome (points * R) :=
  '(Rm, T, RMSD) <- kabsch_weighted Q P W ;;
  Ok (map (fun p => vadd (vecmat p (transpose Rm)) T) P, RMSD).

Definition kabsch_weighted_rmsd (P Q : points) (W : option (list R)) : outcome R :=
  '(Rm, T, w_rmsd) <- kabsch_weighted P Q W ;;
  Ok w_rmsd.

Definition kabsch_rmsd (P Q : points) (W : option (list R)) (translate : bool)
  : outcome R :=
  let Q := if translate then center Q else Q in
  let P := if translate then center P else P in
  match W with
  | Some w => kabsch_weighted_rmsd P Q (Some w)
  | None => P' <- kabsch_rotate P Q ;; rmsd P' Q
  end.

End Kabsch.

(** [kabsch_fit]: centre both sets, rotate the centred P, and move it to
    the centroid of Q.  The parameter [W] is overwritten by the third
    factor of the decomposition before it is read.  The mean of an empty
    array is [nan]; the difference with it is the empty array again, so the
    shapes are compared first. *)
Definition kabsch_fit (svd : svd_routine) (P Q : points) (W : option (list R))
  : outcome (points * mat3 * vec3) :=
  let Q0 := center Q in
  let P0 := center P in
  C <- covariance P0 Q0 ;;
  let '(V, Sv, W') := sign_fix (svd C) in
  let U := mmul V W' in
  QC <- centroid Q ;;
  Ok (map (fun p => vadd (vecmat p U) QC) P0, U, QC).

(** ** Quaternions *)

Definition vec4 : Type := R * R * R * R.
Definition mat4 : Type := vec4 * vec4 * vec4 * vec4.   (* rows *)

Definition vdot4 (a b : vec4) : R :=
  let '(a0, a1, a2, a3) := a in let '(b0, b1, b2, b3) := b in
  a0 * b0 + a1 * b1 + a2 * b2 + a3 * b3.
Definition vadd4 (a b : vec4) : vec4 :=
  let '(a0, a1, a2, a3) := a in let '(b0, b1, b2, b3) := b in
  (a0 + b0, a1 + b1, a2 + b2, a3 + b3).
Definition transpose4 (A : mat4) : mat4 :=
  let '((a00, a01, a02, a03), (a10, a11, a12, a13),
        (a20, a21, a22, a23), (a30, a31, a32, a33)) := A in
  ((a00, a10, a20, a30), (a01, a11, a21, a31),
   (a02, a12, a22, a32), (a03, a13, a23, a33)).
Definition vecmat4 (x : vec4) (A : mat4) : vec4 :=
  let '(c0, c1, c2, c3) := transpose4 A in
  (vdot4 x c0, vdot4 x c1, vdot4 x c2, vdot4 x c3).
Definition mmul4 (A B : mat4) : mat4 :=          (* np.dot(A, B) *)
  let '(a0, a1, a2, a3) := A in
  (vecmat4 a0 B, vecmat4 a1 B, vecmat4 a2 B, vecmat4 a3 B).
Definition madd4 (A B : mat4) : mat4 :=
  let '(a0, a1, a2, a3) := A in let '(b0, b1, b2, b3) := B in
  (vadd4 a0 b0, vadd4 a1 b1, vadd4 a2 b2, vadd4 a3 b3).
Definition mzero4 : mat4 :=
  ((0, 0, 0, 0), (0, 0, 0, 0), (0, 0, 0, 0), (0, 0, 0, 0)).
Definition msum4 (l : list mat4) : mat4 := fold_right madd4 mzero4 l.

(** [M[:3, :3]] *)
Definition upper_left (M : mat4) : mat3 :=
  let '((a00, a01, a02, _), (a10, a11, a12, _), (a20, a21, a22, _), _) := M in
  ((a00, a01, a02), (a10, a11, a12), (a20, a21, a22)).

Definition makeW (r1 r2 r3 r4 : R) : mat4 :=
  ((r4, r3, - r2, r1),
   (- r3, r4, r1, r2),
   (r2, - r1, r4, r3),
   (- r1, - r2, - r3, r4)).

Definition makeQ (r1 r2 r3 r4 : R) : mat4 :=
  ((r4, - r3, r2, r1),
   (r3, r4, - r1, r2),
   (- r2, r1, r4, r3),
   (- r1, - r2, - r3, r4)).

(** [Wt_r] is the transpose of [makeW] at the four components of r, [Q_r]
    is [makeQ] at them, and [rot = Wt_r.dot(Q_r)[:3, :3]]. *)
Definition quaternion_transform (r : vec4) : mat3 :=
  let '(r1, r2, r3, r4) := r in
  let Wt_r := transpose4 (makeW r1 r2 r3 r4) in
  let Q_r := makeQ r1 r2 r3 r4 in
  upper_left (mmul4 Wt_r Q_r).

(** [np.sum(Qt_dot_W, axis=0)]: the sum of the 4x4 matrices, and the float
    0.0 when there is none. *)
Inductive sum_result : Type :=
| Matrix (A : mat4)
| Scalar (x : R).

(** [makeW] and [makeQ] at the three coordinates of a row [Y[k]] or
    [X[k]]: [r4] takes its default 0. *)
Definition makeW3 (y : vec3) : mat4 := let '(y1, y2, y3) := y in makeW y1 y2 y3 0.
Definition makeQ3 (x : vec3) : mat4 := let '(x1, x2, x3) := x in makeQ x1 x2 x3 0.

(** [A = np.sum(Qt_dot_W, axis=0)] with [Qt_dot_W[k] = Q[k].T . W[k]]. *)
Definition quaternion_sum (X Ys : points) : sum_result :=
  let W := map makeW3 Ys in
  let Q := map makeQ3 X in
  let Qt_dot_W := map2 (fun q w => mmul4 (transpose4 q) w) Q W in
  match Qt_dot_W with
  | [] => Scalar 0
  | _ => Matrix (msum4 Qt_dot_W)
  end.

(** What [np.linalg.eigh] does with the array it is given: on a matrix it
    returns the eigenvalues and a matrix whose column [i] is the
    eigenvector of eigenvalue [i]. *)
Definition eigh_routine : Type := sum_result -> outcome (vec4 * mat4).

(** [w.argmax()] on four values: the first index of the maximum. *)
Definition argmax4 (w : vec4) : nat :=
  let '(w0, w1, w2, w3) := w in
  let best (i : nat) (x : R) (j : nat) (y : R) : nat * R :=
    if Rlt_dec x y then (j, y) else (i, x) in
  let '(i1, x1) := best 0%nat w0 1%nat w1 in
  let '(i2, x2) := best i1 x1 2%nat w2 in
  fst (best i2 x2 3%nat w3).

(** [M[:, i]] *)
Definition col4 (M : mat4) (i : nat) : vec4 :=
  let '(c0, c1, c2, c3) := transpose4 M in
  match i with 0%nat => c0 | 1%nat => c1 | 2%nat => c2 | _ => c3 end.

(** ** Geometry primitives *)

Definition vec_eq_dec (a b : vec3) : {a = b} + {a <> b}.
Proof. repeat decide equality; apply Req_dec_T. Defined.

(** [np.array([[0., -v[2], v[1]], [v[2], 0., -v[0]], [-v[1], v[0], 0.]])] *)
Definition skew (v : vec3) : mat3 :=
  let '(v0, v1, v2) := v in ((0, - v2, v1), (v2, 0, - v0), (- v1, v0, 0)).

(** The three branches of [rotation_matrix_vectors]: [(v1 == v2).all()],
    [(v1 == -v2).all()], and the Rodrigues formula. *)
Inductive rmv_branch : Type := Identical | Opposite | Rodrigues.

Definition rmv_branch_of (v1 v2 : vec3) : rmv_branch :=
  if vec_eq_dec v1 v2 then Identical
  else if vec_eq_dec v1 (vneg v2) then Opposite
  else Rodrigues.

(** The divisor [s*s] of the Rodrigues branch. *)
Definition rodrigues_divisor (v1 v2 : vec3) : R :=
  let s := norm (cross v1 v2) in s * s.

Definition rotation_matrix_vectors (v1 v2 : vec3) : outcome mat3 :=
  match rmv_branch_of v1 v2 with
  | Identical => Ok eye
  | Opposite => Ok ((-1, 0, 0), (0, 1, 0), (0, 0, -1))
  | Rodrigues =>
      let v := cross v1 v2 in
      let c := vdot v1 v2 in
      let vx := skew v in
      k <- np_div (1 - c) (rodrigues_divisor v1 v2) ;;
      Ok (madd (madd eye vx) (mscale k (mmul vx vx)))
  end.

Open Scope string_scope.

(** [ELEMENTS_WEIGHTS] *)
Definition ELEMENTS_WEIGHTS : list (string * R) :=
  [ ("h", 1.008); ("he", 4.003); ("li", 6.941); ("be", 9.012);
    ("b", 10.811); ("c", 12.011); ("n", 14.007); ("o", 15.999);
    ("f", 18.998); ("ne", 20.180); ("na", 22.990); ("mg", 24.305);
    ("al", 26.982); ("si", 28.086); ("p", 30.974); ("s", 32.066);
    ("cl", 35.453); ("ar", 39.948); ("k", 39.098); ("ca", 40.078);
    ("sc", 44.956); ("ti", 47.867); ("v", 50.942); ("cr", 51.996);
    ("mn", 54.938); ("fe", 55.845); ("co", 58.933); ("ni", 58.693);
    ("cu", 63.546); ("zn", 65.38); ("ga", 69.723); ("ge", 72.631);
    ("as", 74.922); ("se", 78.971); ("br", 79.904); ("kr", 84.798);
    ("rb", 84.468); ("sr", 87.62); ("y", 88.906); ("zr", 91.224);
    ("nb", 92.906); ("mo", 95.95); ("tc", 98.907); ("ru", 101.07);
    ("rh", 102.906); ("pd", 106.42); ("ag", 107.868); ("cd", 112.414);
    ("in", 114.818); ("sn", 118.711); ("sb", 121.760); ("te", 126.7);
    ("i", 126.904); ("xe", 131.294); ("cs", 132.905); ("ba", 137.328);
    ("la", 138.905); ("ce", 140.116); ("pr", 140.908); ("nd", 144.243);
    ("pm", 144.913); ("sm", 150.36); ("eu", 151.964); ("gd", 157.25);
    ("tb", 158.925); ("dy", 162.500); ("ho", 164.930); ("er", 167.259);
    ("tm", 168.934); ("yb", 173.055); ("lu", 174.967); ("hf", 178.49);
    ("ta", 180.948); ("w", 183.84); ("re", 186.207); ("os", 190.23);
    ("ir", 192.217); ("pt", 195.085); ("au", 196.967); ("hg", 200.592);
    ("tl", 204.383); ("pb", 207.2); ("bi", 208.980); ("po", 208.982);
    ("at", 209.987); ("rn", 222.081); ("fr", 223.020); ("ra", 226.025);
    ("ac", 227.028); ("th", 232.038); ("pa", 231.036); ("u", 238.029);
    ("np", 237); ("pu", 244); ("am", 243); ("cm", 247);
    ("bk", 247); ("ct", 251); ("es", 252); ("fm", 257);
    ("md", 258); ("no", 259); ("lr", 262); ("rf", 261);
    ("db", 262); ("sg", 266); ("bh", 264); ("hs", 269);
    ("mt", 268); ("ds", 271); ("rg", 272); ("cn", 285);
    ("nh", 284); ("fl", 289); ("mc", 288); ("lv", 292);
    ("ts", 294); ("og", 294) ].

Close Scope string_scope.

Definition lower_ascii (c : ascii) : ascii :=
  let n := nat_of_ascii c in
  if (Nat.leb 65 n && Nat.leb n 90)%bool then ascii_of_nat (n + 32) else c.

(** [x.lower()] on an ASCII label. *)
Fixpoint lower (x : string) : string :=
  match x with
  | EmptyString => EmptyString
  | String c x' => String (lower_ascii c) (lower x')
  end.

Fixpoint lookup (k : string) (d : list (string * R)) : outcome R :=
  match d with
  | [] => Raise KeyError
  | (k', v) :: d' => if String.eqb k k' then Ok v else lookup k d'
  end.

(** [[ELEMENTS_WEIGHTS[x.lower()] for x in atoms]] *)
Fixpoint masses (atoms : list string) : outcome (list R) :=
  match atoms with
  | [] => Ok []
  | x :: atoms' =>
      m <- lookup (lower x) ELEMENTS_WEIGHTS ;;
      ms <- masses atoms' ;;
      Ok (m :: ms)
  end.

(** [np.average(V, axis=0, weights=...)]: the weights must be as many as
    the rows, and must not sum to zero. *)
Definition get_cm (atoms : list string) (V : points) : outcome vec3 :=
  ws <- masses atoms ;;
  if negb (Nat.eqb (length ws) (length V)) then Raise ValueError else
  let scl := rsum ws in
  if Req_dec_T scl 0 then Raise ZeroDivisionError else
  let '(s0, s1, s2) := vsum (map2 vscale ws V) in
  Ok (s0 / scl, s1 / scl, s2 / scl).

(** One turn of the loop of [get_inertia_tensor]; the accumulator is
    [(Ixx, Iyy, Izz, Ixy, Ixz, Iyz)]. *)
Definition inertia_acc : Type := R * R * R * R * R * R.

Definition inertia_step (acc : inertia_acc) (amass : R) (acoord : vec3) : inertia_acc :=
  let '(Ixx, Iyy, Izz, Ixy, Ixz, Iyz) := acc in
  let '(a0, a1, a2) := acoord in
  (Ixx + amass * (a1 * a1 + a2 * a2),
   Iyy + amass * (a0 * a0 + a2 * a2),
   Izz + amass * (a0 * a0 + a1 * a1),
   Ixy + - amass * a0 * a1,
   Ixz + - amass * a0 * a2,
   Iyz + - amass * a1 * a2).

Fixpoint inertia_loop (acc : inertia_acc) (atoms : list string) (CV : points)
  : outcome inertia_acc :=
  match atoms, CV with
  | sp :: atoms', acoord :: CV' =>
      amass <- lookup (lower sp) ELEMENTS_WEIGHTS ;;
      inertia_loop (inertia_step acc amass acoord) atoms' CV'
  | _, _ => Ok acc
  end.

Definition get_inertia_tensor (atoms : list string) (V : points) : outcome mat3 :=
  cm <- get_cm atoms V ;;
  let CV := map (fun x => vsub x cm) V in
  '(Ixx, Iyy, Izz, Ixy, Ixz, Iyz) <- inertia_loop (0, 0, 0, 0, 0, 0) atoms CV ;;
  Ok ((Ixx, Ixy, Ixz), (Ixy, Iyy, Iyz), (Ixz, Iyz, Izz)).

(** What [np.linalg.eig] returns on a 3x3 matrix: the eigenvalues, and a
    matrix whose column [i] is the eigenvector of eigenvalue [i]. *)
Definition eig_routine : Type := mat3 -> vec3 * mat3.

(** [np.argmax] on three values: the first index of the maximum. *)
Definition argmax3 (w : vec3) : nat :=
  let '(w0, w1, w2) := w in
  if Rlt_dec w0 w1
  then (if Rlt_dec w1 w2 then 2 else 1)%nat
  else (if Rlt_dec w0 w2 then 2 else 0)%nat.

(** [M[i]]: row [i]. *)
Definition row (M : mat3) (i : nat) : vec3 :=
  let '(r0, r1, r2) := M in
  match i with 0%nat => r0 | 1%nat => r1 | _ => r2 end.

(** [M[:, i]]: column [i]. *)
Definition col (M : mat3) (i : nat) : vec3 := row (transpose M) i.

Definition get_principal_axis (eig : eig_routine) (atoms : list string) (V : points)
  : outcome vec3 :=
  I <- get_inertia_tensor atoms V ;;
  let '(eigval, eigvec) := eig I in
  Ok (row eigvec (argmax3 eigval)).

(** ** Label arrays and index arrays *)

Definition labels : Type := list string.

Fixpoint insert_unique (x : string) (l : labels) : labels :=
  match l with
  | [] => [x]
  | y :: l' =>
      match String.compare x y with
      | Eq => l
      | Lt => x :: l
      | Gt => y :: insert_unique x l'
      end
  end.

(** [np.unique(atoms)]: the sorted distinct labels. *)
Definition unique (atoms : labels) : labels := fold_right insert_unique [] atoms.

Fixpoint where_from (i : nat) (atom : string) (atoms : labels) : list nat :=
  match atoms with
  | [] => []
  | a :: atoms' =>
      if String.eqb a atom then i :: where_from (S i) atom atoms'
      else where_from (S i) atom atoms'
  end.

(** [idx, = np.where(atoms == atom)] *)
Definition where_eq (atoms : labels) (atom : string) : list nat :=
  where_from 0 atom atoms.

(** [X[idx]] for an index array of non-negative integers. *)
Fixpoint take {A : Type} (X : list A) (idx : list nat) : outcome (list A) :=
  match idx with
  | [] => Ok []
  | i :: idx' =>
      match nth_error X i with
      | Some x => xs <- take X idx' ;; Ok (x :: xs)
      | None => Raise IndexError
      end
  end.

(** [X[i]] for a Python integer: negative indices count from the end. *)
Definition index_z {A : Type} (X : list A) (i : Z) : option A :=
  if (0 <=? i)%Z then nth_error X (Z.to_nat i)
  else if (- Z.of_nat (length X) <=? i)%Z
       then nth_error X (Z.to_nat (Z.of_nat (length X) + i))
       else None.

(** [X[view]] for an integer index array. *)
Fixpoint take_z {A : Type} (X : list A) (view : list Z) : outcome (list A) :=
  match view with
  | [] => Ok []
  | i :: view' =>
      match index_z X i with
      | Some x => xs <- take_z X view' ;; Ok (x :: xs)
      | None => Raise IndexError
      end
  end.

Fixpoint update {A : Type} (l : list A) (i : nat) (v : A) : list A :=
  match l, i with
  | [], _ => []
  | _ :: l', O => v :: l'
  | x :: l', S i' => x :: update l' i' v
  end.

Fixpoint put (view : list Z) (idx : list nat) (vals : list nat) : outcome (list Z) :=
  match idx, vals with
  | i :: idx', v :: vals' =>
      if Nat.ltb i (length view) then put (update view i (Z.of_nat v)) idx' vals'
      else Raise IndexError
  | _, _ => Ok view
  end.

(** [view[idx] = vals]: the values are as many as the indices, or a single
    value is broadcast. *)
Definition assign (view : list Z) (idx : list nat) (vals : list nat) : outcome (list Z) :=
  if Nat.eqb (length vals) (length idx) then put view idx vals
  else match vals with
       | [v] => put view idx (repeat v (length idx))
       | _ => Raise ValueError
       end.

(** [q_atom_idx[view]]; indexing with [None] adds an axis of length one,
    which the assignment that follows broadcasts away again. *)
Definition index_view (q_atom_idx : list nat) (view : option (list nat))
  : outcome (list nat) :=
  match view with
  | Some v => take q_atom_idx v
  | None => Ok q_atom_idx
  end.

Fixpoint for_each {A St : Type} (l : list A) (body : St -> A -> outcome St) (s : St)
  : outcome St :=
  match l with
  | [] => Ok s
  | a :: l' => s' <- body s a ;; for_each l' body s'
  end.

(** ** The quaternion rotation *)

(** [Y[k] for k in range(N)] fails with an [IndexError] when Y has fewer
    rows than X. *)
Definition quaternion_rotate (eigh : eigh_routine) (X Y : points) : outcome mat3 :=
  let N := length X in
  Ys <- take Y (seq 0 N) ;;
  let A := quaternion_sum X Ys in
  '(vals, vecs) <- eigh A ;;
  let r := col4 vecs (argmax4 vals) in
  Ok (quaternion_transform r).

(** [rot = quaternion_rotate(P, Q); P = np.dot(P, rot); return rmsd(P, Q)] *)
Definition quaternion_rmsd (eigh : eigh_routine) (P Q : points) : outcome R :=
  rot <- quaternion_rotate eigh P Q ;;
  rmsd (map (fun p => vecmat p rot) P) Q.

(** ** Correspondence solvers *)

(** The loop that [reorder_distance], [reorder_hungarian] and
    [reorder_brute] share; they differ in the initial fill of [view_reorder]
    and in how [view] is computed from the two groups of coordinates:

    [for atom in unique_atoms:
         p_atom_idx, = np.where(p_atoms == atom)
         q_atom_idx, = np.where(q_atoms == atom)
         A_coord = p_coord[p_atom_idx]
         B_coord = q_coord[q_atom_idx]
         view = ...
         view_reorder[p_atom_idx] = q_atom_idx[view]] *)
Definition reorder_groups (fill : Z)
    (solve : points -> points -> outcome (option (list nat)))
    (p_atoms q_atoms : labels) (p_coord q_coord : points) : outcome (list Z) :=
  let unique_atoms := unique p_atoms in
  let view_reorder := repeat fill (length q_atoms) in
  for_each unique_atoms
    (fun view_reorder atom =>
       let p_atom_idx := where_eq p_atoms atom in
       let q_atom_idx := where_eq q_atoms atom in
       A_coord <- take p_coord p_atom_idx ;;
       B_coord <- take q_coord q_atom_idx ;;
       view <- solve A_coord B_coord ;;
       vals <- index_view q_atom_idx view ;;
       assign view_reorder p_atom_idx vals)
    view_reorder.

(** What [np.argsort] returns: the indices that sort its argument. *)
Definition argsort_routine : Type := list R -> list nat.

(** The per-group step of [reorder_distance]. *)
Definition distance_view (argsort : argsort_routine) (A_coord B_coord : points)
  : outcome (option (list nat)) :=
  let A_norms := map norm A_coord in
  let B_norms := map norm B_coord in
  let reorder_indices_A := argsort A_norms in
  let reorder_indices_B := argsort B_norms in
  let translator := argsort (map INR reorder_indices_A) in
  view <- take reorder_indices_B translator ;;
  Ok (Some view).

Definition reorder_distance (argsort : argsort_routine) :=
  reorder_groups 0 (distance_view argsort).

(** What [scipy.optimize.linear_sum_assignment] returns on a cost matrix:
    the row indices and the column indices of the assignment. *)
Definition lsa_routine : Type := list (list R) -> list nat * list nat.

(** [scipy.spatial.distance.cdist(A, B, 'euclidean')] *)
Definition cdist (A B : points) : list (list R) :=
  map (fun a => map (fun b => norm (vsub a b)) B) A.

Definition hungarian (lsa : lsa_routine) (A B : points) : list nat :=
  let distances := cdist A B in
  let '(indices_a, indices_b) := lsa distances in
  indices_b.

Definition reorder_hungarian (lsa : lsa_routine) :=
  reorder_groups (-1) (fun A_coord B_coord => Ok (Some (hungarian lsa A_coord B_coord))).

(** ** Heap's algorithm *)

(** How the generator ends: its loop runs to [i = n]; it raises; or the
    fuel given to the loop below ran out first. *)
Inductive gen_end : Type := Exhausted | GenRaise (e : pyexn) | OutOfFuel.

(** [l[a], l[b] = l[b], l[a]] *)
Definition swap {A : Type} (l : list A) (a b : nat) : option (list A) :=
  match nth_error l a, nth_error l b with
  | Some x, Some y => Some (update (update l a y) b x)
  | _, _ => None
  end.

(** The [while i < n] loop of [generate_permutations]: the permutations it
    yields, in order.  The generator yields the one list it mutates; what is
    recorded here is the contents at each [yield], which is what a consumer
    that uses every item before asking for the next one sees. *)
Fixpoint heap_loop {A : Type} (fuel n : nat) (c : list nat) (elements : list A) (i : nat)
  : list (list A) * gen_end :=
  match fuel with
  | O => ([], OutOfFuel)
  | S fuel' =>
      if Nat.ltb i n then
        let ci := nth i c O in
        if Nat.ltb ci i then
          match (if Nat.even i then swap elements 0 i else swap elements ci i) with
          | Some elements' =>
              let '(ys, e) := heap_loop fuel' n (update c i (ci + 1)%nat) elements' 0 in
              (elements' :: ys, e)
          | None => ([], GenRaise IndexError)
          end
        else heap_loop fuel' n (update c i O) elements (S i)
      else ([], Exhausted)
  end.

(** Turns of the loop from [i = 0] (counters zero) to [i = k]. *)
Fixpoint heap_turns (k : nat) : nat :=
  match k with
  | O => O
  | S k' => (S k' * heap_turns k' + k' + 1)%nat
  end.

Definition generate_permutations {A : Type} (elements : list A) (n : nat)
  : list (list A) * gen_end :=
  let c := repeat O n in
  let '(ys, e) := heap_loop (S (heap_turns n)) n c elements 0 in
  (elements :: ys, e).

(** ** Brute force, inertia-guided assignment, reflections *)

(** [rmsd_temp < rmsd_min], with [None] for [np.inf]. *)
Definition below (x : R) (bound : option R) : bool :=
  match bound with
  | None => true
  | Some b => if Rlt_dec x b then true else false
  end.

Section Solvers.

Variable svd : svd_routine.
Variable eig : eig_routine.
Variable lsa : lsa_routine.

(** One turn of the loop of [brute_permutation]; the state is
    [(rmsd_min, view_min)].  A [nan] score compares false and leaves the
    state as it is. *)
Definition brute_step (A B : points) (st : option R * option (list nat))
    (reorder_indices : list nat) : outcome (option R * option (list nat)) :=
  coords_ordered <- take B reorder_indices ;;
  match kabsch_rmsd svd A coords_ordered None false with
  | Ok rmsd_temp =>
      if below rmsd_temp (fst st) then Ok (Some rmsd_temp, Some reorder_indices)
      else Ok st
  | Nan => Ok st
  | Raise e => Raise e
  end.

Definition brute_permutation (A B : points) : outcome (option (list nat)) :=
  let num_atoms := length A in
  let initial_order := seq 0 num_atoms in
  let '(perms, e) := generate_permutations initial_order num_atoms in
  st <- for_each perms (brute_step A B) (None, None) ;;
  match e with
  | Exhausted => Ok (snd st)
  | GenRaise x => Raise x
  | OutOfFuel => Nan
  end.

Definition reorder_brute := reorder_groups (-1) brute_permutation.

Definition reorder_inertia_hungarian (p_atoms q_atoms : labels) (p_coord q_coord : points)
  : outcome (list Z) :=
  p_axis <- get_principal_axis eig p_atoms p_coord ;;
  q_axis <- get_principal_axis eig q_atoms q_coord ;;
  U1 <- rotation_matrix_vectors p_axis q_axis ;;
  U2 <- rotation_matrix_vectors p_axis (vneg q_axis) ;;
  let q_coord1 := map (fun q => vecmat q U1) q_coord in
  let q_coord2 := map (fun q => vecmat q U2) q_coord in
  q_review1 <- reorder_hungarian lsa p_atoms q_atoms p_coord q_coord1 ;;
  q_review2 <- reorder_hungarian lsa p_atoms q_atoms p_coord q_coord2 ;;
  q_coord1 <- take_z q_coord1 q_review1 ;;
  q_coord2 <- take_z q_coord2 q_review2 ;;
  match kabsch_rmsd svd p_coord q_coord1 None false,
        kabsch_rmsd svd p_coord q_coord2 None false with
  | Raise e, _ => Raise e
  | _, Raise e => Raise e
  | Ok rmsd1, Ok rmsd2 => if Rlt_dec rmsd1 rmsd2 then Ok q_review1 else Ok q_review2
  | _, _ => Ok q_review2
  end.

End Solvers.

Definition AXIS_SWAPS : list (nat * nat * nat) :=
  [ (0, 1, 2); (0, 2, 1); (1, 0, 2); (1, 2, 0); (2, 1, 0); (2, 0, 1) ]%nat.

Definition AXIS_REFLECTIONS : list (Z * Z * Z) :=
  [ (1, 1, 1); (-1, 1, 1); (1, -1, 1); (1, 1, -1);
    (-1, -1, 1); (-1, 1, -1); (1, -1, -1); (-1, -1, -1) ]%Z.

Definition swap_mask : list Z := [1; -1; -1; 1; -1; 1]%Z.
Definition reflection_mask : list Z := [1; -1; -1; -1; 1; 1; 1; -1]%Z.

(** [x[i]] for [i] in 0, 1, 2. *)
Definition vcomp (x : vec3) (i : nat) : R :=
  let '(x0, x1, x2) := x in
  match i with 0%nat => x0 | 1%nat => x1 | _ => x2 end.

(** [tmp_coord[:, swap]] on one row. *)
Definition swap_axes (s : nat * nat * nat) (x : vec3) : vec3 :=
  let '(s0, s1, s2) := s in (vcomp x s0, vcomp x s1, vcomp x s2).

Definition IZR3 (r : Z * Z * Z) : vec3 :=
  let '(r0, r1, r2) := r in (IZR r0, IZR r1, IZR r2).

(** The state of the search of [check_reflections]. *)
Record refl_state : Type := mk_refl_state {
  min_rmsd : option R;                    (* None: np.inf *)
  min_swap : option (nat * nat * nat);
  min_reflection : option (Z * Z * Z);
  min_review : option (list Z);
  tmp_review : option (list Z)
}.

Definition reorder_fn : Type := labels -> labels -> points -> points -> outcome (list Z).
Definition rotation_fn : Type := points -> points -> outcome R.

(** The pairs the two nested [for ... in zip(...)] loops run through, in
    order. *)
Definition candidates : list ((nat * nat * nat) * Z * ((Z * Z * Z) * Z)) :=
  flat_map (fun si => map (fun rj => (si, rj)) (combine AXIS_REFLECTIONS reflection_mask))
           (combine AXIS_SWAPS swap_mask).

(** [if keep_stereo and i * j == -1: continue] *)
Definition skipped (keep_stereo : bool) (i j : Z) : bool :=
  keep_stereo && (i * j =? -1)%Z.

Section Reflections.

Variable reorder_method : option reorder_fn.
Variable rotation_method : option rotation_fn.
Variable keep_stereo : bool.
Variables p_atoms q_atoms : labels.
Variables p_coord q_coord : points.

Definition reflection_body (st : refl_state)
    (cand : (nat * nat * nat) * Z * ((Z * Z * Z) * Z)) : outcome refl_state :=
  let '((swap, i), (reflection, j)) := cand in
  if skipped keep_stereo i j then Ok st else
  let tmp_atoms := q_atoms in
  let tmp_coord := map (swap_axes swap) q_coord in
  let tmp_coord := map (fun x => vecmat x (diag (IZR3 reflection))) tmp_coord in
  let tmp_coord := center tmp_coord in
  '(review, tmp_coord, tmp_atoms) <-
     match reorder_method with
     | Some f =>
         r <- f p_atoms tmp_atoms p_coord tmp_coord ;;
         c <- take_z tmp_coord r ;;
         a <- take_z tmp_atoms r ;;
         Ok (Some r, c, a)
     | None => Ok (tmp_review st, tmp_coord, tmp_atoms)
     end ;;
  let this_rmsd := match rotation_method with
                   | None => rmsd p_coord tmp_coord
                   | Some f => f p_coord tmp_coord
                   end in
  match this_rmsd with
  | Ok r =>
      if below r (min_rmsd st)
      then Ok (mk_refl_state (Some r) (Some swap) (Some reflection) review review)
      else Ok (mk_refl_state (min_rmsd st) (min_swap st) (min_reflection st)
                             (min_review st) review)
  | Nan => Ok (mk_refl_state (min_rmsd st) (min_swap st) (min_reflection st)
                             (min_review st) review)
  | Raise e => Raise e
  end.

(** [(p_atoms == q_atoms[min_review]).all()] *)
Definition aligned (review : option (list Z)) : outcome bool :=
  picked <- match review with
            | Some v => take_z q_atoms v
            | None => Ok q_atoms
            end ;;
  if Nat.eqb (length p_atoms) (length picked)
  then Ok (forallb (fun ab => String.eqb (fst ab) (snd ab)) (combine p_atoms picked))
  else Raise ValueError.

Definition check_reflections
  : outcome (option R * option (nat * nat * nat) * option (Z * Z * Z) * option (list Z)) :=
  st <- for_each candidates reflection_body
          (mk_refl_state None None None None None) ;;
  ok <- aligned (min_review st) ;;
  if ok then Ok (min_rmsd st, min_swap st, min_reflection st, min_review st)
  else Raise NotAligned.

End Reflections.

(** ** Vocabulary of the specification *)

Definition orthogonal (M : mat3) : Prop := mmul (transpose M) M = eye.

(** The contract of [np.linalg.svd] at a matrix [C]: orthogonal factors,
    singular values non-negative in descending order, and
    [C = V . diag(S) . W]. *)
Definition is_svd (C : mat3) (VSW : mat3 * vec3 * mat3) : Prop :=
  let '(V, Sv, W) := VSW in
  orthogonal V /\ orthogonal W /\
  (let '(s0, s1, s2) := Sv in 0 <= s2 /\ s2 <= s1 /\ s1 <= s0) /\
  C = mmul (mmul V (diag Sv)) W.


(** The unit row vector of axis [i]. *)
Definition unit_vec (i : nat) : vec3 :=
  match i with 0%nat => (1, 0, 0) | 1%nat => (0, 1, 0) | _ => (0, 0, 1) end.

(** The matrix of [tmp_coord[:, swap]]: column [j] is the unit vector of
    axis [swap[j]]. *)
Definition swap_matrix (s : nat * nat * nat) : mat3 :=
  let '(s0, s1, s2) := s in transpose (unit_vec s0, unit_vec s1, unit_vec s2).

(** The linear map a candidate of [check_reflections] applies to the rows
    of [q_coord]: the axis swap followed by the reflection. *)
Definition candidate_matrix (s : nat * nat * nat) (r : Z * Z * Z) : mat3 :=
  mmul (swap_matrix s) (diag (IZR3 r)).

(** Parity of an axis swap, by counting its inversions. *)
Definition swap_parity (s : nat * nat * nat) : Z :=
  let '(s0, s1, s2) := s in
  let inv (a b : nat) : nat := if Nat.ltb b a then 1%nat else 0%nat in
  if Nat.even (inv s0 s1 + inv s0 s2 + inv s1 s2) then 1%Z else (-1)%Z.

(** Parity of a reflection: the product of its three signs. *)
Definition reflection_parity (r : Z * Z * Z) : Z :=
  let '(r0, r1, r2) := r in (r0 * r1 * r2)%Z.

Definition proper (s : nat * nat * nat) (r : Z * Z * Z) : Prop :=
  (swap_parity s * reflection_parity r)%Z = 1%Z /\ det (candidate_matrix s r) = 1.

(** The candidates the loop of [check_reflections] does not skip. *)
Definition evaluated (keep_stereo : bool)
  : list ((nat * nat * nat) * Z * ((Z * Z * Z) * Z)) :=
  filter (fun c => negb (skipped keep_stereo (snd (fst c)) (snd (snd c)))) candidates.


(** [x] is an eigenvector of [M] for the eigenvalue [lam]. *)
Definition eigenvector_of (M : mat3) (lam : R) (x : vec3) : Prop :=
  x <> vzero /\ matvec M x = vscale lam x.

Definition largest_eigenvalue (M : mat3) (lam : R) : Prop :=
  (exists x, eigenvector_of M lam x) /\
  (forall mu x, eigenvector_of M mu x -> mu <= lam).

(** [x] is a principal axis of the tensor [M]: an eigenvector of its
    largest eigenvalue. *)
Definition principal_axis (M : mat3) (x : vec3) : Prop :=
  exists lam, largest_eigenvalue M lam /\ eigenvector_of M lam x.

(** The contract of [np.linalg.eig] at a matrix [M]: column [i] of the
    second result is a unit eigenvector for entry [i] of the first, and the
    columns are independent. *)
Definition is_eig (M : mat3) (wv : vec3 * mat3) : Prop :=
  let '(w, v) := wv in
  (forall i, (i < 3)%nat ->
     matvec M (col v i) = vscale (vcomp w i) (col v i) /\
     vdot (col v i) (col v i) = 1) /\
  det v <> 0.

(** Four hydrogen atoms: two on the line through (3,4,0), two on the z axis. *)
Definition axis_atoms : labels := ["H"; "H"; "H"; "H"]%string.
Definition axis_coord : points := [(3, 4, 0); (-3, -4, 0); (0, 0, 1); (0, 0, -1)].
Definition axis_tensor : mat3 :=
  ((34 * 1.008, -24 * 1.008, 0), (-24 * 1.008, 20 * 1.008, 0), (0, 0, 50 * 1.008)).
(** An eigendecomposition of [axis_tensor], eigenvectors in the columns. *)
Definition axis_eigval : vec3 := (52 * 1.008, 2 * 1.008, 50 * 1.008).
Definition axis_eigvec : mat3 := ((4/5, 3/5, 0), (-3/5, 4/5, 0), (0, 0, 1)).
Definition axis_eig : eig_routine := fun _ => (axis_eigval, axis_eigvec).


(** The contract of the correspondence solvers: the call returns an index
    array that is a permutation of [0..N), that picks from [q_atoms] the
    labels of [p_atoms] in order, and that sends every index of a label in
    [p_atoms] to an index of the same label in [q_atoms]. *)
Definition label_exact_view (p_atoms q_atoms : labels) (m : outcome (list Z)) : Prop :=
  exists v : list nat,
    m = Ok (map Z.of_nat v) /\
    Permutation v (seq 0 (length p_atoms)) /\
    take q_atoms v = Ok p_atoms /\
    (forall i j a, nth_error v i = Some j -> nth_error p_atoms i = Some a ->
                   In j (where_eq q_atoms a)).

(** What the shared loop needs of a per-group solver: on two non-empty
    groups of equal size k it returns a permutation of [0..k). *)
Definition group_solver_ok (solve : points -> points -> outcome (option (list nat))) : Prop :=
  forall A B : points, A <> [] -> length A = length B ->
  exists v, solve A B = Ok (Some v) /\ Permutation v (seq 0 (length A)).


(** ** Heap's algorithm by recursion on the level

    The loop of [generate_permutations] is a counter in mixed radix; read
    level by level it is the recursive algorithm below.  [heap_rec k l] is
    what the loop does between [i = 0] (counters below [k] zero) and its
    first arrival at [i = k]: the lists yielded on the way and the final
    contents. *)

Section HeapRec.

Variable A : Type.

(** The turns of the loop at [i = k] while [c[k]] runs from [k - todo] to
    [k]: swap, yield, and the whole of the lower levels again. *)
Fixpoint heap_rounds (lower : list A -> list (list A) * list A) (k todo : nat) (l : list A)
  : list (list A) * list A :=
  match todo with
  | O => ([], l)
  | S todo' =>
      match (if Nat.even k then swap l 0 k else swap l (k - todo) k) with
      | Some l1 =>
          let '(ys1, l2) := lower l1 in
          let '(ys2, l3) := heap_rounds lower k todo' l2 in
          (l1 :: ys1 ++ ys2, l3)
      | None => ([], l)
      end
  end.

Fixpoint heap_rec (k : nat) (l : list A) : list (list A) * list A :=
  match k with
  | O => ([], l)
  | S k' =>
      let '(ys0, l0) := heap_rec k' l in
      let '(ys, l') := heap_rounds (heap_rec k') k' k' l0 in
      (ys0 ++ ys, l')
  end.

Variable d : A.

(** The list whose entry [p] is entry [G p] of [l]. *)
Definition reindex (G : nat -> nat) (l : list A) : list A :=
  map (fun p => nth (G p) l d) (seq 0 (length l)).

Fixpoint insert_all (x : A) (l : list A) : list (list A) :=
  match l with
  | [] => [[x]]
  | y :: l' => (x :: l) :: map (cons y) (insert_all x l')
  end.

(** Every arrangement of [l], by inserting the head everywhere. *)
Fixpoint all_perms (l : list A) : list (list A) :=
  match l with
  | [] => [[]]
  | x :: l' => flat_map (insert_all x) (all_perms l')
  end.

End HeapRec.

(** The transposition of positions [a] and [b]. *)
Definition transp (a b p : nat) : nat :=
  if Nat.eqb p a then b else if Nat.eqb p b then a else p.

(** Where the entries are after [heap_rec k]: entry [p] of the result is
    entry [heap_net k p] of the start.  For odd [k] the first and last of
    the [k] entries are exchanged; for even [k] the result is
    [k-3, k-2, 1, 2, ..., k-4, k-1, 0] (Sedgewick 1977). *)
Definition heap_net (k p : nat) : nat :=
  if Nat.leb k p then p
  else if Nat.even k then
    if Nat.eqb p (k - 1) then 0
    else if Nat.eqb p (k - 2) then k - 1
    else if Nat.eqb p 0 then k - 3
    else if Nat.eqb p 1 then k - 2
    else p - 1
  else transp 0 (k - 1) p.

(** For even [k] one round at level [k] (swap 0 and k, then the lower
    levels) moves the entries around one cycle of length [k+1]:
    k, 0, k-3, k-4, ..., 1, k-2, k-1.  [heap_idx k p] is the place of
    position [p] on that cycle and [heap_u k i] what the start held at
    place [i] after the lower levels ran once. *)
Definition heap_idx (k p : nat) : nat :=
  if Nat.eqb p k then 0
  else if Nat.eqb p 0 then 1
  else if Nat.eqb p (k - 1) then k
  else if Nat.eqb p (k - 2) then k - 1
  else k - 1 - p.

Definition heap_u (k i : nat) : nat :=
  if Nat.eqb i 0 then k
  else if Nat.eqb i k then 0
  else if Nat.eqb i (k - 1) then k - 1
  else if Nat.eqb i (k - 2) then k - 2
  else k - 2 - i.

Definition heap_addmod (k a j : nat) : nat :=
  if Nat.ltb (a + j) (k + 1) then a + j else a + j - (k + 1).

(** Where the entries are at level [k] before round [j]: entry [p] is entry
    [heap_phi k j p] of the list the level started from. *)
Definition heap_phi (k j p : nat) : nat :=
  if Nat.ltb k p then p
  else if Nat.even k then heap_u k (heap_addmod k (heap_idx k p) j)
  else if Nat.eqb j 0 then transp 0 (k - 1) p
  else if Nat.eqb j k then heap_net (S k) p
  else if Nat.eqb j 1 then
    (if Nat.eqb p (k - 1) then k else if Nat.eqb p k then k - 1 else p)
  else if Nat.eqb p 0 then (if Nat.even j then k else 0)
  else if Nat.eqb p 1 then k - 1
  else if Nat.ltb p j then p - 1
  else if Nat.ltb p (k - 1) then p
  else if Nat.eqb p (k - 1) then (if Nat.even j then 0 else k)
  else j - 1.

(** The swap of round [j] at level [k] exchanges position [k] with
    position 0 (even [k]) or [j] (odd [k]). *)
Definition heap_pivot (k j : nat) : nat := if Nat.even k then 0%nat else j.


(** What the correspondence solvers need of [np.argsort]: the result is a
    permutation of the positions of its argument. *)
Definition argsort_ok (argsort : argsort_routine) : Prop :=
  forall keys : list R, Permutation (argsort keys) (seq 0 (length keys)).

(** What they need of [linear_sum_assignment]: on a square cost matrix the
    column indices are a permutation of the columns. *)
Definition lsa_ok (lsa : lsa_routine) : Prop :=
  forall M : list (list R),
    (forall r, In r M -> length r = length M) ->
    Permutation (snd (lsa M)) (seq 0 (length M)).

(** The label has a mass in [ELEMENTS_WEIGHTS]. *)
Definition known_label (a : string) : Prop :=
  exists m, lookup (lower a) ELEMENTS_WEIGHTS = Ok m.

(** The pairs on which [rotation_matrix_vectors] does not divide by zero. *)
Definition rmv_defined (v1 v2 : vec3) : Prop :=
  v1 = v2 \/ v1 = vneg v2 \/ cross v1 v2 <> vzero.


(** Two routines that meet the contracts above: an insertion sort of the
    positions by key, and the assignment of row [i] to column [i]. *)
Fixpoint insert_key (k : R) (i : nat) (l : list (R * nat)) : list (R * nat) :=
  match l with
  | [] => [(k, i)]
  | (k', i') :: l' =>
      if Rle_dec k k' then (k, i) :: l else (k', i') :: insert_key k i l'
  end.

Definition insertion_argsort : argsort_routine :=
  fun keys =>
    map snd (fold_right (fun ki acc => insert_key (fst ki) (snd ki) acc) []
                        (combine keys (seq 0 (length keys)))).

Definition diagonal_lsa : lsa_routine :=
  fun M => (seq 0 (length M), seq 0 (length M)).


(** ** Vocabulary of the linear-algebra properties *)

(** The adjugate: [A . adj A = det A . I]. *)
Definition adjugate (A : mat3) : mat3 :=
  let '((a00, a01, a02), (a10, a11, a12), (a20, a21, a22)) := A in
  ((a11 * a22 - a12 * a21, a02 * a21 - a01 * a22, a01 * a12 - a02 * a11),
   (a12 * a20 - a10 * a22, a00 * a22 - a02 * a20, a02 * a10 - a00 * a12),
   (a10 * a21 - a11 * a20, a01 * a20 - a00 * a21, a00 * a11 - a01 * a10)).

Definition symmetric (M : mat3) : Prop := transpose M = M.

(** [x . M . x] *)
Definition qform (M : mat3) (x : vec3) : R := vdot x (matvec M x).

Definition positive_semidefinite (M : mat3) : Prop := forall x, 0 <= qform M x.

(** The image of a point under the rigid motion [q |-> Rm . q + t]. *)
Definition rigid (Rm : mat3) (t : vec3) (q : vec3) : vec3 := vadd (matvec Rm q) t.

(** [sum_j w_j * f q_j] *)
Definition wsum (f : vec3 -> R) (Q : points) (W : list R) : R :=
  rsum (map2 (fun q w => w * f q) Q W).

(** An octahedron with three different half-axes, the quarter turn about
    z, and the factors of the covariance the two give. *)
Definition octa_Q : points :=
  [(3, 0, 0); (-3, 0, 0); (0, 2, 0); (0, -2, 0); (0, 0, 1); (0, 0, -1)].
Definition quarter_turn : mat3 := ((0, -1, 0), (1, 0, 0), (0, 0, 1)).
Definition octa_svd : svd_routine := fun _ => (quarter_turn, (3, 4 / 3, 1 / 3), eye).


(** The factors of [octa_Q^T . (octa_Q . quarter_turn)]. *)
Definition octa_svd_rows : svd_routine := fun _ => (eye, (18, 8, 2), quarter_turn).


(** The score [rmsd_temp] that the loop of [brute_permutation] gives an
    ordering: [kabsch_rmsd(A, B[reorder_indices])]. *)
Definition brute_score (svd : svd_routine) (A B : points) (w : list nat) (r : R) : Prop :=
  exists Bw, take B w = Ok Bw /\ kabsch_rmsd svd A Bw None false = Ok r.

(** The score [this_rmsd] of one pass of the loops of [check_reflections]:
    swap the axes, reflect, centre, reorder, rotate. *)
Definition candidate_rmsd (reorder_method : option reorder_fn)
    (rotation_method : option rotation_fn)
    (p_atoms q_atoms : labels) (p_coord q_coord : points)
    (cand : (nat * nat * nat) * Z * ((Z * Z * Z) * Z)) : outcome R :=
  let '((swap, i), (reflection, j)) := cand in
  let tmp_coord := map (swap_axes swap) q_coord in
  let tmp_coord := map (fun x => vecmat x (diag (IZR3 reflection))) tmp_coord in
  let tmp_coord := center tmp_coord in
  tmp_coord <-
    match reorder_method with
    | Some f =>
        r <- f p_atoms q_atoms p_coord tmp_coord ;;
        c <- take_z tmp_coord r ;;
        a <- take_z q_atoms r ;;
        Ok c
    | None => Ok tmp_coord
    end ;;
  match rotation_method with
  | None => rmsd p_coord tmp_coord
  | Some f => f p_coord tmp_coord
  end.


(** The contract of [np.linalg.eigh] on a 4x4 matrix: it returns, and the
    eigenvectors it returns are normalised. *)
Definition eigh_ok (eigh : eigh_routine) : Prop :=
  forall A, exists vals vecs,
    eigh (Matrix A) = Ok (vals, vecs) /\
    forall i, vdot4 (col4 vecs i) (col4 vecs i) = 1.

(** A routine that meets the contract: it answers with the unit vectors. *)
Definition unit_eigh : eigh_routine :=
  fun _ => Ok ((0, 0, 0, 1),
               ((1, 0, 0, 0), (0, 1, 0, 0), (0, 0, 1, 0), (0, 0, 0, 1))).


(** [(X * X).sum()]: the sum of the squared lengths of the rows. *)
Definition sumsq (X : points) : R := total (map (fun x => vmul x x) X).

(** A decomposition routine for diagonal matrices: it reads the diagonal.
    The octahedron [octa_Q] and the same octahedron twice as large. *)
Definition diag_svd : svd_routine :=
  fun C => let '((c00, _, _), (_, c11, _), (_, _, c22)) := C in (eye, (c00, c11, c22), eye).
Definition octa_Q2 : points :=
  [(6, 0, 0); (-6, 0, 0); (0, 4, 0); (0, -4, 0); (0, 0, 2); (0, 0, -2)].


(** What [np.argsort] returns on a list of keys: a permutation of the
    positions that lists them by ascending key. *)
Definition sorts_keys (argsort : argsort_routine) (keys : list R) : Prop :=
  Permutation (argsort keys) (seq 0 (length keys)) /\
  forall a b, (a <= b)%nat -> (b < length keys)%nat ->
    nth (nth a (argsort keys) 0%nat) keys 0 <= nth (nth b (argsort keys) 0%nat) keys 0.

(** A routine that sorts every list of two keys. *)
Definition pair_argsort : argsort_routine :=
  fun keys =>
    match keys with
    | [a; b] => if Rlt_dec b a then [1; 0]%nat else [0; 1]%nat
    | _ => seq 0 (length keys)
    end.

(** [a <= b] on two minima, [None] standing for [np.inf]. *)
Definition below_or_equal (a b : option R) : Prop :=
  match b with
  | None => True
  | Some y => match a with Some x => x <= y | None => False end
  end.


(* ================================================================== *)
(** * Part II: properties *)
(* ================================================================== *)

Unset Implicit Arguments.

(** ** Tactics and algebra of 3x3 matrices *)

Ltac split_vec :=
  repeat match goal with
         | v : vec3 |- _ => destruct v as [[? ?] ?]
         | M : mat3 |- _ => destruct M as [[? ?] ?]
         end.

Ltac tuple_eq :=
  repeat match goal with
         | |- (_, _) = (_, _) => apply f_equal2
         | |- Ok _ = Ok _ => apply f_equal
         end.

Ltac mat_unfold :=
  cbv [mmul vecmat matvec transpose vdot vtotal vmul vadd vsub vscale vneg
       madd msub mscale outer diag det trace eye mzero vzero
       neg_last_col neg_last cross skew row col] in *.

Ltac mat_ring :=
  intros; split_vec; mat_unfold; tuple_eq; ring.

Lemma det_mmul : forall A B, det (mmul A B) = det A * det B.
Proof. mat_ring. Qed.

Lemma det_transpose : forall A, det (transpose A) = det A.
Proof. mat_ring. Qed.

Lemma det_eye : det eye = 1.
Proof. mat_ring. Qed.

Lemma det_neg_last_col : forall V, det (neg_last_col V) = - det V.
Proof. mat_ring. Qed.

Lemma mmul_assoc : forall A B C, mmul (mmul A B) C = mmul A (mmul B C).
Proof. mat_ring. Qed.

Lemma transpose_mmul : forall A B, transpose (mmul A B) = mmul (transpose B) (transpose A).
Proof. mat_ring. Qed.

Lemma transpose_involutive : forall A, transpose (transpose A) = A.
Proof. mat_ring. Qed.

Lemma mmul_eye_l : forall A, mmul eye A = A.
Proof. mat_ring. Qed.

Lemma mmul_eye_r : forall A, mmul A eye = A.
Proof. mat_ring. Qed.

Lemma orthogonal_det_sq : forall M, orthogonal M -> det M * det M = 1.
Proof.
  intros M H. unfold orthogonal in H.
  rewrite <- (det_transpose M) at 1. rewrite <- det_mmul, H. apply det_eye.
Qed.

Lemma orthogonal_det : forall M, orthogonal M -> det M = 1 \/ det M = -1.
Proof.
  intros M H. apply orthogonal_det_sq in H.
  assert (E : (det M - 1) * (det M + 1) = 0) by nra.
  apply Rmult_integral in E. destruct E; [left | right]; lra.
Qed.

(** ** Partial float operations *)

Lemma np_div_ok : forall x y, y <> 0 -> np_div x y = Ok (x / y).
Proof. intros x y H. unfold np_div. destruct (Req_dec_T y 0); [contradiction | reflexivity]. Qed.

Lemma np_div_zero : forall x, np_div x 0 = Nan.
Proof. intros x. unfold np_div. destruct (Req_dec_T 0 0); [reflexivity | contradiction]. Qed.

Lemma np_sqrt_ok : forall x, 0 <= x -> np_sqrt x = Ok (sqrt x).
Proof. intros x H. unfold np_sqrt. destruct (Rlt_dec x 0); [lra | reflexivity]. Qed.

Lemma np_sqrt_not_raise : forall x e, np_sqrt x <> Raise e.
Proof. intros x e. unfold np_sqrt. destruct (Rlt_dec x 0); discriminate. Qed.

Lemma np_div_not_raise : forall x y e, np_div x y <> Raise e.
Proof. intros x y e. unfold np_div. destruct (Req_dec_T y 0); discriminate. Qed.

Lemma clamp0_nonneg : forall x, 0 <= clamp0 x.
Proof. intros x. unfold clamp0. destruct (Rlt_dec x 0); lra. Qed.

Lemma clamp0_id : forall x, 0 <= x -> clamp0 x = x.
Proof. intros x H. unfold clamp0. destruct (Rlt_dec x 0); lra. Qed.

(** ** rmsd and broadcasting (C7) *)

Lemma broadcast2_raises : forall f V W,
  raises (broadcast2 f V W) <->
  (length V <> length W /\ length V <> 1 /\ length W <> 1)%nat.
Proof.
  intros f V W. unfold broadcast2, raises.
  destruct (Nat.eqb_spec (length V) (length W)) as [E | E].
  - split; [intros [e H]; discriminate | intros [H _]; contradiction].
  - destruct V as [| v [| v' V']]; destruct W as [| w [| w' W']]; simpl in *;
      split; try (intros [e H]; discriminate H); try (intros (_ & H1 & H2); congruence);
      try (intros _; repeat split; congruence); try (intros _; eexists; reflexivity).
    all: try (exfalso; apply E; reflexivity).
    all: try (intros [e H]; repeat split; congruence).
Qed.

(** C7 (as stated, refuted): a one-row V is broadcast against a two-row W,
    and [rmsd] returns the square root of 2 instead of failing. *)
Lemma rmsd_length_mismatch_returns :
  (length [(0, 0, 0)] <> length [(1, 0, 0); (0, 1, 0)])%nat /\
  rmsd [(0, 0, 0)] [(1, 0, 0); (0, 1, 0)] = Ok (sqrt 2).
Proof.
  split; [simpl; lia |].
  unfold rmsd, broadcast2. simpl.
  unfold total, vsum. simpl. unfold vtotal.
  rewrite np_div_ok by lra. simpl.
  rewrite np_sqrt_ok by lra. do 2 f_equal. field.
Qed.

(** C7 (amended): [rmsd(V, W)] raises exactly when the two lengths differ
    and neither of them is 1; a single row is broadcast instead. *)
Theorem rmsd_raises_iff : forall V W,
  raises (rmsd V W) <->
  (length V <> length W /\ length V <> 1 /\ length W <> 1)%nat.
Proof.
  intros V W. rewrite <- (broadcast2_raises vsub V W).
  unfold rmsd, raises. destruct (broadcast2 vsub V W) as [diff | | e]; simpl.
  - split; intros [e H]; [| discriminate].
    destruct (np_div _ _) eqn:D; simpl in H.
    + exfalso. exact (np_sqrt_not_raise _ _ H).
    + discriminate.
    + exfalso. rewrite H in D. inversion H; subst. exact (np_div_not_raise _ _ _ D).
  - split; intros [e H]; discriminate.
  - split; intros _; exists e; reflexivity.
Qed.

(** ** The sign correction (C3) *)

Lemma orthogonal_neg_last_col : forall V, orthogonal V -> orthogonal (neg_last_col V).
Proof.
  unfold orthogonal. intros V H. split_vec. mat_unfold.
  inversion H. tuple_eq; lra.
Qed.

Lemma orthogonal_mmul : forall A B, orthogonal A -> orthogonal B -> orthogonal (mmul A B).
Proof.
  unfold orthogonal. intros A B HA HB.
  rewrite transpose_mmul, mmul_assoc, <- (mmul_assoc (transpose A)), HA, mmul_eye_l.
  exact HB.
Qed.

Lemma sign_fix_det : forall V Sv W V' Sv' W',
  orthogonal V -> orthogonal W ->
  sign_fix (V, Sv, W) = (V', Sv', W') ->
  det (mmul V' W') = 1 /\ orthogonal V' /\ W' = W.
Proof.
  intros V Sv W V' Sv' W' HV HW. unfold sign_fix.
  destruct (orthogonal_det _ HV) as [EV | EV], (orthogonal_det _ HW) as [EW | EW];
    destruct (Rlt_dec (det V * det W) 0) as [L | L];
    intros E; inversion E; subst; clear E;
    rewrite det_mmul, ?det_neg_last_col, EV, EW in *;
    try (exfalso; lra);
    (split; [lra | split; [| reflexivity]]);
    auto using orthogonal_neg_last_col.
Qed.

(** C3: for point sets of equal length, [kabsch] returns a matrix of
    determinant +1 whenever the factors [np.linalg.svd] returned are
    orthogonal; when [det(V) * det(W) < 0] that matrix is [V' . W] with the
    last column of V negated. *)
Theorem kabsch_det_one : forall (svd : svd_routine) (P Q : points),
  length P = length Q ->
  (forall C, covariance P Q = Ok C -> is_svd C (svd C)) ->
  exists C U,
    covariance P Q = Ok C /\
    kabsch svd P Q = Ok U /\
    det U = 1 /\
    orthogonal U /\
    (let '(V, _, W) := svd C in
     det V * det W < 0 -> U = mmul (neg_last_col V) W).
Proof.
  intros svd P Q Hlen Hsvd.
  unfold kabsch. unfold covariance in *.
  rewrite Hlen, Nat.eqb_refl in *.
  set (C := msum (map2 outer P Q)) in *.
  specialize (Hsvd C eq_refl).
  exists C. simpl.
  destruct (svd C) as [[V Sv] W] eqn:E.
  destruct Hsvd as (HV & HW & _ & _).
  destruct (sign_fix (V, Sv, W)) as [[V' Sv'] W'] eqn:F.
  destruct (@sign_fix_det V Sv W V' Sv' W' HV HW F) as (D & HV' & ->).
  exists (mmul V' W). repeat split; auto.
  - apply orthogonal_mmul; assumption.
  - intros L. unfold sign_fix in F.
    destruct (Rlt_dec (det V * det W) 0); [| contradiction].
    inversion F; reflexivity.
Qed.

(** A pair of point sets related by the mirror z -> -z: the covariance is
    diag(1,1,-1) and the raw factors multiply to a reflection. *)
Definition mirror_P : points := [(1, 0, 0); (0, 1, 0); (0, 0, 1)].
Definition mirror_Q : points := [(1, 0, 0); (0, 1, 0); (0, 0, -1)].
Definition mirror_svd : svd_routine :=
  fun _ => (eye, (1, 1, 1), ((1, 0, 0), (0, 1, 0), (0, 0, -1))).

Lemma kabsch_det_one_witness :
  exists C U,
    covariance mirror_P mirror_Q = Ok C /\
    kabsch mirror_svd mirror_P mirror_Q = Ok U /\
    det U = 1 /\
    orthogonal U /\
    (let '(V, _, W) := mirror_svd C in
     det V * det W < 0 -> U = mmul (neg_last_col V) W).
Proof.
  apply (kabsch_det_one mirror_svd mirror_P mirror_Q).
  - reflexivity.
  - intros C H. unfold covariance in H. simpl in H. inversion H; subst; clear H.
    unfold is_svd, mirror_svd, orthogonal.
    repeat split; try lra; mat_unfold; tuple_eq; ring.
Defined.

(** ** The clamp of the weighted path (C9) *)

Lemma total_weights3 : forall W, total (weights3 W) = 3 * rsum W.
Proof.
  unfold total. intros W.
  assert (H : vsum (weights3 W) = (rsum W, rsum W, rsum W)).
  { induction W as [| w W IH]; [reflexivity |].
    unfold weights3, vsum in *. simpl. rewrite IH. reflexivity. }
  rewrite H. unfold vtotal. ring.
Qed.

(** C9: whenever the weights do not sum to zero, [kabsch_weighted] takes
    the square root of the clamped mean squared deviation, which is never
    negative, and returns a non-negative RMSD; this holds whatever
    [np.linalg.svd] returned. *)
Theorem kabsch_weighted_rmsd_nonneg :
  forall (svd : svd_routine) (P Q : points) (W : option (list R)),
  let w := default_weights P W in
  length Q = length P -> length w = length P -> rsum w <> 0 ->
  let iw := 3 / total (weights3 w) in
  let msd := snd (kabsch_weighted_core svd P Q w iw) in
  exists U V,
    kabsch_weighted svd P Q W = Ok (U, V, sqrt (clamp0 msd)) /\
    np_sqrt (clamp0 msd) = Ok (sqrt (clamp0 msd)) /\
    0 <= clamp0 msd /\
    (msd < 0 -> clamp0 msd = 0) /\
    0 <= sqrt (clamp0 msd).
Proof.
  intros svd P Q W w HQ HW Hsum iw msd.
  unfold kabsch_weighted, kabsch_weighted_body. fold w.
  rewrite HQ, HW, Nat.eqb_refl. simpl.
  rewrite np_div_ok by (rewrite total_weights3; lra).
  fold iw. simpl.
  destruct (kabsch_weighted_core svd P Q w iw) as [[U V] m] eqn:E.
  subst msd. simpl.
  pose proof (clamp0_nonneg m) as Hc.
  rewrite (np_sqrt_ok _ Hc). simpl.
  exists U, V. repeat split; auto.
  - intros L. unfold clamp0. destruct (Rlt_dec m 0); [reflexivity | contradiction].
  - apply sqrt_pos.
Qed.

Lemma kabsch_weighted_rmsd_nonneg_witness :
  let svd : svd_routine := fun _ => (eye, (1, 0, 0), eye) in
  let P : points := [(0, 0, 0)] in
  let Q : points := [(1, 0, 0)] in
  let iw := 3 / total (weights3 (default_weights P None)) in
  let msd := snd (kabsch_weighted_core svd P Q (default_weights P None) iw) in
  exists U V,
    kabsch_weighted svd P Q None = Ok (U, V, sqrt (clamp0 msd)) /\
    np_sqrt (clamp0 msd) = Ok (sqrt (clamp0 msd)) /\
    0 <= clamp0 msd /\
    (msd < 0 -> clamp0 msd = 0) /\
    0 <= sqrt (clamp0 msd).
Proof.
  intros svd P Q.
  apply (kabsch_weighted_rmsd_nonneg svd P Q None).
  - reflexivity.
  - reflexivity.
  - simpl. lra.
Defined.

(** ** rotation_matrix_vectors on collinear vectors (C10) *)

Lemma scale_fixed_zero : forall k a, k <> 1 -> a = k * a -> a = 0.
Proof.
  intros k a Hk H. assert (E : (1 - k) * a = 0) by lra.
  apply Rmult_integral in E. destruct E; [lra | assumption].
Qed.

(** C10: for a non-zero v and v2 = k.v with k neither 1 nor -1, neither
    equality guard of [rotation_matrix_vectors] fires, the cross product is
    zero, and the Rodrigues branch divides by s*s = 0. *)
Theorem rotation_matrix_vectors_collinear_unguarded : forall (v : vec3) (k : R),
  v <> vzero -> k <> 1 -> k <> -1 ->
  cross v (vscale k v) = vzero /\
  rmv_branch_of v (vscale k v) = Rodrigues /\
  rodrigues_divisor v (vscale k v) = 0 /\
  rotation_matrix_vectors v (vscale k v) = Nan.
Proof.
  intros [[a b] c] k Hv Hk1 Hk2.
  assert (Hc : cross (a, b, c) (vscale k (a, b, c)) = vzero).
  { unfold cross, vscale, vzero. tuple_eq; ring. }
  assert (Hb : rmv_branch_of (a, b, c) (vscale k (a, b, c)) = Rodrigues).
  { unfold rmv_branch_of.
    destruct (vec_eq_dec (a, b, c) (vscale k (a, b, c))) as [E | _].
    - exfalso. apply Hv. unfold vscale in E. injection E as H0 H1 H2.
      rewrite (scale_fixed_zero _ _ Hk1 H0), (scale_fixed_zero _ _ Hk1 H1),
        (scale_fixed_zero _ _ Hk1 H2). reflexivity.
    - destruct (vec_eq_dec (a, b, c) (vneg (vscale k (a, b, c)))) as [E | _];
        [| reflexivity].
      exfalso. apply Hv. unfold vscale, vneg in E. injection E as H0 H1 H2.
      assert (Hk : - k <> 1) by lra.
      rewrite (scale_fixed_zero (- k) a), (scale_fixed_zero (- k) b),
        (scale_fixed_zero (- k) c) by lra. reflexivity. }
  assert (Hd : rodrigues_divisor (a, b, c) (vscale k (a, b, c)) = 0).
  { unfold rodrigues_divisor. rewrite Hc. unfold norm, vdot, vmul, vzero, vtotal.
    replace (0 * 0 + 0 * 0 + 0 * 0) with 0 by ring. rewrite sqrt_0. ring. }
  repeat split; auto.
  unfold rotation_matrix_vectors. rewrite Hb, Hd, np_div_zero. reflexivity.
Qed.

Lemma rotation_matrix_vectors_collinear_unguarded_witness :
  cross (1, 0, 0) (vscale 2 (1, 0, 0)) = vzero /\
  rmv_branch_of (1, 0, 0) (vscale 2 (1, 0, 0)) = Rodrigues /\
  rodrigues_divisor (1, 0, 0) (vscale 2 (1, 0, 0)) = 0 /\
  rotation_matrix_vectors (1, 0, 0) (vscale 2 (1, 0, 0)) = Nan.
Proof.
  apply (rotation_matrix_vectors_collinear_unguarded (1, 0, 0) 2).
  - unfold vzero. intros H. inversion H. lra.
  - lra.
  - lra.
Defined.

(** ** Loops *)

Lemma for_each_invariant : forall {A St : Type} (Inv : St -> Prop) (l : list A)
    (body : St -> A -> outcome St),
  (forall s a s', In a l -> Inv s -> body s a = Ok s' -> Inv s') ->
  forall s s', Inv s -> for_each l body s = Ok s' -> Inv s'.
Proof.
  intros A St Inv l body. induction l as [| a l IH]; intros Hbody s s' Hs H; simpl in H.
  - inversion H; subst; assumption.
  - destruct (body s a) as [s1 | | e] eqn:E; simpl in H; try discriminate.
    apply (IH (fun s a s' Hin => Hbody s a s' (or_intror Hin)) s1 s'); auto.
    apply (Hbody s a s1); simpl; auto.
Qed.

Lemma for_each_fixed : forall {A St : Type} (l : list A) (body : St -> A -> outcome St) s,
  (forall a, In a l -> body s a = Ok s) -> for_each l body s = Ok s.
Proof.
  intros A St l body s. induction l as [| a l IH]; intros H; simpl; [reflexivity |].
  rewrite (H a) by (simpl; auto). simpl. apply IH. intros b Hb. apply H. simpl; auto.
Qed.

(** ** The reflection search under keep_stereo (C5) *)

Ltac in_list := repeat first [left; reflexivity | right].

Ltac compute_list :=
  match goal with
  | |- Forall ?P ?l => let l' := eval vm_compute in l in change (Forall P l')
  end.

Ltac proper_case :=
  split; [reflexivity |];
  unfold candidate_matrix, swap_matrix, unit_vec, IZR3; mat_unfold; ring.

Lemma candidates_length : length candidates = 48%nat.
Proof. reflexivity. Qed.

Lemma evaluated_true_length : length (evaluated true) = 24%nat.
Proof. reflexivity. Qed.

Lemma evaluated_false_all : evaluated false = candidates.
Proof. reflexivity. Qed.

Lemma evaluated_true_proper :
  Forall (fun c => proper (fst (fst c)) (fst (snd c))) (evaluated true).
Proof.
  compute_list.
  repeat (apply Forall_cons; [cbv [fst snd]; proper_case |]).
  apply Forall_nil.
Qed.

Lemma proper_evaluated :
  Forall (fun c => proper (fst (fst c)) (fst (snd c)) -> In c (evaluated true)) candidates.
Proof.
  compute_list.
  repeat (apply Forall_cons;
          [cbv [fst snd]; intros [Hp _];
           first [discriminate Hp | vm_compute; in_list] |]).
  apply Forall_nil.
Qed.

(** What the loop keeps true of the minimum it tracks: nothing is chosen
    yet, or the chosen swap and reflection come from a candidate that was
    not skipped. *)
Definition chosen_evaluated (keep_stereo : bool) (st : refl_state) : Prop :=
  match min_swap st, min_reflection st with
  | None, None => True
  | Some s, Some r => exists i j, In (s, i, (r, j)) (evaluated keep_stereo)
  | _, _ => False
  end.

Lemma reflection_body_chosen : forall reorder rotation ks p_atoms q_atoms p_coord q_coord
    st cand st',
  In cand candidates ->
  chosen_evaluated ks st ->
  reflection_body reorder rotation ks p_atoms q_atoms p_coord q_coord st cand = Ok st' ->
  chosen_evaluated ks st'.
Proof.
  intros reorder rotation ks p_atoms q_atoms p_coord q_coord st cand st' Hin Hst.
  destruct cand as [[s i] [r j]]. unfold reflection_body.
  destruct (skipped ks i j) eqn:Hskip.
  - intros H; inversion H; subst; assumption.
  - assert (Hev : In (s, i, (r, j)) (evaluated ks)).
    { unfold evaluated. apply filter_In. split; [assumption |].
      simpl. rewrite Hskip. reflexivity. }
    match goal with
    | |- bind ?m _ = _ -> _ => destruct m as [[[review c] a] | | e]
    end; simpl; try discriminate.
    match goal with
    | |- match ?m with _ => _ end = _ -> _ => destruct m as [x | | e]
    end; try discriminate.
    + destruct (below x (min_rmsd st)); intros H; inversion H; subst; clear H.
      * unfold chosen_evaluated. simpl. exists i, j. assumption.
      * exact Hst.
    + intros H; inversion H; subst; clear H. exact Hst.
Qed.

(** C5: with [keep_stereo=True], 24 of the 48 candidates are evaluated,
    they are exactly the proper ones (axis-swap parity times reflection
    parity is +1, and the linear map applied to the coordinates has
    determinant +1), and a swap and reflection that [check_reflections]
    returns come from an evaluated candidate, hence are proper. *)
Theorem check_reflections_keep_stereo_proper :
  forall (reorder : option reorder_fn) (rotation : option rotation_fn)
         (p_atoms q_atoms : labels) (p_coord q_coord : points)
         r (s : nat * nat * nat) (f : Z * Z * Z) v,
  check_reflections reorder rotation true p_atoms q_atoms p_coord q_coord
    = Ok (r, Some s, Some f, v) ->
  length candidates = 48%nat /\
  length (evaluated true) = 24%nat /\
  (forall c, In c candidates ->
     (In c (evaluated true) <-> proper (fst (fst c)) (fst (snd c)))) /\
  (exists i j, In (s, i, (f, j)) (evaluated true)) /\
  proper s f.
Proof.
  intros reorder rotation p_atoms q_atoms p_coord q_coord r s f v H.
  split; [reflexivity |]. split; [reflexivity |]. split.
  { intros c Hc. split.
    - intros Hin. pose proof evaluated_true_proper as F.
      rewrite Forall_forall in F. exact (F c Hin).
    - pose proof proper_evaluated as F. rewrite Forall_forall in F. exact (F c Hc). }
  unfold check_reflections in H.
  destruct (for_each candidates _ _) as [st | | e] eqn:L; simpl in H; try discriminate.
  assert (Inv : chosen_evaluated true st).
  { apply (for_each_invariant (chosen_evaluated true) candidates
             (reflection_body reorder rotation true p_atoms q_atoms p_coord q_coord))
      with (s := mk_refl_state None None None None None); auto.
    - intros s0 a s' Hin Hs Hb. eapply reflection_body_chosen; eauto.
    - exact I. }
  destruct (aligned p_atoms q_atoms (min_review st)) as [[|] | | e]; simpl in H;
    try discriminate.
  inversion H; subst; clear H.
  unfold chosen_evaluated in Inv. rewrite H2, H3 in Inv.
  split; [exact Inv |].
  destruct Inv as (i & j & Hin).
  pose proof evaluated_true_proper as F. rewrite Forall_forall in F.
  exact (F _ Hin).
Qed.

Lemma vcomp_zero : forall i, vcomp vzero i = 0.
Proof. intros [| [| i]]; reflexivity. Qed.

Lemma rmsd_origin : rmsd [vzero] [vzero] = Ok 0.
Proof.
  unfold rmsd, broadcast2. simpl. unfold total, vsum. simpl. unfold vtotal.
  rewrite np_div_ok by lra. simpl.
  replace ((0 - 0) * (0 - 0) + 0 + ((0 - 0) * (0 - 0) + 0) + ((0 - 0) * (0 - 0) + 0)) with 0
    by ring.
  unfold Rdiv. rewrite Rmult_0_l. rewrite np_sqrt_ok by lra. rewrite sqrt_0. reflexivity.
Qed.

Lemma candidate_of_origin : forall s r,
  center (map (fun x => vecmat x (diag (IZR3 r))) (map (swap_axes s) [vzero])) = [vzero].
Proof.
  intros [[s0 s1] s2] [[r0 r1] r2]. cbn [map].
  assert (E0 : swap_axes (s0, s1, s2) vzero = vzero).
  { unfold swap_axes. rewrite !vcomp_zero. reflexivity. }
  assert (E : vecmat vzero (diag (IZR3 (r0, r1, r2))) = vzero).
  { unfold IZR3, vzero. mat_unfold. tuple_eq; ring. }
  rewrite E0, E. unfold center, centroid. simpl.
  rewrite !np_div_ok by lra. simpl. unfold vzero, vsub. f_equal. tuple_eq; field.
Qed.

Lemma reflection_body_origin_first :
  reflection_body None None true ["H"%string] ["H"%string] [vzero] [vzero]
    (mk_refl_state None None None None None)
    ((0, 1, 2)%nat, 1%Z, ((1, 1, 1)%Z, 1%Z))
  = Ok (mk_refl_state (Some 0) (Some (0, 1, 2)%nat) (Some (1, 1, 1)%Z) None None).
Proof.
  unfold reflection_body. simpl skipped. cbv iota.
  rewrite candidate_of_origin. simpl bind. rewrite rmsd_origin. reflexivity.
Qed.

Lemma reflection_body_origin_later : forall cand,
  let st := mk_refl_state (Some 0) (Some (0, 1, 2)%nat) (Some (1, 1, 1)%Z) None None in
  reflection_body None None true ["H"%string] ["H"%string] [vzero] [vzero] st cand = Ok st.
Proof.
  intros [[s i] [r j]] st. unfold reflection_body.
  destruct (skipped true i j); [reflexivity |].
  rewrite candidate_of_origin. simpl bind. rewrite rmsd_origin.
  unfold below, st. simpl. destruct (Rlt_dec 0 0); [lra | reflexivity].
Qed.

Lemma check_reflections_origin :
  check_reflections None None true ["H"%string] ["H"%string] [vzero] [vzero]
  = Ok (Some 0, Some (0, 1, 2)%nat, Some (1, 1, 1)%Z, None).
Proof.
  unfold check_reflections.
  change candidates with
    (((0, 1, 2)%nat, 1%Z, ((1, 1, 1)%Z, 1%Z)) :: tl candidates).
  cbn [for_each]. rewrite reflection_body_origin_first. cbn [bind].
  rewrite for_each_fixed by (intros a _; apply reflection_body_origin_later).
  reflexivity.
Qed.

Lemma check_reflections_keep_stereo_proper_witness :
  length candidates = 48%nat /\
  length (evaluated true) = 24%nat /\
  (forall c, In c candidates ->
     (In c (evaluated true) <-> proper (fst (fst c)) (fst (snd c)))) /\
  (exists i j, In ((0, 1, 2)%nat, i, ((1, 1, 1)%Z, j)) (evaluated true)) /\
  proper (0, 1, 2)%nat (1, 1, 1)%Z.
Proof.
  apply (check_reflections_keep_stereo_proper None None
           ["H"%string] ["H"%string] [vzero] [vzero] (Some 0) (0, 1, 2)%nat (1, 1, 1)%Z None).
  exact check_reflections_origin.
Defined.

(** ** The principal axis (C2) *)

Lemma get_principal_axis_is_row : forall eig atoms V M,
  get_inertia_tensor atoms V = Ok M ->
  get_principal_axis eig atoms V = Ok (row (snd (eig M)) (argmax3 (fst (eig M)))).
Proof.
  intros eig atoms V M H. unfold get_principal_axis. rewrite H. simpl.
  destruct (eig M) as [w v]. reflexivity.
Qed.

Lemma lookup_h : lookup (lower "H"%string) ELEMENTS_WEIGHTS = Ok 1.008.
Proof. reflexivity. Qed.

Lemma axis_tensor_computed : get_inertia_tensor axis_atoms axis_coord = Ok axis_tensor.
Proof.
  unfold get_inertia_tensor, get_cm, axis_atoms, axis_coord.
  cbn [masses]. rewrite lookup_h. cbn [bind length Nat.eqb negb].
  destruct (Req_dec_T (rsum [1.008; 1.008; 1.008; 1.008]) 0) as [E | _].
  { exfalso. simpl in E. lra. }
  cbn [map2 vsum fold_right vscale vadd vzero rsum bind].
  match goal with
  | |- context [map (fun x => vsub x ?c) _] =>
      replace c with vzero by (unfold vzero; tuple_eq; lra)
  end.
  cbn [map vsub vzero inertia_loop]. rewrite lookup_h.
  cbn [bind inertia_loop inertia_step].
  unfold axis_tensor. tuple_eq; ring.
Qed.

Lemma axis_eig_valid : is_eig axis_tensor (axis_eig axis_tensor).
Proof.
  unfold is_eig, axis_eig, axis_eigval, axis_eigvec, axis_tensor. split.
  - intros i Hi. destruct i as [| [| [| i]]]; try lia;
      (split; [mat_unfold; cbn [vcomp]; tuple_eq; field | mat_unfold; field]).
  - mat_unfold. lra.
Qed.

Lemma axis_largest : largest_eigenvalue axis_tensor (52 * 1.008).
Proof.
  split.
  - exists (4/5, -3/5, 0). split.
    + intros H. inversion H. lra.
    + unfold axis_tensor. mat_unfold. tuple_eq; field.
  - intros mu [[x y] z] [Hne H]. unfold axis_tensor in H. mat_unfold.
    injection H as H0 H1 H2.
    assert (Hpos : 0 < x * x + y * y + z * z).
    { destruct (Req_dec_T x 0) as [-> |]; [destruct (Req_dec_T y 0) as [-> |];
        [destruct (Req_dec_T z 0) as [-> |] |] |]; try nra.
      exfalso. apply Hne. reflexivity. }
    assert (Q : mu * (x * x + y * y + z * z)
                = 1.008 * (34 * x * x - 48 * x * y + 20 * y * y + 50 * z * z)).
    { replace (mu * (x * x + y * y + z * z))
        with ((mu * x) * x + (mu * y) * y + (mu * z) * z) by ring.
      rewrite <- H0, <- H1, <- H2. ring. }
    assert (B : 1.008 * (34 * x * x - 48 * x * y + 20 * y * y + 50 * z * z)
                <= 52 * 1.008 * (x * x + y * y + z * z)).
    { pose proof (Rle_0_sqr (3 * x + 4 * y)) as S1.
      pose proof (Rle_0_sqr z) as S2. unfold Rsqr in S1, S2.
      assert (M : 0 <= 1.008 * (2 * ((3 * x + 4 * y) * (3 * x + 4 * y)) + 2 * (z * z))).
      { apply Rmult_le_pos; lra. }
      lra. }
    rewrite <- Q in B.
    apply (Rmult_le_reg_r (x * x + y * y + z * z)); [exact Hpos | exact B].
Qed.

(** C2 (the code at a failing input): on [axis_atoms], [axis_coord] the
    inertia tensor is [axis_tensor]; with the eigendecomposition
    [axis_eig], which meets the contract of [np.linalg.eig],
    [get_principal_axis] returns row 0 of the eigenvector matrix,
    (4/5, 3/5, 0).  That row is not an eigenvector of the tensor for any
    eigenvalue; the principal axis is column 0, (4/5, -3/5, 0). *)
Theorem get_principal_axis_returns_row_not_axis :
  get_inertia_tensor axis_atoms axis_coord = Ok axis_tensor /\
  is_eig axis_tensor (axis_eig axis_tensor) /\
  get_principal_axis axis_eig axis_atoms axis_coord = Ok (4/5, 3/5, 0) /\
  (forall lam, ~ eigenvector_of axis_tensor lam (4/5, 3/5, 0)) /\
  ~ principal_axis axis_tensor (4/5, 3/5, 0) /\
  principal_axis axis_tensor (col axis_eigvec (argmax3 axis_eigval)).
Proof.
  assert (Harg : argmax3 axis_eigval = 0%nat).
  { unfold argmax3, axis_eigval.
    destruct (Rlt_dec (52 * 1.008) (2 * 1.008)); [lra |].
    destruct (Rlt_dec (52 * 1.008) (50 * 1.008)); [lra | reflexivity]. }
  assert (Hnot : forall lam, ~ eigenvector_of axis_tensor lam (4/5, 3/5, 0)).
  { intros lam [_ H]. unfold axis_tensor in H. mat_unfold. injection H as H0 H1 _. lra. }
  split; [exact axis_tensor_computed |].
  split; [exact axis_eig_valid |].
  split.
  { rewrite (get_principal_axis_is_row axis_eig _ _ _ axis_tensor_computed).
    unfold axis_eig. cbn [fst snd]. rewrite Harg. reflexivity. }
  split; [exact Hnot |].
  split.
  { intros (lam & _ & H). exact (Hnot lam H). }
  rewrite Harg. exists (52 * 1.008). split; [exact axis_largest |].
  split.
  - unfold axis_eigvec. cbn. intros H. inversion H. lra.
  - unfold axis_tensor, axis_eigvec. mat_unfold. tuple_eq; field.
Qed.

(** ** Index arrays *)

Lemma update_length : forall {A : Type} (l : list A) i v, length (update l i v) = length l.
Proof.
  intros A l. induction l as [| x l IH]; intros [| i] v; simpl; auto.
Qed.

Lemma update_nth_same : forall {A : Type} (l : list A) i v,
  (i < length l)%nat -> nth_error (update l i v) i = Some v.
Proof.
  intros A l. induction l as [| x l IH]; intros [| i] v H; simpl in *; try lia; auto.
  apply IH. lia.
Qed.

Lemma update_nth_other : forall {A : Type} (l : list A) i j v,
  i <> j -> nth_error (update l i v) j = nth_error l j.
Proof.
  intros A l. induction l as [| x l IH]; intros [| i] [| j] v H; simpl; auto; try congruence.
Qed.

Lemma nth_error_lt : forall {A : Type} (l : list A) t x,
  nth_error l t = Some x -> (t < length l)%nat.
Proof. intros A l t x H. apply nth_error_Some. congruence. Qed.

Lemma where_from_In : forall atoms s a i,
  In i (where_from s a atoms) <->
  exists t, i = (s + t)%nat /\ nth_error atoms t = Some a.
Proof.
  induction atoms as [| b atoms IH]; intros s a i; simpl.
  - split; [tauto | intros (t & _ & H); destruct t; discriminate].
  - destruct (String.eqb_spec b a) as [E | E]; simpl; rewrite IH; split.
    + intros [H | (t & -> & H)].
      * exists 0%nat. subst. split; [lia | reflexivity].
      * exists (S t). split; [lia | exact H].
    + intros ([| t] & -> & H); simpl in H.
      * left. lia.
      * right. exists t. split; [lia | exact H].
    + intros (t & -> & H). exists (S t). split; [lia | exact H].
    + intros ([| t] & -> & H); simpl in H.
      * congruence.
      * exists t. split; [lia | exact H].
Qed.

Lemma where_eq_In : forall atoms a i,
  In i (where_eq atoms a) <-> nth_error atoms i = Some a.
Proof.
  intros atoms a i. unfold where_eq. rewrite where_from_In. split.
  - intros (t & -> & H). exact H.
  - intros H. exists i. auto.
Qed.

Lemma where_from_NoDup : forall atoms s a, NoDup (where_from s a atoms).
Proof.
  induction atoms as [| b atoms IH]; intros s a; simpl; [constructor |].
  destruct (String.eqb b a); [| apply IH].
  constructor; [| apply IH].
  rewrite where_from_In. intros (t & E & _). lia.
Qed.

Lemma where_from_length : forall atoms s a,
  length (where_from s a atoms) = count_occ string_dec atoms a.
Proof.
  induction atoms as [| b atoms IH]; intros s a; simpl; [reflexivity |].
  destruct (String.eqb_spec b a) as [E | E]; destruct (string_dec b a); try contradiction;
    simpl; rewrite IH; reflexivity.
Qed.

Lemma where_eq_bound : forall atoms a i, In i (where_eq atoms a) -> (i < length atoms)%nat.
Proof.
  intros atoms a i H. apply where_eq_In in H. apply nth_error_Some. congruence.
Qed.

Lemma take_spec : forall {A : Type} (X : list A) idx l,
  take X idx = Ok l <-> map (nth_error X) idx = map Some l.
Proof.
  intros A X. induction idx as [| i idx IH]; intros l; simpl.
  - split; intros H.
    + inversion H; reflexivity.
    + destruct l; [reflexivity | discriminate].
  - destruct (nth_error X i) as [x |] eqn:E.
    + destruct (take X idx) as [xs | | e]; simpl; split; intros H.
      * inversion H; subst. simpl. f_equal. apply IH. reflexivity.
      * destruct l as [| y l]; [discriminate |]. simpl in H. inversion H; subst.
        f_equal. f_equal. apply IH in H2. inversion H2. reflexivity.
      * discriminate.
      * destruct l as [| y l]; [discriminate |]. simpl in H. inversion H; subst.
        apply IH in H2. discriminate.
      * discriminate.
      * destruct l as [| y l]; [discriminate |]. simpl in H. inversion H; subst.
        apply IH in H2. discriminate.
    + split; intros H; [discriminate |].
      destruct l; simpl in H; discriminate.
Qed.

Lemma take_in_range : forall {A : Type} (X : list A) idx,
  (forall i, In i idx -> (i < length X)%nat) ->
  exists l, take X idx = Ok l /\ length l = length idx.
Proof.
  intros A X. induction idx as [| i idx IH]; intros H; simpl.
  - exists []. auto.
  - destruct (nth_error X i) as [x |] eqn:E.
    + destruct IH as (l & -> & Hl); [intros j Hj; apply H; simpl; auto |].
      exists (x :: l). simpl. auto.
    + exfalso. apply nth_error_None in E. specialize (H i (or_introl eq_refl)). lia.
Qed.

Lemma nth_error_seq_all : forall {A : Type} (X : list A),
  map (nth_error X) (seq 0 (length X)) = map Some X.
Proof.
  intros A X. induction X as [| x X IH]; simpl; [reflexivity |].
  f_equal. rewrite <- seq_shift, map_map. simpl. exact IH.
Qed.

Lemma map_Some_inj : forall {A : Type} (l l' : list A), map Some l = map Some l' -> l = l'.
Proof.
  intros A l. induction l as [| x l IH]; intros [| y l'] H; simpl in H; try discriminate; auto.
  inversion H; subst. f_equal. auto.
Qed.

Lemma take_permutation : forall {A : Type} (X : list A) v,
  Permutation v (seq 0 (length X)) ->
  exists l, take X v = Ok l /\ Permutation l X.
Proof.
  intros A X v H.
  assert (P : Permutation (map (nth_error X) v) (map Some X)).
  { rewrite <- nth_error_seq_all. apply Permutation_map. exact H. }
  apply Permutation_map_inv in P. destruct P as (l & E & P).
  exists l. split; [apply take_spec; exact E | apply Permutation_sym; exact P].
Qed.

Lemma take_nth : forall {A : Type} (X : list A) idx l,
  take X idx = Ok l ->
  forall t i, nth_error idx t = Some i -> nth_error l t = nth_error X i /\ (i < length X)%nat.
Proof.
  intros A X idx l H t i Ht. apply take_spec in H.
  assert (E : nth_error (map (nth_error X) idx) t = nth_error (map Some l) t) by (rewrite H; reflexivity).
  rewrite !nth_error_map, Ht in E. simpl in E.
  destruct (nth_error l t) as [y |] eqn:El; simpl in E.
  - inversion E as [E']. split; [congruence |]. apply nth_error_Some. congruence.
  - discriminate.
Qed.

Lemma take_from_nth : forall {A : Type} (X : list A) idx l,
  length l = length idx ->
  (forall t i, nth_error idx t = Some i -> nth_error X i = nth_error l t) ->
  take X idx = Ok l.
Proof.
  intros A X idx l Hlen H. apply take_spec.
  apply nth_error_ext. intros t. rewrite !nth_error_map.
  destruct (nth_error idx t) as [i |] eqn:E; simpl.
  - rewrite (H t i E).
    destruct (nth_error l t) eqn:El; [reflexivity |].
    apply nth_error_None in El. apply nth_error_lt in E. lia.
  - apply nth_error_None in E.
    destruct (nth_error l t) eqn:El; [| reflexivity].
    apply nth_error_lt in El. lia.
Qed.

Lemma put_spec : forall idx view vals,
  NoDup idx ->
  (forall i, In i idx -> (i < length view)%nat) ->
  length vals = length idx ->
  exists view',
    put view idx vals = Ok view' /\
    length view' = length view /\
    (forall t i, nth_error idx t = Some i ->
       nth_error view' i = option_map Z.of_nat (nth_error vals t)) /\
    (forall i, ~ In i idx -> nth_error view' i = nth_error view i).
Proof.
  induction idx as [| i idx IH]; intros view vals Hnd Hin Hlen.
  - destruct vals; [| discriminate]. exists view. simpl. repeat split; auto.
    intros [| t] i H; discriminate.
  - destruct vals as [| v vals]; [discriminate |]. simpl.
    assert (Hi : (i < length view)%nat) by (apply Hin; simpl; auto).
    apply Nat.ltb_lt in Hi. rewrite Hi. apply Nat.ltb_lt in Hi.
    inversion Hnd as [| ? ? Hni Hnd']; subst.
    destruct (IH (update view i (Z.of_nat v)) vals Hnd') as (view' & E & L & Hs & Ho).
    + intros j Hj. rewrite update_length. apply Hin. simpl; auto.
    + simpl in Hlen. lia.
    + exists view'. split; [exact E |]. split; [rewrite L; apply update_length |]. split.
      * intros [| t] j Ht; simpl in Ht.
        -- inversion Ht; subst. rewrite (Ho j Hni). simpl. apply update_nth_same. exact Hi.
        -- simpl. apply Hs. exact Ht.
      * intros j Hj. rewrite Ho by (intros H; apply Hj; simpl; auto).
        apply update_nth_other. intros ->. apply Hj. simpl; auto.
Qed.

Lemma unique_In : forall atoms a, In a (unique atoms) <-> In a atoms.
Proof.
  assert (Hins : forall x l a, In a (insert_unique x l) <-> a = x \/ In a l).
  { intros x l a. induction l as [| y l IH]; simpl.
    - intuition.
    - destruct (String.compare x y) eqn:E; simpl.
      + apply String.compare_eq_iff in E. subst. intuition.
      + intuition.
      + rewrite IH. intuition. }
  intros atoms a. unfold unique. induction atoms as [| x atoms IH]; simpl; [tauto |].
  rewrite Hins, IH. intuition.
Qed.

(** ** The loop over label groups *)

Section ReorderGroups.

Variable fill : Z.
Variable solve : points -> points -> outcome (option (list nat)).
Variables p_atoms q_atoms : labels.
Variables p_coord q_coord : points.

Hypothesis Hperm : Permutation p_atoms q_atoms.
Hypothesis Hp : length p_coord = length p_atoms.
Hypothesis Hq : length q_coord = length q_atoms.
Hypothesis Hsolve : group_solver_ok solve.

(** The group of label [a] is settled in [view]: its indices in [p_atoms]
    go, one to one, to indices of [a] in [q_atoms]. *)
Let group_ok (view : list Z) (a : string) : Prop :=
  (forall i, nth_error p_atoms i = Some a ->
     exists j, nth_error view i = Some (Z.of_nat j) /\ nth_error q_atoms j = Some a) /\
  (forall i i' z, nth_error p_atoms i = Some a -> nth_error p_atoms i' = Some a ->
     nth_error view i = Some z -> nth_error view i' = Some z -> i = i').

Let body (view_reorder : list Z) (atom : string) : outcome (list Z) :=
  let p_atom_idx := where_eq p_atoms atom in
  let q_atom_idx := where_eq q_atoms atom in
  A_coord <- take p_coord p_atom_idx ;;
  B_coord <- take q_coord q_atom_idx ;;
  view <- solve A_coord B_coord ;;
  vals <- index_view q_atom_idx view ;;
  assign view_reorder p_atom_idx vals.

Lemma group_sizes : forall a,
  length (where_eq p_atoms a) = length (where_eq q_atoms a).
Proof.
  intros a. unfold where_eq. rewrite !where_from_length.
  apply Permutation_count_occ. exact Hperm.
Qed.

Lemma group_step : forall view a done,
  length view = length q_atoms ->
  In a p_atoms ->
  (forall b, In b done -> group_ok view b) ->
  exists view',
    body view a = Ok view' /\
    length view' = length q_atoms /\
    (forall b, In b (a :: done) -> group_ok view' b).
Proof.
  intros view a done Hlen Ha Hdone.
  pose proof (Permutation_length Hperm) as HN.
  unfold body.
  destruct (take_in_range p_coord (where_eq p_atoms a)) as (A & EA & LA).
  { intros i Hi. rewrite Hp. eapply where_eq_bound; eauto. }
  destruct (take_in_range q_coord (where_eq q_atoms a)) as (B & EB & LB).
  { intros i Hi. rewrite Hq. eapply where_eq_bound; eauto. }
  rewrite EA, EB. cbn [bind].
  assert (HAne : A <> []).
  { intros ->. apply In_nth_error in Ha. destruct Ha as (i & Hi).
    apply where_eq_In in Hi. simpl in LA.
    destruct (where_eq p_atoms a); [contradiction | discriminate]. }
  assert (HAB : length A = length B) by (rewrite LA, LB; apply group_sizes).
  destruct (Hsolve A B HAne HAB) as (v & Ev & Pv).
  rewrite Ev. cbn [bind index_view].
  rewrite HAB, LB in Pv.
  destruct (take_permutation (where_eq q_atoms a) v Pv) as (vals & Evals & Pvals).
  rewrite Evals. cbn [bind].
  assert (Lvals : length vals = length (where_eq p_atoms a)).
  { rewrite (Permutation_length Pvals). symmetry. apply group_sizes. }
  unfold assign. rewrite Lvals, Nat.eqb_refl.
  destruct (put_spec (where_eq p_atoms a) view vals) as (view' & E & L & Hs & Ho).
  { apply where_from_NoDup. }
  { intros i Hi. rewrite Hlen, <- HN. eapply where_eq_bound; eauto. }
  { exact Lvals. }
  exists view'. split; [exact E |]. split; [congruence |].
  assert (Hval : forall i, nth_error p_atoms i = Some a ->
            exists t j, nth_error (where_eq p_atoms a) t = Some i /\
                        nth_error vals t = Some j /\
                        nth_error view' i = Some (Z.of_nat j)).
  { intros i Hi. apply where_eq_In in Hi. apply In_nth_error in Hi.
    destruct Hi as (t & Ht).
    destruct (nth_error vals t) as [j |] eqn:Ej.
    - exists t, j. repeat split; auto. rewrite (Hs t i Ht), Ej. reflexivity.
    - apply nth_error_None in Ej. apply nth_error_lt in Ht. lia. }
  assert (Hnew : group_ok view' a).
  { split.
    - intros i Hi. destruct (Hval i Hi) as (t & j & Ht & Ej & Ev').
      exists j. split; [exact Ev' |].
      apply where_eq_In. apply (Permutation_in _ Pvals).
      eapply nth_error_In; eauto.
    - intros i i' z Hi Hi' Hz Hz'.
      destruct (Hval i Hi) as (t & j & Ht & Ej & Ev').
      destruct (Hval i' Hi') as (t' & j' & Ht' & Ej' & Ev'').
      assert (j = j') by (apply Nat2Z.inj; congruence). subst j'.
      assert (NDv : NoDup vals).
      { apply (Permutation_NoDup (Permutation_sym Pvals)). apply where_from_NoDup. }
      assert (t = t').
      { apply (proj1 (NoDup_nth_error vals) NDv).
        - eapply nth_error_lt; eauto.
        - congruence. }
      subst t'. congruence. }
  intros b [Hb | Hb]; [subst b; exact Hnew |].
  destruct (string_dec b a) as [Hba | Hne]; [subst b; exact Hnew |].
  destruct (Hdone b Hb) as (H1 & H2).
  assert (Hsame : forall i, nth_error p_atoms i = Some b ->
            nth_error view' i = nth_error view i).
  { intros i Hi. apply Ho. intros Hin. apply where_eq_In in Hin. congruence. }
  split.
  - intros i Hi. rewrite (Hsame i Hi). apply H1. exact Hi.
  - intros i i' z Hi Hi'. rewrite (Hsame i Hi), (Hsame i' Hi'). apply H2; assumption.
Qed.

Lemma group_loop : forall l view done,
  length view = length q_atoms ->
  (forall a, In a l -> In a p_atoms) ->
  (forall b, In b done -> group_ok view b) ->
  exists view',
    for_each l body view = Ok view' /\
    length view' = length q_atoms /\
    (forall b, In b l \/ In b done -> group_ok view' b).
Proof.
  induction l as [| a l IH]; intros view done Hlen Hl Hdone.
  - exists view. simpl. split; [reflexivity | split; [exact Hlen |]].
    intros b [[] | Hb]. auto.
  - destruct (group_step view a done Hlen (Hl a (or_introl eq_refl)) Hdone)
      as (view1 & E1 & L1 & G1).
    destruct (IH view1 (a :: done) L1 (fun b Hb => Hl b (or_intror Hb)) G1)
      as (view' & E & L & G).
    exists view'. simpl. rewrite E1. cbn [bind]. split; [exact E |]. split; [exact L |].
    intros b [[Hb | Hb] | Hb]; apply G; simpl; auto.
Qed.

Lemma reorder_groups_label_exact :
  label_exact_view p_atoms q_atoms
    (reorder_groups fill solve p_atoms q_atoms p_coord q_coord).
Proof.
  pose proof (Permutation_length Hperm) as HN.
  destruct (group_loop (unique p_atoms) (repeat fill (length q_atoms)) [])
    as (view & E & L & G).
  { apply repeat_length. }
  { intros a Ha. apply unique_In. exact Ha. }
  { intros b []. }
  assert (Hall : forall i a, nth_error p_atoms i = Some a ->
            exists j, nth_error view i = Some (Z.of_nat j) /\ nth_error q_atoms j = Some a).
  { intros i a Hi. apply (G a); [| exact Hi].
    left. apply unique_In. eapply nth_error_In; eauto. }
  assert (Hlab : forall i, (i < length view)%nat -> exists a, nth_error p_atoms i = Some a).
  { intros i Hi. destruct (nth_error p_atoms i) eqn:Ei; [eauto |].
    apply nth_error_None in Ei. lia. }
  set (v := map Z.to_nat view).
  assert (Hv : forall i j, nth_error v i = Some j <->
                           nth_error view i = Some (Z.of_nat j)).
  { intros i j. unfold v. rewrite nth_error_map.
    destruct (nth_error view i) as [z |] eqn:Ez; simpl; [| split; discriminate].
    destruct (Hlab i (nth_error_lt _ _ _ Ez)) as (a & Ha).
    destruct (Hall i a Ha) as (j' & Ej' & _).
    rewrite Ez in Ej'. inversion Ej'; subst z. rewrite Nat2Z.id.
    split; intros H; inversion H; subst; try reflexivity.
    apply Nat2Z.inj in H1. subst. reflexivity. }
  exists v. split; [| split; [| split]].
  - unfold reorder_groups. fold body. rewrite E. f_equal.
    apply nth_error_ext. intros i. rewrite nth_error_map.
    destruct (nth_error v i) as [j |] eqn:Ej; simpl.
    + apply Hv in Ej. exact Ej.
    + unfold v in Ej. rewrite nth_error_map in Ej.
      destruct (nth_error view i); [discriminate | reflexivity].
  - apply NoDup_Permutation_bis.
    + apply NoDup_nth_error. intros i i' Hi Hii'.
      destruct (nth_error v i) as [j |] eqn:Ej; [| apply nth_error_None in Ej; lia].
      symmetry in Hii'. apply Hv in Ej, Hii'.
      destruct (Hlab i (nth_error_lt _ _ _ Ej)) as (a & Ha).
      destruct (Hlab i' (nth_error_lt _ _ _ Hii')) as (a' & Ha').
      destruct (Hall i a Ha) as (j1 & E1 & Q1).
      destruct (Hall i' a' Ha') as (j2 & E2 & Q2).
      assert (j1 = j) by (apply Nat2Z.inj; congruence).
      assert (j2 = j) by (apply Nat2Z.inj; congruence). subst j1 j2.
      assert (a' = a) by congruence. subst a'.
      assert (Ga : group_ok view a).
      { apply G. left. apply unique_In. eapply nth_error_In; eauto. }
      exact (proj2 Ga i i' _ Ha Ha' Ej Hii').
    + rewrite length_seq. unfold v. rewrite length_map. lia.
    + intros j Hj. apply In_nth_error in Hj. destruct Hj as (i & Hi).
      apply Hv in Hi. destruct (Hlab i (nth_error_lt _ _ _ Hi)) as (a & Ha).
      destruct (Hall i a Ha) as (j1 & E1 & Q1).
      assert (j1 = j) by (apply Nat2Z.inj; congruence). subst j1.
      apply in_seq. apply nth_error_lt in Q1. lia.
  - apply take_from_nth.
    + unfold v. rewrite length_map. lia.
    + intros t j Ht. apply Hv in Ht.
      destruct (Hlab t (nth_error_lt _ _ _ Ht)) as (a & Ha).
      destruct (Hall t a Ha) as (j1 & E1 & Q1).
      assert (j1 = j) by (apply Nat2Z.inj; congruence). subst j1. congruence.
  - intros i j a Hi Ha. apply Hv in Hi.
    destruct (Hall i a Ha) as (j1 & E1 & Q1).
    assert (j1 = j) by (apply Nat2Z.inj; congruence). subst j1.
    apply where_eq_In. exact Q1.
Qed.

End ReorderGroups.

(** ** Arithmetic of the closed forms of Heap's algorithm *)

Ltac no_test t :=
  lazymatch t with
  | context [Nat.eqb _ _] => fail
  | context [Nat.ltb _ _] => fail
  | context [Nat.leb _ _] => fail
  | _ => idtac
  end.

(** Decide one innermost comparison and drop the branch if it contradicts
    what is known. *)
Ltac nat_case_step :=
  match goal with
  | |- context [Nat.eqb ?a ?b] => no_test a; no_test b; destruct (Nat.eqb_spec a b)
  | |- context [Nat.ltb ?a ?b] => no_test a; no_test b; destruct (Nat.ltb_spec a b)
  | |- context [Nat.leb ?a ?b] => no_test a; no_test b; destruct (Nat.leb_spec a b)
  end; try (exfalso; lia).

Ltac nat_cases := repeat nat_case_step.

Lemma even_true_half : forall n, Nat.even n = true -> exists m, n = (2 * m)%nat.
Proof. intros n H. apply Nat.even_spec in H. exact H. Qed.

Lemma even_false_half : forall n, Nat.even n = false -> exists m, n = (2 * m + 1)%nat.
Proof.
  intros n H. apply Nat.odd_spec. rewrite <- Nat.negb_even, H. reflexivity.
Qed.

(** Case analysis on the parity of [n], leaving a linear fact about it. *)
Ltac parity n :=
  let E := fresh "E" in
  let m := fresh "m" in
  destruct (Nat.even n) eqn:E;
  [apply even_true_half in E | apply even_false_half in E];
  destruct E as [m E].

Lemma transp_bound : forall a b p n, (a < n -> b < n -> p < n -> transp a b p < n)%nat.
Proof. intros a b p n. unfold transp. nat_cases; lia. Qed.

Lemma heap_net_above : forall k p, (k <= p)%nat -> heap_net k p = p.
Proof. intros k p H. unfold heap_net. nat_cases; lia. Qed.

Lemma heap_net_below : forall k p, (p < k)%nat -> (heap_net k p < k)%nat.
Proof.
  intros k p H. unfold heap_net, transp. parity k; nat_cases; lia.
Qed.

Lemma heap_net_bound : forall k p n, (k <= n -> p < n -> heap_net k p < n)%nat.
Proof.
  intros k p n Hk Hp. destruct (Nat.lt_ge_cases p k) as [H | H].
  - pose proof (heap_net_below k p H). lia.
  - rewrite heap_net_above by exact H. exact Hp.
Qed.

Lemma heap_phi_zero : forall k p, heap_phi k 0 p = heap_net k p.
Proof.
  intros k p. unfold heap_phi, heap_net, heap_u, heap_idx, heap_addmod, transp.
  parity k; nat_cases; lia.
Qed.

Lemma heap_phi_last : forall k p, heap_phi k k p = heap_net (S k) p.
Proof.
  intros k p. unfold heap_phi, heap_net, heap_u, heap_idx, heap_addmod, transp.
  rewrite Nat.even_succ, <- Nat.negb_even.
  parity k; simpl negb; cbv iota; replace (S k - 1)%nat with k by lia; nat_cases; lia.
Qed.

Lemma heap_phi_above : forall k j p, (k < p)%nat -> heap_phi k j p = p.
Proof. intros k j p H. unfold heap_phi. nat_cases; lia. Qed.

(** Rewrite the parities that are known. *)
Ltac use_parity H :=
  repeat match goal with
         | E : Nat.even ?n = _ |- _ =>
             match type of H with context [Nat.even n] => rewrite E in H end
         end;
  cbv beta iota in H.

(** Name a term, unfold its definition beside the goal and decide its
    comparisons. *)
Ltac stage t x :=
  let H := fresh "H" x in
  remember t as x eqn:H;
  cbv beta delta [heap_phi heap_pivot heap_net heap_u heap_idx heap_addmod transp] in H;
  rewrite ?Nat.even_succ, <- ?Nat.negb_even in H;
  use_parity H; cbv beta iota delta [negb] in H;
  revert H; nat_cases; intros H.

(** Fix the parity of [n]: a boolean equation and a linear one. *)
Ltac parity2 n :=
  let E := fresh "E" in
  let L := fresh "L" in
  let m := fresh "m" in
  destruct (Nat.even n) eqn:E;
  [pose proof (even_true_half n E) as L | pose proof (even_false_half n E) as L];
  destruct L as [m L].

Lemma heap_idx_bound : forall k p, (p <= k)%nat -> (heap_idx k p <= k)%nat.
Proof. intros k p H. unfold heap_idx. nat_cases; lia. Qed.

Lemma heap_idx_round : forall k p, Nat.even k = true -> (p <= k)%nat ->
  heap_idx k (transp 0 k (heap_net k p)) = heap_addmod k (heap_idx k p) 1.
Proof.
  intros k p E Hp. pose proof (even_true_half k E) as [m L].
  stage (heap_net k p) x.
  all: stage (transp 0 k x) y.
  all: stage (heap_idx k p) i.
  all: stage (heap_idx k y) i'.
  all: unfold heap_addmod; nat_cases; lia.
Qed.

Lemma heap_addmod_succ : forall k i j, (i <= k)%nat -> (j < k)%nat ->
  heap_addmod k (heap_addmod k i 1) j = heap_addmod k i (S j).
Proof. intros k i j Hi Hj. unfold heap_addmod. nat_cases; lia. Qed.

Lemma heap_round_bound : forall k a p, (a <= k)%nat -> (p <= k)%nat ->
  (transp a k (heap_net k p) <= k)%nat.
Proof.
  intros k a p Ha Hp.
  assert (heap_net k p <= k)%nat.
  { destruct (Nat.eq_dec p k) as [-> | N].
    - rewrite heap_net_above; lia.
    - pose proof (heap_net_below k p). lia. }
  unfold transp. nat_cases; lia.
Qed.

Lemma heap_phi_step_even : forall k j p, Nat.even k = true -> (j < k)%nat ->
  heap_phi k (S j) p = heap_phi k j (transp 0 k (heap_net k p)).
Proof.
  intros k j p E Hj. destruct (Nat.ltb_spec k p) as [Hp | Hp].
  - rewrite heap_net_above by lia.
    replace (transp 0 k p) with p by (unfold transp; nat_cases; lia).
    rewrite !heap_phi_above by lia. reflexivity.
  - pose proof (heap_round_bound k 0 p ltac:(lia) Hp) as Hy.
    unfold heap_phi. rewrite E.
    destruct (Nat.ltb_spec k p); [lia |].
    destruct (Nat.ltb_spec k (transp 0 k (heap_net k p))); [lia |].
    rewrite heap_idx_round, heap_addmod_succ by (auto using heap_idx_bound).
    reflexivity.
Qed.

Lemma heap_phi_step_odd : forall k j p, Nat.even k = false -> (j < k)%nat ->
  heap_phi k (S j) p = heap_phi k j (transp j k (heap_net k p)).
Proof.
  intros k j p E Hj. pose proof (even_false_half k E) as [m L].
  assert (E' : Nat.even (S k) = true).
  { rewrite Nat.even_succ, <- Nat.negb_even, E. reflexivity. }
  parity2 j.
  all: stage (heap_net k p) x.
  all: stage (transp j k x) y.
  all: stage (heap_phi k j y) r.
  all: stage (heap_phi k (S j) p) r'.
  all: lia.
Qed.

Lemma heap_phi_step : forall k j p, (j < k)%nat ->
  heap_phi k (S j) p = heap_phi k j (transp (heap_pivot k j) k (heap_net k p)).
Proof.
  intros k j p Hj. unfold heap_pivot. destruct (Nat.even k) eqn:E.
  - apply heap_phi_step_even; assumption.
  - apply heap_phi_step_odd; assumption.
Qed.

Lemma heap_phi_bound : forall k j p, (j <= k)%nat -> (p <= k)%nat -> (heap_phi k j p <= k)%nat.
Proof.
  intros k j. induction j as [| j IH]; intros p Hj Hp.
  - rewrite heap_phi_zero. destruct (Nat.eq_dec p k) as [-> | N].
    + rewrite heap_net_above; lia.
    + pose proof (heap_net_below k p). lia.
  - rewrite heap_phi_step by lia. apply IH; [lia |].
    apply heap_round_bound; [| exact Hp].
    unfold heap_pivot. destruct (Nat.even k); lia.
Qed.

Lemma heap_phi_pivot_injective : forall k i j, (i <= k)%nat -> (j <= k)%nat ->
  heap_phi k i k = heap_phi k j k -> i = j.
Proof.
  intros k i j Hi Hj. parity2 k.
  - stage (heap_phi k i k) x. all: stage (heap_phi k j k) y. all: lia.
  - assert (E' : Nat.even (S k) = true).
    { rewrite Nat.even_succ, <- Nat.negb_even, E. reflexivity. }
    parity2 i; parity2 j.
    all: stage (heap_phi k i k) x. all: stage (heap_phi k j k) y. all: lia.
Qed.

(** ** Lists under swaps *)

Section HeapLists.

Variable A : Type.
Variable d : A.

Lemma nth_update_same : forall (l : list A) i v,
  (i < length l)%nat -> nth i (update l i v) d = v.
Proof.
  induction l as [| x l IH]; intros [| i] v H; simpl in *; try lia; auto.
  apply IH. lia.
Qed.

Lemma nth_update_other : forall (l : list A) i j v,
  i <> j -> nth j (update l i v) d = nth j l d.
Proof.
  induction l as [| x l IH]; intros [| i] [| j] v H; simpl; auto; try congruence.
Qed.

Lemma reindex_length : forall G (l : list A), length (reindex d G l) = length l.
Proof. intros G l. unfold reindex. rewrite length_map, length_seq. reflexivity. Qed.

Lemma nth_reindex : forall G (l : list A) p,
  (p < length l)%nat -> nth p (reindex d G l) d = nth (G p) l d.
Proof.
  intros G l p H. unfold reindex.
  rewrite (nth_indep _ d (nth (G 0%nat) l d)) by (rewrite length_map, length_seq; exact H).
  rewrite (map_nth (fun p => nth (G p) l d)). rewrite seq_nth by exact H. reflexivity.
Qed.

Lemma reindex_ext : forall G G' (l : list A),
  (forall p, (p < length l)%nat -> G p = G' p) -> reindex d G l = reindex d G' l.
Proof.
  intros G G' l H. unfold reindex. apply map_ext_in. intros p Hp.
  apply in_seq in Hp. rewrite H by lia. reflexivity.
Qed.

Lemma reindex_reindex : forall G1 G2 (l : list A),
  (forall p, (p < length l)%nat -> (G2 p < length l)%nat) ->
  reindex d G2 (reindex d G1 l) = reindex d (fun p => G1 (G2 p)) l.
Proof.
  intros G1 G2 l H. unfold reindex at 1 3. rewrite reindex_length.
  apply map_ext_in. intros p Hp. apply in_seq in Hp.
  apply nth_reindex. apply H. lia.
Qed.

Lemma swap_reindex : forall (l : list A) a b,
  (a < length l)%nat -> (b < length l)%nat ->
  swap l a b = Some (reindex d (transp a b) l).
Proof.
  intros l a b Ha Hb. unfold swap.
  rewrite (nth_error_nth' l d Ha), (nth_error_nth' l d Hb). f_equal.
  apply (nth_ext _ _ d d).
  - rewrite !update_length, reindex_length. reflexivity.
  - intros p Hp. rewrite !update_length in Hp. rewrite nth_reindex by exact Hp.
    unfold transp. destruct (Nat.eqb_spec p b) as [-> | Nb].
    + rewrite nth_update_same by (rewrite update_length; exact Hb).
      destruct (Nat.eqb_spec b a) as [-> | _]; reflexivity.
    + rewrite nth_update_other by congruence.
      destruct (Nat.eqb_spec p a) as [-> | Na].
      * rewrite nth_update_same by exact Ha. reflexivity.
      * rewrite nth_update_other by congruence. reflexivity.
Qed.

Lemma update_app : forall (l1 l2 : list A) x v,
  update (l1 ++ x :: l2) (length l1) v = l1 ++ v :: l2.
Proof.
  induction l1 as [| y l1 IH]; intros l2 x v; simpl; [reflexivity |].
  rewrite IH. reflexivity.
Qed.

Lemma update_permutation : forall (l : list A) a b x y,
  nth_error l a = Some x -> nth_error l b = Some y ->
  Permutation (update (update l a y) b x) l.
Proof.
  assert (Hlt : forall (l : list A) a b x y, (a < b)%nat ->
            nth_error l a = Some x -> nth_error l b = Some y ->
            Permutation (update (update l a y) b x) l /\
            Permutation (update (update l b x) a y) l).
  { intros l a b x y Hab Ha Hb.
    apply nth_error_split in Ha. destruct Ha as (l1 & l2 & -> & <-).
    rewrite nth_error_app2 in Hb by lia.
    replace (b - length l1)%nat with (S (b - length l1 - 1)) in Hb by lia.
    simpl in Hb. apply nth_error_split in Hb. destruct Hb as (l3 & l4 & -> & L3).
    assert (Eb : b = length (l1 ++ x :: l3)).
    { rewrite length_app. simpl. lia. }
    split.
    - rewrite update_app.
      replace (l1 ++ y :: l3 ++ y :: l4) with ((l1 ++ y :: l3) ++ y :: l4)
        by (rewrite <- app_assoc; reflexivity).
      replace b with (length (l1 ++ y :: l3)) by (rewrite Eb, !length_app; reflexivity).
      rewrite update_app. rewrite <- app_assoc. simpl.
      apply Permutation_app_head.
      apply Permutation_trans with (y :: l3 ++ x :: l4).
      + reflexivity.
      + apply Permutation_trans with (y :: x :: l3 ++ l4).
        * constructor. apply Permutation_sym, Permutation_middle.
        * apply Permutation_trans with (x :: y :: l3 ++ l4); [constructor |].
          constructor. apply Permutation_middle.
    - replace (l1 ++ x :: l3 ++ y :: l4) with ((l1 ++ x :: l3) ++ y :: l4)
        by (rewrite <- app_assoc; reflexivity).
      rewrite Eb at 1. rewrite (update_app (l1 ++ x :: l3) l4 y x).
      rewrite <- !app_assoc. simpl.
      rewrite update_app.
      apply Permutation_app_head.
      apply Permutation_trans with (y :: x :: l3 ++ l4).
      + constructor. apply Permutation_sym, Permutation_middle.
      + apply Permutation_trans with (x :: y :: l3 ++ l4); [constructor |].
        constructor. apply Permutation_middle. }
  intros l a b x y Ha Hb.
  destruct (Nat.lt_trichotomy a b) as [H | [H | H]].
  - apply (Hlt l a b x y H Ha Hb).
  - subst b. assert (x = y) by congruence. subst y.
    apply nth_error_split in Ha. destruct Ha as (l1 & l2 & -> & <-).
    rewrite update_app, update_app. reflexivity.
  - apply (Hlt l b a y x H Hb Ha).
Qed.

Lemma swap_permutation : forall (l l' : list A) a b,
  swap l a b = Some l' -> Permutation l' l.
Proof.
  intros l l' a b. unfold swap.
  destruct (nth_error l a) as [x |] eqn:Ea; [| discriminate].
  destruct (nth_error l b) as [y |] eqn:Eb; [| discriminate].
  intros H. inversion H; subst. apply update_permutation; assumption.
Qed.

End HeapLists.

(** ** The recursive algorithm enumerates the arrangements *)

Section HeapCorrect.

Variable A : Type.
Variable d : A.

Lemma heap_rounds_perm : forall (lower : list A -> list (list A) * list A) k,
  (forall l, Permutation (snd (lower l)) l /\
             forall o, In o (fst (lower l)) -> Permutation o l) ->
  forall todo l,
    Permutation (snd (heap_rounds lower k todo l)) l /\
    forall o, In o (fst (heap_rounds lower k todo l)) -> Permutation o l.
Proof.
  intros lower k Hlow. induction todo as [| todo IH]; intros l; simpl.
  - split; [reflexivity | intros o []].
  - destruct (if Nat.even k then swap l 0 k else swap l (k - S todo) k) as [l1 |] eqn:E.
    + assert (P1 : Permutation l1 l).
      { destruct (Nat.even k); eapply swap_permutation; eauto. }
      destruct (Hlow l1) as (Q1 & Q2).
      destruct (lower l1) as [ys1 l2]. simpl in Q1, Q2.
      destruct (IH l2) as (R1 & R2).
      destruct (heap_rounds lower k todo l2) as [ys2 l3]. simpl in *.
      split.
      * eauto using Permutation_trans.
      * intros o [<- | Ho]; [exact P1 |].
        apply in_app_or in Ho. destruct Ho as [Ho | Ho].
        -- eauto using Permutation_trans.
        -- eauto using Permutation_trans.
    + simpl. split; [reflexivity | intros o []].
Qed.

Lemma heap_rec_perm : forall k (l : list A),
  Permutation (snd (heap_rec k l)) l /\
  forall o, In o (fst (heap_rec k l)) -> Permutation o l.
Proof.
  induction k as [| k IH]; intros l; simpl.
  - split; [reflexivity | intros o []].
  - destruct (IH l) as (P1 & P2).
    destruct (heap_rec k l) as [ys0 l0]. simpl in P1, P2.
    destruct (heap_rounds_perm (heap_rec k) k IH k l0) as (Q1 & Q2).
    destruct (heap_rounds (heap_rec k) k k l0) as [ys l']. simpl in *.
    split.
    + eauto using Permutation_trans.
    + intros o Ho. apply in_app_or in Ho. destruct Ho as [Ho | Ho].
      * auto.
      * eauto using Permutation_trans.
Qed.

(** What is proved of one level, by induction on the level. *)
Definition heap_block_ok (k : nat) (l : list A) : Prop :=
  snd (heap_rec k l) = reindex d (heap_net k) l /\
  length (l :: fst (heap_rec k l)) = fact k /\
  NoDup (l :: fst (heap_rec k l)) /\
  forall o, In o (l :: fst (heap_rec k l)) ->
    forall p, (k <= p)%nat -> nth p o d = nth p l d.

Lemma NoDup_nth_inj : forall (l : list A) p q,
  NoDup l -> (p < length l)%nat -> (q < length l)%nat ->
  nth p l d = nth q l d -> p = q.
Proof.
  intros l p q H Hp Hq E. apply (proj1 (NoDup_nth l d) H); assumption.
Qed.

Section Rounds.

Variable k : nat.
Variable l0 : list A.
Hypothesis Hk : (S k <= length l0)%nat.
Hypothesis Hnd : NoDup l0.
Hypothesis IHk : forall l, (k <= length l)%nat -> NoDup l -> heap_block_ok k l.

Lemma heap_rounds_ok : forall todo j l,
  (j + todo = k)%nat ->
  l = reindex d (heap_phi k j) l0 ->
  Permutation l l0 ->
  snd (heap_rounds (heap_rec k) k todo l) = reindex d (heap_phi k k) l0 /\
  length (fst (heap_rounds (heap_rec k) k todo l)) = (todo * fact k)%nat /\
  NoDup (fst (heap_rounds (heap_rec k) k todo l)) /\
  forall o, In o (fst (heap_rounds (heap_rec k) k todo l)) ->
    (forall p, (k < p)%nat -> nth p o d = nth p l0 d) /\
    exists i, (j < i <= k)%nat /\ nth k o d = nth (heap_phi k i k) l0 d.
Proof.
  induction todo as [| todo IH]; intros j l Hj Hl Pl.
  - simpl. replace j with k in Hl by lia. repeat split; auto.
    + constructor.
    + destruct H.
    + destruct H.
  - assert (Ej : (k - S todo)%nat = j) by lia.
    assert (Hjk : (j < k)%nat) by lia.
    assert (Ll : length l = length l0) by (subst l; apply reindex_length).
    cbn [heap_rounds]. rewrite Ej.
    assert (Hsw : (if Nat.even k then swap l 0 k else swap l j k)
                  = Some (reindex d (fun p => heap_phi k j (transp (heap_pivot k j) k p)) l0)).
    { assert (Hpiv : (heap_pivot k j < length l)%nat).
      { unfold heap_pivot. destruct (Nat.even k); lia. }
      assert (E : (if Nat.even k then swap l 0 k else swap l j k)
                  = swap l (heap_pivot k j) k).
      { unfold heap_pivot. destruct (Nat.even k); reflexivity. }
      rewrite E, (swap_reindex A d l _ _ Hpiv) by lia. f_equal. subst l.
      apply reindex_reindex. intros p Hp. apply transp_bound; lia. }
    rewrite Hsw.
    set (l1 := reindex d (fun p => heap_phi k j (transp (heap_pivot k j) k p)) l0) in *.
    assert (P1 : Permutation l1 l0).
    { apply Permutation_trans with l; [| exact Pl].
      destruct (Nat.even k); eapply swap_permutation; eauto. }
    assert (L1 : length l1 = length l0) by apply reindex_length.
    destruct (IHk l1) as (B1 & B2 & B3 & B4).
    { lia. }
    { apply (Permutation_NoDup (Permutation_sym P1)). exact Hnd. }
    destruct (heap_rec k l1) as [ys1 l2] eqn:Erec. cbn [fst snd] in B1, B2, B3, B4.
    assert (E2 : l2 = reindex d (heap_phi k (S j)) l0).
    { rewrite B1. unfold l1. rewrite reindex_reindex.
      - apply reindex_ext. intros p Hp. rewrite heap_phi_step by exact Hjk. reflexivity.
      - intros p Hp. apply heap_net_bound; lia. }
    assert (P2 : Permutation l2 l0).
    { pose proof (proj1 (heap_rec_perm k l1)) as Q. rewrite Erec in Q. simpl in Q.
      eauto using Permutation_trans. }
    destruct (IH (S j) l2 ltac:(lia) E2 P2) as (R1 & R2 & R3 & R4).
    destruct (heap_rounds (heap_rec k) k todo l2) as [ys2 l3]. cbn [fst snd] in *.
    assert (Hblock : forall o, In o (l1 :: ys1) ->
              (forall p, (k < p)%nat -> nth p o d = nth p l0 d) /\
              nth k o d = nth (heap_phi k (S j) k) l0 d).
    { intros o Ho. split.
      - intros p Hp. rewrite (B4 o Ho p) by lia.
        destruct (Nat.lt_ge_cases p (length l0)) as [Hlt | Hge].
        + unfold l1. rewrite nth_reindex by exact Hlt.
          replace (transp (heap_pivot k j) k p) with p.
          * rewrite heap_phi_above by exact Hp. reflexivity.
          * unfold transp, heap_pivot. destruct (Nat.even k); nat_cases; lia.
        + rewrite !nth_overflow by lia. reflexivity.
      - rewrite (B4 o Ho k) by lia.
        unfold l1. rewrite nth_reindex by lia.
        rewrite heap_phi_step by exact Hjk. rewrite heap_net_above by lia. reflexivity. }
    split; [exact R1 |]. split; [| split].
    + simpl. rewrite length_app, R2. simpl in B2. lia.
    + change (l1 :: ys1 ++ ys2) with ((l1 :: ys1) ++ ys2).
      apply NoDup_app; [exact B3 | exact R3 |].
      intros o Ho1 Ho2.
      destruct (Hblock o Ho1) as (_ & V1).
      destruct (R4 o Ho2) as (_ & i & Hi & V2).
      rewrite V1 in V2.
      apply NoDup_nth_inj in V2; try assumption.
      * apply heap_phi_pivot_injective in V2; lia.
      * pose proof (heap_phi_bound k (S j) k). lia.
      * pose proof (heap_phi_bound k i k). lia.
    + intros o Ho. change (l1 :: ys1 ++ ys2) with ((l1 :: ys1) ++ ys2) in Ho.
      apply in_app_or in Ho. destruct Ho as [Ho | Ho].
      * destruct (Hblock o Ho) as (V0 & V1). split; [exact V0 |].
        exists (S j). split; [lia | exact V1].
      * destruct (R4 o Ho) as (V0 & i & Hi & V2). split; [exact V0 |].
        exists i. split; [lia | exact V2].
Qed.

End Rounds.

Lemma heap_rec_ok : forall k (l : list A),
  (k <= length l)%nat -> NoDup l -> heap_block_ok k l.
Proof.
  induction k as [| k IHk]; intros l Hk Hnd.
  - unfold heap_block_ok. simpl. repeat split.
    + symmetry. apply (nth_ext _ _ d d).
      * apply reindex_length.
      * intros p Hp. rewrite reindex_length in Hp.
        rewrite nth_reindex by exact Hp. rewrite heap_net_above by lia. reflexivity.
    + constructor; [intros [] | constructor].
    + intros o [<- | []] p _. reflexivity.
  - destruct (IHk l ltac:(lia) Hnd) as (B1 & B2 & B3 & B4).
    unfold heap_block_ok. cbn [heap_rec].
    destruct (heap_rec k l) as [ys0 l0] eqn:Erec. cbn [fst snd] in B1, B2, B3, B4.
    assert (E0 : l0 = reindex d (heap_phi k 0) l).
    { rewrite B1. apply reindex_ext. intros p _. rewrite heap_phi_zero. reflexivity. }
    assert (P0 : Permutation l0 l).
    { pose proof (proj1 (heap_rec_perm k l)) as Q. rewrite Erec in Q. exact Q. }
    destruct (heap_rounds_ok k l Hk Hnd IHk k 0%nat l0 ltac:(lia) E0 P0)
      as (R1 & R2 & R3 & R4).
    destruct (heap_rounds (heap_rec k) k k l0) as [ys l'] eqn:Er. cbn [fst snd] in *.
    split; [| split; [| split]].
    + rewrite R1. apply reindex_ext. intros p _. apply heap_phi_last.
    + simpl. rewrite length_app, R2. simpl in B2. lia.
    + change (l :: ys0 ++ ys) with ((l :: ys0) ++ ys).
      apply NoDup_app; [exact B3 | exact R3 |].
      intros o Ho1 Ho2.
      destruct (R4 o Ho2) as (_ & i & Hi & V2).
      rewrite (B4 o Ho1 k) in V2 by lia.
      apply (NoDup_nth_inj l) in V2; try assumption.
      * assert (E : heap_phi k 0 k = heap_phi k i k).
        { rewrite heap_phi_zero, heap_net_above by lia. exact V2. }
        apply heap_phi_pivot_injective in E; lia.
      * pose proof (heap_phi_bound k i k). lia.
    + intros o Ho p Hp. change (l :: ys0 ++ ys) with ((l :: ys0) ++ ys) in Ho.
      apply in_app_or in Ho. destruct Ho as [Ho | Ho].
      * apply B4; [exact Ho | lia].
      * apply (proj1 (R4 o Ho)). lia.
Qed.

End HeapCorrect.

(** ** The loop runs the recursive algorithm *)

Definition prepend {A : Type} (ys : list (list A)) (r : list (list A) * gen_end)
  : list (list A) * gen_end :=
  (ys ++ fst r, snd r).

Lemma prepend_nil : forall {A : Type} (r : list (list A) * gen_end), prepend [] r = r.
Proof. intros A [ys e]. reflexivity. Qed.

Lemma prepend_app : forall {A : Type} (ys1 ys2 : list (list A)) r,
  prepend ys1 (prepend ys2 r) = prepend (ys1 ++ ys2) r.
Proof. intros A ys1 ys2 [ys e]. unfold prepend. simpl. rewrite app_assoc. reflexivity. Qed.

Lemma update_twice : forall {A : Type} (l : list A) i v w,
  update (update l i v) i w = update l i w.
Proof.
  intros A l. induction l as [| x l IH]; intros [| i] v w; simpl; auto.
  rewrite IH. reflexivity.
Qed.

Lemma update_same : forall (c : list nat) i, nth i c 0%nat = 0%nat -> update c i 0%nat = c.
Proof.
  induction c as [| x c IH]; intros [| i] H; simpl in *; auto.
  - congruence.
  - rewrite IH by exact H. reflexivity.
Qed.

Section HeapLoop.

Variable A : Type.

Lemma heap_loop_done : forall fuel n c (l : list A) i,
  ~ (i < n)%nat -> heap_loop (S fuel) n c l i = ([], Exhausted).
Proof.
  intros fuel n c l i H. simpl. destruct (Nat.ltb_spec i n); [contradiction | reflexivity].
Qed.

Lemma heap_loop_carry : forall fuel n c (l : list A) i,
  (i < n)%nat -> ~ (nth i c 0 < i)%nat ->
  heap_loop (S fuel) n c l i = heap_loop fuel n (update c i 0%nat) l (S i).
Proof.
  intros fuel n c l i H1 H2. simpl.
  destruct (Nat.ltb_spec i n); [| lia].
  destruct (Nat.ltb_spec (nth i c 0%nat) i); [contradiction | reflexivity].
Qed.

Lemma heap_loop_swap : forall fuel n c (l l1 : list A) i,
  (i < n)%nat -> (nth i c 0 < i)%nat ->
  (if Nat.even i then swap l 0 i else swap l (nth i c 0%nat) i) = Some l1 ->
  heap_loop (S fuel) n c l i
  = prepend [l1] (heap_loop fuel n (update c i (nth i c 0 + 1)%nat) l1 0).
Proof.
  intros fuel n c l l1 i H1 H2 E. simpl.
  destruct (Nat.ltb_spec i n); [| lia].
  destruct (Nat.ltb_spec (nth i c 0%nat) i); [| lia].
  rewrite E. destruct (heap_loop fuel n _ l1 0) as [ys e]. reflexivity.
Qed.

Lemma heap_rec_length : forall k (l : list A), length (snd (heap_rec k l)) = length l.
Proof. intros k l. apply Permutation_length. apply heap_rec_perm. Qed.

Lemma swap_in_range : forall (l : list A) a b,
  (a < length l)%nat -> (b < length l)%nat -> exists l1, swap l a b = Some l1.
Proof.
  intros l a b Ha Hb. unfold swap.
  destruct (nth_error l a) eqn:Ea; [| apply nth_error_None in Ea; lia].
  destruct (nth_error l b) eqn:Eb; [| apply nth_error_None in Eb; lia].
  eauto.
Qed.

(** From [i = 0] with the counters below [k] at zero, [heap_turns k]
    turns of the loop yield what [heap_rec k] yields and arrive at [i = k]
    with the counters unchanged. *)
Definition loop_runs_level (k : nat) : Prop :=
  forall n c (l : list A) fuel,
    (k <= n)%nat -> (k <= length l)%nat -> length c = n ->
    (forall j, (j < k)%nat -> nth j c 0%nat = 0%nat) ->
    heap_loop (heap_turns k + fuel) n c l 0
    = prepend (fst (heap_rec k l)) (heap_loop fuel n c (snd (heap_rec k l)) k).

Lemma heap_loop_rounds : forall k, loop_runs_level k ->
  forall todo n c (l : list A) fuel,
    (todo <= k)%nat -> (S k <= n)%nat -> (S k <= length l)%nat -> length c = n ->
    (forall j, (j < k)%nat -> nth j c 0%nat = 0%nat) ->
    nth k c 0%nat = (k - todo)%nat ->
    heap_loop (todo * (1 + heap_turns k) + 1 + fuel) n c l k
    = prepend (fst (heap_rounds (heap_rec k) k todo l))
        (heap_loop fuel n (update c k 0%nat)
           (snd (heap_rounds (heap_rec k) k todo l)) (S k)).
Proof.
  intros k Hsim. induction todo as [| todo IH]; intros n c l fuel Ht Hn Hl Hc Hz Hk.
  - change (0 * (1 + heap_turns k) + 1 + fuel)%nat with (S fuel).
    rewrite heap_loop_carry by lia. cbn [heap_rounds fst snd].
    rewrite prepend_nil. reflexivity.
  - replace (S todo * (1 + heap_turns k) + 1 + fuel)%nat
      with (S (heap_turns k + (todo * (1 + heap_turns k) + 1 + fuel))) by lia.
    assert (Hci : (nth k c 0 < k)%nat) by lia.
    destruct (swap_in_range l (if Nat.even k then 0%nat else nth k c 0%nat) k) as (l1 & E1).
    { destruct (Nat.even k); lia. }
    { lia. }
    assert (E1' : (if Nat.even k then swap l 0 k else swap l (nth k c 0%nat) k) = Some l1).
    { destruct (Nat.even k); exact E1. }
    rewrite (heap_loop_swap _ n c l l1 k) by (lia || exact E1').
    assert (L1 : length l1 = length l).
    { apply Permutation_length.
      destruct (Nat.even k); eapply swap_permutation; eassumption. }
    set (c1 := update c k (nth k c 0 + 1)%nat).
    assert (Hc1 : length c1 = n) by (unfold c1; rewrite update_length; exact Hc).
    assert (Hz1 : forall j, (j < k)%nat -> nth j c1 0%nat = 0%nat).
    { intros j Hj. unfold c1. rewrite nth_update_other by lia. apply Hz. exact Hj. }
    rewrite (Hsim n c1 l1) by (lia || assumption).
    rewrite (IH n c1 (snd (heap_rec k l1))).
    + cbn [heap_rounds]. rewrite <- Hk, E1'.
      destruct (heap_rec k l1) as [ys1 l2]. cbn [fst snd].
      destruct (heap_rounds (heap_rec k) k todo l2) as [ys2 l3]. cbn [fst snd].
      rewrite !prepend_app. unfold c1. rewrite update_twice. reflexivity.
    + lia.
    + lia.
    + rewrite heap_rec_length. lia.
    + exact Hc1.
    + exact Hz1.
    + unfold c1. rewrite nth_update_same by lia. lia.
Qed.

Lemma heap_loop_level : forall k, loop_runs_level k.
Proof.
  induction k as [| k IHk]; intros n c l fuel Hn Hl Hc Hz.
  - simpl. rewrite prepend_nil. reflexivity.
  - replace (heap_turns (S k) + fuel)%nat
      with (heap_turns k + (k * (1 + heap_turns k) + 1 + fuel))%nat by (simpl; lia).
    rewrite (IHk n c l) by (lia || auto).
    rewrite (heap_loop_rounds k IHk k n c (snd (heap_rec k l))).
    + cbn [heap_rec].
      destruct (heap_rec k l) as [ys0 l0]. cbn [fst snd].
      destruct (heap_rounds (heap_rec k) k k l0) as [ys l']. cbn [fst snd].
      rewrite prepend_app, update_same by (apply Hz; lia). reflexivity.
    + lia.
    + lia.
    + rewrite heap_rec_length. lia.
    + exact Hc.
    + intros j Hj. apply Hz. lia.
    + rewrite Hz by lia. lia.
Qed.

Lemma generate_permutations_rec : forall (elements : list A) n,
  (n <= length elements)%nat ->
  generate_permutations elements n = (elements :: fst (heap_rec n elements), Exhausted).
Proof.
  intros elements n H. unfold generate_permutations.
  replace (S (heap_turns n)) with (heap_turns n + 1)%nat by lia.
  rewrite (heap_loop_level n n (repeat 0%nat n) elements 1%nat).
  - rewrite heap_loop_done by lia. unfold prepend. simpl. rewrite app_nil_r. reflexivity.
  - lia.
  - exact H.
  - apply repeat_length.
  - intros j Hj. apply nth_repeat.
Qed.

End HeapLoop.

(** ** Counting arrangements *)

Section AllPerms.

Variable A : Type.

Lemma insert_all_length : forall (x : A) l, length (insert_all x l) = S (length l).
Proof.
  intros x l. induction l as [| y l IH]; simpl; [reflexivity |].
  rewrite length_map, IH. reflexivity.
Qed.

Lemma insert_all_In : forall (x : A) l1 l2, In (l1 ++ x :: l2) (insert_all x (l1 ++ l2)).
Proof.
  intros x l1. induction l1 as [| y l1 IH]; intros l2; simpl.
  - destruct l2; simpl; auto.
  - right. apply in_map. apply IH.
Qed.

Lemma insert_all_elem_length : forall (x : A) l p,
  In p (insert_all x l) -> length p = S (length l).
Proof.
  intros x l. induction l as [| y l IH]; intros p H; simpl in H.
  - destruct H as [<- | []]. reflexivity.
  - destruct H as [<- | H]; [reflexivity |].
    apply in_map_iff in H. destruct H as (q & <- & Hq). simpl. rewrite (IH q Hq). reflexivity.
Qed.

Lemma all_perms_elem_length : forall (l p : list A), In p (all_perms l) -> length p = length l.
Proof.
  induction l as [| x l IH]; intros p H; simpl in H.
  - destruct H as [<- | []]. reflexivity.
  - apply in_flat_map in H. destruct H as (q & Hq & Hp).
    rewrite (insert_all_elem_length _ _ _ Hp), (IH q Hq). reflexivity.
Qed.

Lemma flat_map_length_const : forall {B C : Type} (f : B -> list C) (L : list B) m,
  (forall q, In q L -> length (f q) = m) -> length (flat_map f L) = (length L * m)%nat.
Proof.
  intros B C f L m. induction L as [| q L IH]; intros H; simpl; [reflexivity |].
  rewrite length_app, (H q) by (simpl; auto). rewrite IH by (intros; apply H; simpl; auto).
  reflexivity.
Qed.

Lemma all_perms_length : forall l : list A, length (all_perms l) = fact (length l).
Proof.
  induction l as [| x l IH]; [reflexivity |].
  cbn [all_perms]. rewrite (flat_map_length_const _ _ (S (length l))).
  - rewrite IH. cbn [length fact]. lia.
  - intros q Hq. rewrite insert_all_length, (all_perms_elem_length _ _ Hq). reflexivity.
Qed.

Lemma all_perms_complete : forall l p : list A, Permutation p l -> In p (all_perms l).
Proof.
  induction l as [| x l IH]; intros p H.
  - apply Permutation_sym, Permutation_nil in H. subst. simpl. auto.
  - assert (Hx : In x p).
    { apply (Permutation_in x (Permutation_sym H)). simpl. auto. }
    apply in_split in Hx. destruct Hx as (p1 & p2 & ->).
    apply Permutation_sym, Permutation_cons_app_inv in H.
    cbn [all_perms]. apply in_flat_map. exists (p1 ++ p2). split.
    + apply IH. apply Permutation_sym. exact H.
    + apply insert_all_In.
Qed.

(** A duplicate-free list of [n!] arrangements of [l] holds them all. *)
Lemma arrangements_all : forall (l : list A) (outs : list (list A)),
  NoDup outs -> length outs = fact (length l) ->
  (forall o, In o outs -> Permutation o l) ->
  forall p, Permutation p l -> In p outs.
Proof.
  intros l outs Hnd Hlen Hperm p Hp.
  assert (P : Permutation outs (all_perms l)).
  { apply NoDup_Permutation_bis.
    - exact Hnd.
    - rewrite all_perms_length, Hlen. lia.
    - intros o Ho. apply all_perms_complete. apply Hperm. exact Ho. }
  apply (Permutation_in p (Permutation_sym P)). apply all_perms_complete. exact Hp.
Qed.

End AllPerms.

(** ** generate_permutations (C6) *)

Lemma generate_permutations_spec : forall (A : Type) (elements : list A),
  NoDup elements ->
  exists perms,
    generate_permutations elements (length elements) = (perms, Exhausted) /\
    length perms = fact (length elements) /\
    NoDup perms /\
    (forall p, In p perms <-> Permutation p elements).
Proof.
  intros A elements Hnd.
  exists (elements :: fst (heap_rec (length elements) elements)).
  split; [apply generate_permutations_rec; lia |].
  destruct elements as [| x0 rest] eqn:El.
  - simpl. repeat split.
    + constructor; [intros [] | constructor].
    + intros [<- | []]. constructor.
    + intros H. apply Permutation_sym, Permutation_nil in H. subst. auto.
  - rewrite <- El in *. clear El.
    destruct (heap_rec_ok A x0 (length elements) elements (le_n _) Hnd) as (_ & B2 & B3 & _).
    assert (Hperm : forall o, In o (elements :: fst (heap_rec (length elements) elements)) ->
              Permutation o elements).
    { intros o [<- | Ho]; [reflexivity |].
      apply (proj2 (heap_rec_perm A (length elements) elements)). exact Ho. }
    split; [exact B2 |]. split; [exact B3 |].
    intros p. split; [apply Hperm |].
    apply arrangements_all; assumption.
Qed.

Lemma brute_permutation_unfold : forall svd (Ap Bp : points) orderings,
  generate_permutations (seq 0 (length Ap)) (length Ap) = (orderings, Exhausted) ->
  brute_permutation svd Ap Bp
  = (st <- for_each orderings (brute_step svd Ap Bp) (None, None) ;; Ok (snd st)).
Proof.
  intros svd Ap Bp orderings H. unfold brute_permutation. rewrite H. reflexivity.
Qed.

(** C6: on a list of [n] distinct elements the generator runs to the end
    of its loop and yields [n!] lists, no list twice, and exactly the
    arrangements of the list; the loop of [brute_permutation] on [n] points
    therefore runs its body once for each of the [n!] orderings of
    [0..n). *)
Theorem generate_permutations_all : forall (A : Type) (elements : list A) (n : nat),
  n = length elements -> NoDup elements ->
  (exists perms,
     generate_permutations elements n = (perms, Exhausted) /\
     length perms = fact n /\
     NoDup perms /\
     (forall p, In p perms <-> Permutation p elements)) /\
  (forall (svd : svd_routine) (Ap Bp : points), length Ap = n ->
     exists orderings,
       brute_permutation svd Ap Bp
       = (st <- for_each orderings (brute_step svd Ap Bp) (None, None) ;; Ok (snd st)) /\
       length orderings = fact n /\
       NoDup orderings /\
       (forall p, In p orderings <-> Permutation p (seq 0 n))).
Proof.
  intros A elements n Hn Hnd. subst n. split.
  - apply generate_permutations_spec. exact Hnd.
  - intros svd Ap Bp HA.
    destruct (generate_permutations_spec nat (seq 0 (length Ap)) (seq_NoDup _ _))
      as (orderings & E & L & N & P).
    rewrite length_seq in E, L.
    exists orderings. split; [apply brute_permutation_unfold; exact E |].
    rewrite <- HA. auto.
Qed.

Lemma generate_permutations_all_witness :
  (exists perms,
     generate_permutations [1; 2; 3]%nat 3 = (perms, Exhausted) /\
     length perms = fact 3 /\
     NoDup perms /\
     (forall p, In p perms <-> Permutation p [1; 2; 3]%nat)) /\
  (forall (svd : svd_routine) (Ap Bp : points), length Ap = 3%nat ->
     exists orderings,
       brute_permutation svd Ap Bp
       = (st <- for_each orderings (brute_step svd Ap Bp) (None, None) ;; Ok (snd st)) /\
       length orderings = fact 3 /\
       NoDup orderings /\
       (forall p, In p orderings <-> Permutation p (seq 0 3))).
Proof.
  apply (generate_permutations_all nat [1; 2; 3]%nat 3%nat).
  - reflexivity.
  - repeat constructor; simpl; intuition discriminate.
Defined.

Example generate_permutations_three :
  generate_permutations [1; 2; 3]%nat 3
  = ([[1; 2; 3]; [2; 1; 3]; [3; 1; 2]; [1; 3; 2]; [2; 3; 1]; [3; 2; 1]]%nat, Exhausted).
Proof. reflexivity. Qed.

(** ** The per-group solvers *)

Lemma distance_view_ok : forall argsort, argsort_ok argsort ->
  group_solver_ok (distance_view argsort).
Proof.
  intros argsort Hs A B _ HAB. unfold distance_view.
  pose proof (Hs (map norm A)) as PA. pose proof (Hs (map norm B)) as PB.
  rewrite length_map in PA, PB.
  pose proof (Hs (map INR (argsort (map norm A)))) as PT.
  rewrite length_map, (Permutation_length PA), length_seq in PT.
  destruct (take_permutation (argsort (map norm B)) (argsort (map INR (argsort (map norm A)))))
    as (view & E & P).
  { rewrite (Permutation_length PB), length_seq, <- HAB. exact PT. }
  rewrite E. simpl. exists view. split; [reflexivity |].
  rewrite HAB. eauto using Permutation_trans.
Qed.

Lemma hungarian_ok : forall lsa, lsa_ok lsa ->
  group_solver_ok (fun A B => Ok (Some (hungarian lsa A B))).
Proof.
  intros lsa Hl A B _ HAB. exists (hungarian lsa A B). split; [reflexivity |].
  unfold hungarian. pose proof (Hl (cdist A B)) as P.
  destruct (lsa (cdist A B)) as [ia ib]. simpl in P.
  unfold cdist in P. rewrite length_map in P. apply P.
  intros r Hr. apply in_map_iff in Hr. destruct Hr as (a & <- & _).
  rewrite length_map. symmetry. exact HAB.
Qed.

Lemma vtotal_vadd : forall a b, vtotal (vadd a b) = vtotal a + vtotal b.
Proof. intros [[? ?] ?] [[? ?] ?]. unfold vtotal, vadd. ring. Qed.

Lemma total_squares_nonneg : forall diff : points,
  0 <= total (map (fun x => vmul x x) diff).
Proof.
  unfold total. induction diff as [| [[x y] z] diff IH].
  - simpl. lra.
  - cbn [map vsum fold_right]. fold (vsum (map (fun x => vmul x x) diff)).
    rewrite vtotal_vadd.
    set (t := vtotal (vsum (map (fun x => vmul x x) diff))) in *.
    pose proof (Rle_0_sqr x) as Hx. pose proof (Rle_0_sqr y) as Hy.
    pose proof (Rle_0_sqr z) as Hz. unfold Rsqr in Hx, Hy, Hz.
    unfold vtotal, vmul. lra.
Qed.

Lemma map2_length : forall {A B C : Type} (f : A -> B -> C) l m,
  length l = length m -> length (map2 f l m) = length l.
Proof.
  intros A B C f l. induction l as [| a l IH]; intros [| b m] H; simpl in *;
    try discriminate; auto.
Qed.

Lemma rmsd_ok : forall V W : points, V <> [] -> length V = length W ->
  exists r, rmsd V W = Ok r /\ 0 <= r.
Proof.
  intros V W Hne Hlen. unfold rmsd, broadcast2.
  rewrite Hlen, Nat.eqb_refl. rewrite <- Hlen. cbn [bind].
  rewrite np_div_ok.
  - cbn [bind]. rewrite np_sqrt_ok.
    + eexists. split; [reflexivity | apply sqrt_pos].
    + apply Rmult_le_pos; [apply total_squares_nonneg |].
      apply Rlt_le, Rinv_0_lt_compat. apply lt_0_INR.
      destruct V; [contradiction | simpl; lia].
  - apply not_0_INR. destruct V; [contradiction | simpl; lia].
Qed.

Lemma kabsch_ok : forall svd (P Q : points), length P = length Q ->
  exists U, kabsch svd P Q = Ok U.
Proof.
  intros svd P Q H. unfold kabsch, covariance. rewrite H, Nat.eqb_refl. cbn [bind].
  destruct (sign_fix _) as [[V Sv] W]. eauto.
Qed.

Lemma kabsch_rmsd_ok : forall svd (P Q : points), P <> [] -> length P = length Q ->
  exists r, kabsch_rmsd svd P Q None false = Ok r.
Proof.
  intros svd P Q Hne Hlen. unfold kabsch_rmsd, kabsch_rotate.
  destruct (kabsch_ok svd P Q Hlen) as (U & ->). cbn [bind].
  destruct (rmsd_ok (map (fun p => vecmat p U) P) Q) as (r & -> & _).
  - destruct P; [contradiction | discriminate].
  - rewrite length_map. exact Hlen.
  - eauto.
Qed.

Lemma kabsch_rmsd_not_raise : forall svd (P Q : points) e, length P = length Q ->
  kabsch_rmsd svd P Q None false <> Raise e.
Proof.
  intros svd P Q e Hlen. unfold kabsch_rmsd, kabsch_rotate.
  destruct (kabsch_ok svd P Q Hlen) as (U & ->). cbn [bind].
  unfold rmsd, broadcast2. rewrite length_map, Hlen, Nat.eqb_refl. cbn [bind].
  destruct (np_div _ _) eqn:D; cbn [bind].
  - apply np_sqrt_not_raise.
  - discriminate.
  - exfalso. exact (np_div_not_raise _ _ _ D).
Qed.

Lemma brute_permutation_ok : forall svd, group_solver_ok (brute_permutation svd).
Proof.
  intros svd Ap Bp Hne HAB.
  destruct (generate_permutations_spec nat (seq 0 (length Ap)) (seq_NoDup _ _))
    as (orderings & E & L & N & P).
  rewrite length_seq in E, L.
  rewrite (brute_permutation_unfold svd Ap Bp orderings E).
  assert (Hstep : forall st w, Permutation w (seq 0 (length Ap)) ->
            (fst st = None \/ exists v, snd st = Some v /\ Permutation v (seq 0 (length Ap))) ->
            exists st', brute_step svd Ap Bp st w = Ok st' /\
                        exists v, snd st' = Some v /\ Permutation v (seq 0 (length Ap))).
  { intros st w Pw Hst. unfold brute_step.
    destruct (take_permutation Bp w) as (coords & -> & Pc).
    { rewrite <- HAB. exact Pw. }
    cbn [bind].
    destruct (kabsch_rmsd_ok svd Ap coords Hne) as (r & ->).
    { rewrite (Permutation_length Pc). exact HAB. }
    destruct Hst as [Hnone | (v & Hv & Pv)].
    - rewrite Hnone. simpl. eexists. split; [reflexivity |].
      exists w. split; [reflexivity | exact Pw].
    - destruct (below r (fst st)); eexists; (split; [reflexivity |]).
      + exists w. split; [reflexivity | exact Pw].
      + exists v. split; [exact Hv | exact Pv]. }
  assert (Hloop : forall l st,
            (forall w, In w l -> Permutation w (seq 0 (length Ap))) ->
            (exists v, snd st = Some v /\ Permutation v (seq 0 (length Ap))) ->
            exists st', for_each l (brute_step svd Ap Bp) st = Ok st' /\
                        exists v, snd st' = Some v /\ Permutation v (seq 0 (length Ap))).
  { induction l as [| w l IH]; intros st Hl Hst; simpl.
    - eauto.
    - destruct (Hstep st w (Hl w (or_introl eq_refl)) (or_intror Hst)) as (st1 & -> & H1).
      cbn [bind]. apply IH; [intros; apply Hl; simpl; auto | exact H1]. }
  destruct orderings as [| w0 rest]; [simpl in L; pose proof (lt_O_fact (length Ap)); lia |].
  cbn [for_each].
  destruct (Hstep (None, None) w0) as (st1 & -> & H1).
  { apply P. simpl. auto. }
  { left. reflexivity. }
  cbn [bind].
  destruct (Hloop rest st1) as (st' & -> & v & Hv & Pv).
  { intros w Hw. apply P. simpl. auto. }
  { exact H1. }
  cbn [bind]. exists v. rewrite Hv. auto.
Qed.

(** ** The inertia-guided solver *)

Lemma weights_positive : Forall (fun kv => 0 < snd kv) ELEMENTS_WEIGHTS.
Proof. unfold ELEMENTS_WEIGHTS. repeat (constructor; [simpl; lra |]). constructor. Qed.

Lemma lookup_cases : forall k d, (exists m, lookup k d = Ok m) \/ lookup k d = Raise KeyError.
Proof.
  intros k d. induction d as [| [k' v] d IH]; simpl; [auto |].
  destruct (String.eqb k k'); eauto.
Qed.

Lemma lookup_positive : forall k d m,
  Forall (fun kv => 0 < snd kv) d -> lookup k d = Ok m -> 0 < m.
Proof.
  intros k d m H. induction H as [| [k' v] d Hv _ IH]; simpl; [discriminate |].
  destruct (String.eqb k k'); [| exact IH].
  intros E. inversion E; subst. exact Hv.
Qed.

Lemma masses_known : forall atoms, Forall known_label atoms ->
  exists ws, masses atoms = Ok ws /\ length ws = length atoms /\ Forall (fun w => 0 < w) ws.
Proof.
  intros atoms H. induction H as [| a atoms (m & Hm) _ (ws & E & L & P)]; cbn [masses].
  - exists []. auto.
  - rewrite Hm, E. cbn [bind]. exists (m :: ws). repeat split; simpl; auto.
    constructor; [| exact P]. eapply lookup_positive; eauto using weights_positive.
Qed.

Lemma masses_unknown : forall atoms, ~ Forall known_label atoms ->
  masses atoms = Raise KeyError.
Proof.
  induction atoms as [| a atoms IH]; intros H.
  - exfalso. apply H. constructor.
  - cbn [masses]. destruct (lookup_cases (lower a) ELEMENTS_WEIGHTS) as [(m & Hm) | Hm];
      rewrite Hm; [| reflexivity].
    cbn [bind]. rewrite IH; [reflexivity |].
    intros F. apply H. constructor; [exists m; exact Hm | exact F].
Qed.

Lemma rsum_positive : forall ws, ws <> [] -> Forall (fun w => 0 < w) ws -> 0 < rsum ws.
Proof.
  intros ws Hne H. induction H as [| w ws Hw H IH]; [contradiction |].
  unfold rsum in *. simpl. destruct ws as [| w' ws'].
  - simpl. lra.
  - assert (0 < fold_right Rplus 0 (w' :: ws')) by (apply IH; discriminate). lra.
Qed.

Lemma inertia_loop_known : forall atoms CV acc, Forall known_label atoms ->
  exists acc', inertia_loop acc atoms CV = Ok acc'.
Proof.
  intros atoms CV acc H. revert CV acc.
  induction H as [| a atoms (m & Hm) _ IH]; intros CV acc; cbn [inertia_loop].
  - eauto.
  - destruct CV as [| x CV]; [eauto |]. rewrite Hm. cbn [bind]. apply IH.
Qed.

Lemma get_principal_axis_known : forall eig atoms (V : points),
  atoms <> [] -> Forall known_label atoms -> length V = length atoms ->
  exists ax, get_principal_axis eig atoms V = Ok ax.
Proof.
  intros eig atoms V Hne Hk Hlen.
  unfold get_principal_axis, get_inertia_tensor, get_cm.
  destruct (masses_known atoms Hk) as (ws & -> & L & P). cbn [bind].
  rewrite L, <- Hlen, Nat.eqb_refl. cbn [negb].
  destruct (Req_dec_T (rsum ws) 0) as [E | _].
  { exfalso. assert (0 < rsum ws); [| lra].
    apply rsum_positive; [| exact P]. intros ->. destruct atoms; [contradiction | discriminate]. }
  destruct (vsum (map2 vscale ws V)) as [[s0 s1] s2]. cbn [bind].
  destruct (inertia_loop_known atoms
              (map (fun x => vsub x (s0 / rsum ws, s1 / rsum ws, s2 / rsum ws)) V)
              (0, 0, 0, 0, 0, 0) Hk) as ([[[[[Ixx Iyy] Izz] Ixy] Ixz] Iyz] & ->).
  cbn [bind]. destruct (eig _) as [w v]. eauto.
Qed.

Lemma get_principal_axis_unknown : forall eig atoms (V : points),
  ~ Forall known_label atoms -> get_principal_axis eig atoms V = Raise KeyError.
Proof.
  intros eig atoms V H. unfold get_principal_axis, get_inertia_tensor, get_cm.
  rewrite (masses_unknown atoms H). reflexivity.
Qed.

Lemma vdot_self_positive : forall v, v <> vzero -> 0 < vdot v v.
Proof.
  intros [[x y] z] H. unfold vdot, vmul, vtotal.
  destruct (Req_dec_T x 0) as [-> |]; [destruct (Req_dec_T y 0) as [-> |];
    [destruct (Req_dec_T z 0) as [-> |] |] |]; try nra.
  exfalso. apply H. reflexivity.
Qed.

Lemma rotation_matrix_vectors_defined : forall v1 v2, rmv_defined v1 v2 ->
  exists U, rotation_matrix_vectors v1 v2 = Ok U.
Proof.
  intros v1 v2 H. unfold rotation_matrix_vectors, rmv_branch_of.
  destruct (vec_eq_dec v1 v2) as [E | N1]; [eauto |].
  destruct (vec_eq_dec v1 (vneg v2)) as [E | N2]; [eauto |].
  destruct H as [H | [H | H]]; try contradiction.
  rewrite np_div_ok; [cbn [bind]; eauto |].
  unfold rodrigues_divisor, norm.
  pose proof (vdot_self_positive _ H) as Hp.
  rewrite sqrt_sqrt by lra. lra.
Qed.

Lemma take_z_of_nat : forall {A : Type} (X : list A) v,
  take_z X (map Z.of_nat v) = take X v.
Proof.
  intros A X v. induction v as [| i v IH]; simpl; [reflexivity |].
  unfold index_z. destruct (Z.leb_spec 0 (Z.of_nat i)); [| lia].
  rewrite Nat2Z.id, IH. reflexivity.
Qed.

Lemma reorder_inertia_hungarian_label_exact :
  forall svd eig lsa (p_atoms q_atoms : labels) (p_coord q_coord : points),
  Permutation p_atoms q_atoms ->
  length p_coord = length p_atoms -> length q_coord = length q_atoms ->
  lsa_ok lsa ->
  p_atoms <> [] -> Forall known_label p_atoms ->
  (forall pa qa,
     get_principal_axis eig p_atoms p_coord = Ok pa ->
     get_principal_axis eig q_atoms q_coord = Ok qa ->
     rmv_defined pa qa /\ rmv_defined pa (vneg qa)) ->
  label_exact_view p_atoms q_atoms
    (reorder_inertia_hungarian svd eig lsa p_atoms q_atoms p_coord q_coord).
Proof.
  intros svd eig lsa p_atoms q_atoms p_coord q_coord Hperm Hp Hq Hlsa Hne Hk Hax.
  pose proof (Permutation_length Hperm) as HN.
  unfold reorder_inertia_hungarian.
  destruct (get_principal_axis_known eig p_atoms p_coord Hne Hk Hp) as (pa & Epa).
  destruct (get_principal_axis_known eig q_atoms q_coord) as (qa & Eqa).
  { intros ->. apply Permutation_sym, Permutation_nil in Hperm. contradiction. }
  { apply (Permutation_Forall Hperm). exact Hk. }
  { exact Hq. }
  destruct (Hax pa qa Epa Eqa) as (D1 & D2).
  rewrite Epa, Eqa. cbn [bind].
  destruct (rotation_matrix_vectors_defined _ _ D1) as (U1 & ->).
  destruct (rotation_matrix_vectors_defined _ _ D2) as (U2 & ->). cbn [bind].
  set (q1 := map (fun q => vecmat q U1) q_coord).
  set (q2 := map (fun q => vecmat q U2) q_coord).
  assert (V1 : label_exact_view p_atoms q_atoms
                 (reorder_hungarian lsa p_atoms q_atoms p_coord q1)).
  { apply reorder_groups_label_exact; auto using hungarian_ok.
    unfold q1. rewrite length_map. exact Hq. }
  assert (V2 : label_exact_view p_atoms q_atoms
                 (reorder_hungarian lsa p_atoms q_atoms p_coord q2)).
  { apply reorder_groups_label_exact; auto using hungarian_ok.
    unfold q2. rewrite length_map. exact Hq. }
  pose proof V1 as (v1 & E1 & P1 & _). pose proof V2 as (v2 & E2 & P2 & _).
  rewrite E1, E2 in *. cbn [bind]. rewrite !take_z_of_nat.
  destruct (take_permutation q1 v1) as (c1 & -> & Pc1).
  { unfold q1. rewrite length_map, Hq, <- HN. exact P1. }
  destruct (take_permutation q2 v2) as (c2 & -> & Pc2).
  { unfold q2. rewrite length_map, Hq, <- HN. exact P2. }
  cbn [bind].
  assert (L1 : length p_coord = length c1).
  { rewrite (Permutation_length Pc1). unfold q1. rewrite length_map. lia. }
  assert (L2 : length p_coord = length c2).
  { rewrite (Permutation_length Pc2). unfold q2. rewrite length_map. lia. }
  assert (Hpc : p_coord <> []).
  { intros ->. destruct p_atoms; [contradiction | discriminate]. }
  destruct (kabsch_rmsd_ok svd p_coord c1 Hpc L1) as (r1 & ->).
  destruct (kabsch_rmsd_ok svd p_coord c2 Hpc L2) as (r2 & ->).
  destruct (Rlt_dec r1 r2); assumption.
Qed.

Lemma reorder_inertia_hungarian_unknown :
  forall svd eig lsa (p_atoms q_atoms : labels) (p_coord q_coord : points),
  ~ Forall known_label p_atoms ->
  reorder_inertia_hungarian svd eig lsa p_atoms q_atoms p_coord q_coord = Raise KeyError.
Proof.
  intros. unfold reorder_inertia_hungarian.
  rewrite get_principal_axis_unknown by assumption. reflexivity.
Qed.

(** ** The four strategies (C4) *)

Lemma insert_key_permutation : forall k i l, Permutation (insert_key k i l) ((k, i) :: l).
Proof.
  intros k i l. induction l as [| [k' i'] l IH]; simpl; [reflexivity |].
  destruct (Rle_dec k k'); [reflexivity |].
  apply Permutation_trans with ((k', i') :: (k, i) :: l); [| constructor].
  constructor. exact IH.
Qed.

Lemma map_snd_combine : forall {A B : Type} (l : list A) (m : list B),
  length l = length m -> map snd (combine l m) = m.
Proof.
  intros A B l. induction l as [| a l IH]; intros [| b m] H; simpl in *;
    try discriminate; auto.
  f_equal. apply IH. lia.
Qed.

Lemma insertion_argsort_ok : argsort_ok insertion_argsort.
Proof.
  intros keys. unfold insertion_argsort.
  assert (H : forall l : list (R * nat),
            Permutation (fold_right (fun ki acc => insert_key (fst ki) (snd ki) acc) [] l) l).
  { induction l as [| [k i] l IH]; simpl; [reflexivity |].
    eapply Permutation_trans; [apply insert_key_permutation |]. constructor. exact IH. }
  eapply Permutation_trans; [apply Permutation_map, H |].
  rewrite map_snd_combine by (rewrite length_seq; reflexivity). reflexivity.
Qed.

Lemma diagonal_lsa_ok : lsa_ok diagonal_lsa.
Proof. intros M _. reflexivity. Qed.

(** C4 (as stated, refuted): deuterium has no entry in [ELEMENTS_WEIGHTS];
    on equal label multisets the inertia-guided strategy raises KeyError
    instead of returning a view. *)
Lemma reorder_inertia_hungarian_unknown_label :
  Permutation ["D"%string] ["D"%string] /\
  length [vzero] = length ["D"%string] /\
  reorder_inertia_hungarian mirror_svd axis_eig diagonal_lsa
    ["D"%string] ["D"%string] [vzero] [vzero] = Raise KeyError.
Proof.
  split; [reflexivity |]. split; [reflexivity |].
  apply reorder_inertia_hungarian_unknown.
  intros H. inversion H as [| a l (m & Hm) _]; subst.
  assert (E : lookup (lower "D"%string) ELEMENTS_WEIGHTS = Raise KeyError) by reflexivity.
  rewrite E in Hm. discriminate.
Qed.

(** C4 (amended): on equal label multisets, [reorder_distance],
    [reorder_hungarian] and [reorder_brute] return a permutation of [0..N)
    that is label-exact and maps the indices of each label to indices of
    the same label; [reorder_inertia_hungarian] does so when there is at
    least one atom, every label has a mass in [ELEMENTS_WEIGHTS] and the two
    principal axes do not make [rotation_matrix_vectors] divide by zero,
    and it raises KeyError when a label has no mass. *)
Theorem reorder_strategies_label_exact :
  forall (svd : svd_routine) (eig : eig_routine) (lsa : lsa_routine)
         (argsort : argsort_routine)
         (p_atoms q_atoms : labels) (p_coord q_coord : points),
  Permutation p_atoms q_atoms ->
  length p_coord = length p_atoms ->
  length q_coord = length q_atoms ->
  argsort_ok argsort ->
  lsa_ok lsa ->
  label_exact_view p_atoms q_atoms
    (reorder_distance argsort p_atoms q_atoms p_coord q_coord) /\
  label_exact_view p_atoms q_atoms
    (reorder_hungarian lsa p_atoms q_atoms p_coord q_coord) /\
  label_exact_view p_atoms q_atoms
    (reorder_brute svd p_atoms q_atoms p_coord q_coord) /\
  (p_atoms <> [] -> Forall known_label p_atoms ->
   (forall pa qa,
      get_principal_axis eig p_atoms p_coord = Ok pa ->
      get_principal_axis eig q_atoms q_coord = Ok qa ->
      rmv_defined pa qa /\ rmv_defined pa (vneg qa)) ->
   label_exact_view p_atoms q_atoms
     (reorder_inertia_hungarian svd eig lsa p_atoms q_atoms p_coord q_coord)) /\
  (~ Forall known_label p_atoms ->
   reorder_inertia_hungarian svd eig lsa p_atoms q_atoms p_coord q_coord
   = Raise KeyError).
Proof.
  intros svd eig lsa argsort p_atoms q_atoms p_coord q_coord Hperm Hp Hq Ha Hl.
  split; [| split; [| split; [| split]]].
  - apply reorder_groups_label_exact; auto using distance_view_ok.
  - apply reorder_groups_label_exact; auto using hungarian_ok.
  - apply reorder_groups_label_exact; auto using brute_permutation_ok.
  - intros Hne Hk Hax. apply reorder_inertia_hungarian_label_exact; assumption.
  - apply reorder_inertia_hungarian_unknown.
Qed.

Definition water_p_atoms : labels := ["O"; "H"; "H"]%string.
Definition water_q_atoms : labels := ["H"; "O"; "H"]%string.
Definition water_p_coord : points := [(0, 0, 0); (1, 0, 0); (0, 1, 0)].
Definition water_q_coord : points := [(0, 1, 0); (0, 0, 0); (1, 0, 0)].

Lemma reorder_strategies_label_exact_witness :
  label_exact_view water_p_atoms water_q_atoms
    (reorder_distance insertion_argsort water_p_atoms water_q_atoms
       water_p_coord water_q_coord) /\
  label_exact_view water_p_atoms water_q_atoms
    (reorder_hungarian diagonal_lsa water_p_atoms water_q_atoms
       water_p_coord water_q_coord) /\
  label_exact_view water_p_atoms water_q_atoms
    (reorder_brute mirror_svd water_p_atoms water_q_atoms water_p_coord water_q_coord) /\
  (water_p_atoms <> [] -> Forall known_label water_p_atoms ->
   (forall pa qa,
      get_principal_axis axis_eig water_p_atoms water_p_coord = Ok pa ->
      get_principal_axis axis_eig water_q_atoms water_q_coord = Ok qa ->
      rmv_defined pa qa /\ rmv_defined pa (vneg qa)) ->
   label_exact_view water_p_atoms water_q_atoms
     (reorder_inertia_hungarian mirror_svd axis_eig diagonal_lsa
        water_p_atoms water_q_atoms water_p_coord water_q_coord)) /\
  (~ Forall known_label water_p_atoms ->
   reorder_inertia_hungarian mirror_svd axis_eig diagonal_lsa
     water_p_atoms water_q_atoms water_p_coord water_q_coord
   = Raise KeyError).
Proof.
  apply (reorder_strategies_label_exact mirror_svd axis_eig diagonal_lsa insertion_argsort
           water_p_atoms water_q_atoms water_p_coord water_q_coord).
  - unfold water_p_atoms, water_q_atoms. apply perm_swap.
  - reflexivity.
  - reflexivity.
  - exact insertion_argsort_ok.
  - exact diagonal_lsa_ok.
Defined.

(** The conditions of the inertia-guided strategy hold on the same input:
    the labels are known, and with [axis_eig] both principal axes are
    (4/5, 3/5, 0). *)
Lemma water_inertia_conditions :
  water_p_atoms <> [] /\ Forall known_label water_p_atoms /\
  (forall pa qa,
     get_principal_axis axis_eig water_p_atoms water_p_coord = Ok pa ->
     get_principal_axis axis_eig water_q_atoms water_q_coord = Ok qa ->
     rmv_defined pa qa /\ rmv_defined pa (vneg qa)).
Proof.
  split; [discriminate |]. split.
  - unfold water_p_atoms. repeat constructor; eexists; reflexivity.
  - assert (H : forall atoms V ax,
              get_principal_axis axis_eig atoms V = Ok ax -> ax = (4/5, 3/5, 0)).
    { intros atoms V ax. unfold get_principal_axis.
      destruct (get_inertia_tensor atoms V) as [M | |]; cbn [bind]; try discriminate.
      unfold axis_eig. intros E. inversion E; subst.
      unfold argmax3, axis_eigval.
      destruct (Rlt_dec (52 * 1.008) (2 * 1.008)); [lra |].
      destruct (Rlt_dec (52 * 1.008) (50 * 1.008)); [lra | reflexivity]. }
    intros pa qa Hpa Hqa. apply H in Hpa, Hqa. subst. split.
    + left. reflexivity.
    + right. left. unfold vneg. tuple_eq; ring.
Qed.

(** * Part III: further properties of the numerical kernels *)

(** ** Orthogonal matrices and quadratic forms *)

Ltac mat_ring' :=
  intros; split_vec;
  cbv [adjugate symmetric qform] in *; mat_unfold; tuple_eq; ring.

Lemma mmul_adjugate : forall A, mmul A (adjugate A) = mscale (det A) eye.
Proof. mat_ring'. Qed.

Lemma mscale_mmul_r : forall k A B, mmul A (mscale k B) = mscale k (mmul A B).
Proof. mat_ring. Qed.

Lemma mscale_mscale : forall a b A, mscale a (mscale b A) = mscale (a * b) A.
Proof. mat_ring. Qed.

Lemma mscale_one : forall A, mscale 1 A = A.
Proof. mat_ring. Qed.

Lemma orthogonal_transpose : forall M, orthogonal M -> orthogonal (transpose M).
Proof.
  intros M H. unfold orthogonal in *. rewrite transpose_involutive.
  assert (D : det M <> 0).
  { pose proof (orthogonal_det_sq M H). intros E. rewrite E in *. lra. }
  (* M . M^T = M . M^T . (M . adj M / det M) = M . (M^T . M) . adj M / det M *)
  assert (E : mmul (mmul M (transpose M)) (mmul M (adjugate M))
              = mmul M (adjugate M)).
  { rewrite <- (mmul_assoc (mmul M (transpose M)) M (adjugate M)).
    rewrite (mmul_assoc M (transpose M) M), H, mmul_eye_r. reflexivity. }
  rewrite mmul_adjugate, mscale_mmul_r, mmul_eye_r in E.
  apply (f_equal (mscale (/ det M))) in E.
  rewrite !mscale_mscale, Rinv_l, !mscale_one in E by exact D.
  exact E.
Qed.

Lemma orthogonal_eye : orthogonal eye.
Proof. unfold orthogonal. mat_ring. Qed.

Lemma matvec_mmul : forall A B x, matvec (mmul A B) x = matvec A (matvec B x).
Proof. mat_ring. Qed.

Lemma matvec_eye : forall x, matvec eye x = x.
Proof. mat_ring. Qed.

Lemma vdot_matvec_transpose : forall M x y,
  vdot x (matvec M y) = vdot (matvec (transpose M) x) y.
Proof. mat_ring. Qed.

Lemma vecmat_transpose : forall x M, vecmat x (transpose M) = matvec M x.
Proof. mat_ring. Qed.

Lemma trace_mmul_comm : forall A B, trace (mmul A B) = trace (mmul B A).
Proof. mat_ring. Qed.

Lemma qform_congruence : forall M B x,
  qform (mmul (mmul B M) (transpose B)) x = qform M (matvec (transpose B) x).
Proof. mat_ring'. Qed.

Lemma pos_mul_sq_zero : forall s y, 0 < s -> s * (y * y) = 0 -> y = 0.
Proof.
  intros s y Hs H. apply Rmult_integral in H. destruct H as [H | H]; [lra |].
  apply Rmult_integral in H. destruct H; assumption.
Qed.

Lemma vdot_self_zero : forall y s0 s1 s2,
  0 < s0 -> 0 < s1 -> 0 < s2 ->
  vdot y (matvec (diag (s0, s1, s2)) y) <= 0 -> y = vzero.
Proof.
  intros [[y0 y1] y2] s0 s1 s2 H0 H1 H2 H. mat_unfold.
  assert (A0 : 0 <= s0 * (y0 * y0)) by (apply Rmult_le_pos; [lra | apply Rle_0_sqr]).
  assert (A1 : 0 <= s1 * (y1 * y1)) by (apply Rmult_le_pos; [lra | apply Rle_0_sqr]).
  assert (A2 : 0 <= s2 * (y2 * y2)) by (apply Rmult_le_pos; [lra | apply Rle_0_sqr]).
  rewrite (pos_mul_sq_zero s0 y0), (pos_mul_sq_zero s1 y1), (pos_mul_sq_zero s2 y2)
    by (auto; lra).
  reflexivity.
Qed.

(** Columns from the action on the unit vectors. *)
Lemma matvec_units_eye : forall Z,
  matvec Z (1, 0, 0) = (1, 0, 0) -> matvec Z (0, 1, 0) = (0, 1, 0) ->
  matvec Z (0, 0, 1) = (0, 0, 1) -> Z = eye.
Proof.
  intros [[[[a b] c] [[d e] f]] [[g h] i]] H0 H1 H2. mat_unfold.
  injection H0 as ? ? ?. injection H1 as ? ? ?. injection H2 as ? ? ?.
  tuple_eq; lra.
Qed.

Lemma entry_commutes : forall z si sj, 0 < si -> 0 < sj ->
  z * (sj * sj) = si * si * z -> z * sj = si * z.
Proof.
  intros z si sj Hi Hj H.
  assert (E : z * (sj - si) * (sj + si) = 0) by lra.
  apply Rmult_integral in E. destruct E as [E |]; [| lra]. lra.
Qed.

Lemma entry_symmetric : forall zij zji si sj, 0 < si -> 0 < sj ->
  zij * sj = si * zij -> zji * si = sj * zji -> zij * sj = zji * si -> zij = zji.
Proof.
  intros zij zji si sj Hi Hj C1 C2 S.
  assert (E : zij * (sj - si) = 0) by lra.
  apply Rmult_integral in E. destruct E as [E | E].
  - subst zij. assert (F : zji * si = 0) by lra.
    apply Rmult_integral in F. destruct F; lra.
  - assert (sj = si) by lra. subst sj.
    apply (Rmult_eq_reg_r si); lra.
Qed.

(** The orthogonal factor of a positive definite matrix is the identity:
    if [Z] is orthogonal, [S] diagonal with positive entries, and [Z . S] is
    symmetric positive semidefinite, then [Z = I]. *)
Lemma polar_factor_identity : forall Z s0 s1 s2,
  orthogonal Z -> 0 < s0 -> 0 < s1 -> 0 < s2 ->
  symmetric (mmul Z (diag (s0, s1, s2))) ->
  positive_semidefinite (mmul Z (diag (s0, s1, s2))) ->
  Z = eye.
Proof.
  intros Z s0 s1 s2 HZ H0 H1 H2 Hsym Hpsd.
  pose proof (orthogonal_transpose Z HZ) as HZt.
  unfold orthogonal in HZ, HZt. rewrite transpose_involutive in HZt.
  set (S := diag (s0, s1, s2)) in *.
  set (S2 := diag (s0 * s0, s1 * s1, s2 * s2)).
  assert (ES : mmul S S = S2) by (unfold S, S2; mat_ring).
  assert (TS : transpose S = S) by (unfold S; mat_ring).
  (* Z S^2 Z^T = (Z S)(Z S)^T = (Z S)^T (Z S) = S Z^T Z S = S^2 *)
  assert (E1 : mmul (mmul Z S2) (transpose Z) = S2).
  { transitivity (mmul (mmul Z S) (transpose (mmul Z S))).
    - rewrite transpose_mmul, TS, <- ES. rewrite !mmul_assoc. reflexivity.
    - unfold symmetric in Hsym. rewrite Hsym at 1. rewrite <- Hsym at 1.
      rewrite transpose_mmul, TS. rewrite mmul_assoc, <- (mmul_assoc (transpose Z)), HZ,
        mmul_eye_l. exact ES. }
  assert (E2 : mmul Z S2 = mmul S2 Z).
  { rewrite <- E1 at 2. rewrite mmul_assoc, HZ, mmul_eye_r. reflexivity. }
  (* entrywise *)
  assert (Zsym : transpose Z = Z).
  { unfold symmetric in Hsym. unfold S, S2 in *. clear ES TS E1 HZ HZt Hpsd.
    destruct Z as [[[[a b] c] [[d e] f]] [[g h] i]]. mat_unfold.
    injection E2; injection Hsym; intros.
    assert (b = d).
    { apply (entry_symmetric b d s0 s1); try lra; apply entry_commutes; lra. }
    assert (c = g).
    { apply (entry_symmetric c g s0 s2); try lra; apply entry_commutes; lra. }
    assert (f = h).
    { apply (entry_symmetric f h s1 s2); try lra; apply entry_commutes; lra. }
    subst. reflexivity. }
  assert (ZZ : mmul Z Z = eye) by (rewrite <- Zsym at 1; exact HZ).
  assert (Hfix : forall x, matvec Z x = x).
  { intros x. set (y := vsub x (matvec Z x)).
    assert (Zy : matvec Z y = vneg y).
    { unfold y.
      assert (L : forall M a b, matvec M (vsub a b) = vsub (matvec M a) (matvec M b))
        by mat_ring.
      rewrite L, <- matvec_mmul, ZZ, matvec_eye.
      generalize (matvec Z x). intros z. destruct x as [[? ?] ?], z as [[? ?] ?].
      unfold vsub, vneg. tuple_eq; ring. }
    assert (Q : qform (mmul Z S) y = - vdot y (matvec S y)).
    { unfold qform. rewrite matvec_mmul, vdot_matvec_transpose, Zsym, Zy.
      generalize (matvec S y). intros z. destruct y as [[? ?] ?], z as [[? ?] ?].
      unfold vneg, vdot, vmul, vtotal. ring. }
    pose proof (Hpsd y) as P. rewrite Q in P.
    assert (Y : y = vzero) by (apply (vdot_self_zero y s0 s1 s2); auto; fold S; lra).
    unfold y in Y. destruct x as [[x0 x1] x2], (matvec Z (x0, x1, x2)) as [[z0 z1] z2].
    unfold vsub, vzero in Y. injection Y as ? ? ?. tuple_eq; lra. }
  apply matvec_units_eye; apply Hfix.
Qed.

(** ** Weighted sums over a point set *)

Ltac vec_ring :=
  intros; split_vec; cbv [rigid qform] in *; mat_unfold; tuple_eq; ring.

Lemma weighted_sum_cons : forall q Q w W,
  weighted_sum (q :: Q) (weights3 (w :: W))
  = vadd (vscale w q) (weighted_sum Q (weights3 W)).
Proof.
  intros. unfold weighted_sum, weights3. cbn [map map2 vsum fold_right]. f_equal.
  destruct q as [[? ?] ?]. unfold vmul, vscale. tuple_eq; ring.
Qed.

Lemma weighted_cov_cons : forall p P q Q w W,
  weighted_cov (p :: P) (q :: Q) (w :: W)
  = madd (mscale w (outer p q)) (weighted_cov P Q W).
Proof. reflexivity. Qed.

Lemma weighted_sq_cons : forall q Q w W,
  weighted_sq (q :: Q) (weights3 (w :: W))
  = w * vdot q q + weighted_sq Q (weights3 W).
Proof.
  intros. unfold weighted_sq, weights3, total. cbn [map map2 vsum fold_right].
  rewrite vtotal_vadd. f_equal. destruct q as [[? ?] ?]. unfold vdot, vmul, vtotal. ring.
Qed.

Lemma wsum_cons : forall f q Q w W, wsum f (q :: Q) (w :: W) = w * f q + wsum f Q W.
Proof. reflexivity. Qed.

Lemma rigid_sum : forall Rm t Q W, length W = length Q ->
  weighted_sum (map (rigid Rm t) Q) (weights3 W)
  = vadd (matvec Rm (weighted_sum Q (weights3 W))) (vscale (rsum W) t).
Proof.
  intros Rm t. induction Q as [| q Q IH]; intros [| w W] H; try discriminate.
  - cbn. destruct t as [[? ?] ?], Rm as [[[[? ?] ?] [[? ?] ?]] [[? ?] ?]].
    mat_unfold. tuple_eq; ring.
  - cbn [map]. rewrite !weighted_sum_cons, IH by (simpl in H; lia).
    unfold rsum. cbn [fold_right]. fold (rsum W).
    generalize (weighted_sum Q (weights3 W)) (rsum W). clear IH. vec_ring.
Qed.

Lemma rigid_cov : forall Rm t Q W, length W = length Q ->
  weighted_cov (map (rigid Rm t) Q) Q W
  = madd (mmul Rm (weighted_cov Q Q W)) (outer t (weighted_sum Q (weights3 W))).
Proof.
  intros Rm t. induction Q as [| q Q IH]; intros [| w W] H; try discriminate.
  - cbn. destruct t as [[? ?] ?], Rm as [[[[? ?] ?] [[? ?] ?]] [[? ?] ?]].
    mat_unfold. tuple_eq; ring.
  - cbn [map]. rewrite !weighted_cov_cons, weighted_sum_cons, IH by (simpl in H; lia).
    generalize (weighted_sum Q (weights3 W)) (weighted_cov Q Q W). clear IH. vec_ring.
Qed.

Lemma rigid_norm : forall Rm t q, orthogonal Rm ->
  vdot (rigid Rm t q) (rigid Rm t q)
  = vdot q q + 2 * vdot t (matvec Rm q) + vdot t t.
Proof.
  intros Rm t q HR. unfold rigid.
  assert (E : vdot (matvec Rm q) (matvec Rm q) = vdot q q).
  { rewrite vdot_matvec_transpose, <- matvec_mmul. unfold orthogonal in HR.
    rewrite HR, matvec_eye. reflexivity. }
  revert E. generalize (matvec Rm q). intros z E.
  replace (vdot (vadd z t) (vadd z t)) with (vdot z z + 2 * vdot t z + vdot t t)
    by (destruct z as [[? ?] ?], t as [[? ?] ?]; unfold vdot, vmul, vadd, vtotal; ring).
  rewrite E. reflexivity.
Qed.

Lemma rigid_sq : forall Rm t Q W, orthogonal Rm -> length W = length Q ->
  weighted_sq (map (rigid Rm t) Q) (weights3 W)
  = weighted_sq Q (weights3 W)
    + 2 * vdot t (matvec Rm (weighted_sum Q (weights3 W)))
    + rsum W * vdot t t.
Proof.
  intros Rm t Q W HR. revert W.
  induction Q as [| q Q IH]; intros [| w W] H; try discriminate.
  - cbn. destruct t as [[? ?] ?], Rm as [[[[? ?] ?] [[? ?] ?]] [[? ?] ?]].
    mat_unfold. ring.
  - cbn [map]. rewrite !weighted_sq_cons, weighted_sum_cons, IH, rigid_norm
      by (assumption || (simpl in H; lia)).
    unfold rsum. cbn [fold_right]. fold (rsum W).
    assert (L : forall a b, matvec Rm (vadd (vscale w a) b)
                            = vadd (vscale w (matvec Rm a)) (matvec Rm b)) by vec_ring.
    rewrite L.
    generalize (matvec Rm (weighted_sum Q (weights3 W))) (matvec Rm q)
      (weighted_sq Q (weights3 W)) (rsum W) (vdot q q).
    intros. clear IH HR. destruct t as [[? ?] ?]. split_vec.
    unfold vdot, vmul, vadd, vscale, vtotal. ring.
Qed.

(** ** The weighted covariance of a point set with itself *)

Lemma weighted_cov_symmetric : forall Q W, symmetric (weighted_cov Q Q W).
Proof.
  unfold symmetric. induction Q as [| q Q IH]; intros [| w W]; try reflexivity.
  rewrite weighted_cov_cons.
  assert (L : forall A B, transpose (madd A B) = madd (transpose A) (transpose B)) by mat_ring.
  rewrite L, IH. f_equal. destruct q as [[? ?] ?]. mat_unfold. tuple_eq; ring.
Qed.

Lemma weighted_C_symmetric : forall Q W iw, symmetric (weighted_C Q Q W iw).
Proof.
  intros Q W iw. unfold weighted_C, symmetric.
  pose proof (weighted_cov_symmetric Q W) as H. unfold symmetric in H.
  revert H. generalize (weighted_cov Q Q W) (weighted_sum Q (weights3 W)).
  intros M c H.
  assert (L : forall k A B, transpose (mscale k (msub A B))
                            = mscale k (msub (transpose A) (transpose B))) by mat_ring.
  rewrite L, H. f_equal. f_equal. destruct c as [[? ?] ?]. mat_unfold. tuple_eq; ring.
Qed.

Lemma qform_weighted_cov : forall Q W x, length W = length Q ->
  qform (weighted_cov Q Q W) x = wsum (fun q => vdot q x * vdot q x) Q W.
Proof.
  induction Q as [| q Q IH]; intros [| w W] x H; try discriminate.
  - cbn. destruct x as [[? ?] ?]. unfold qform. mat_unfold. ring.
  - rewrite weighted_cov_cons, wsum_cons, <- IH by (simpl in H; lia).
    generalize (weighted_cov Q Q W). intros M.
    destruct q as [[? ?] ?], x as [[? ?] ?]. split_vec. unfold qform. mat_unfold. ring.
Qed.

Lemma vdot_weighted_sum : forall Q W x, length W = length Q ->
  vdot (weighted_sum Q (weights3 W)) x = wsum (fun q => vdot q x) Q W.
Proof.
  induction Q as [| q Q IH]; intros [| w W] x H; try discriminate.
  - cbn. destruct x as [[? ?] ?]. mat_unfold. ring.
  - rewrite weighted_sum_cons, wsum_cons, <- IH by (simpl in H; lia).
    generalize (weighted_sum Q (weights3 W)). intros c.
    destruct q as [[? ?] ?], x as [[? ?] ?], c as [[? ?] ?]. mat_unfold. ring.
Qed.

Lemma wsum_shift : forall f mu Q W, length W = length Q ->
  wsum (fun q => (f q - mu) * (f q - mu)) Q W
  = wsum (fun q => f q * f q) Q W - 2 * mu * wsum f Q W + mu * mu * rsum W.
Proof.
  intros f mu. induction Q as [| q Q IH]; intros [| w W] H; try discriminate.
  - cbn. ring.
  - rewrite !wsum_cons, IH by (simpl in H; lia).
    unfold rsum. cbn [fold_right]. ring.
Qed.

Lemma wsum_nonneg : forall f Q W, Forall (fun w => 0 <= w) W ->
  (forall q, 0 <= f q) -> 0 <= wsum f Q W.
Proof.
  intros f Q W HW Hf. revert Q. induction HW as [| w W Hw _ IH]; intros [| q Q].
  - cbn. lra.
  - cbn. lra.
  - cbn. lra.
  - rewrite wsum_cons. pose proof (IH Q). pose proof (Rmult_le_pos w (f q) Hw (Hf q)). lra.
Qed.

(** Cauchy-Schwarz for weighted sums, as the variance being non-negative. *)
Lemma weighted_variance_nonneg : forall f Q W,
  length W = length Q -> Forall (fun w => 0 <= w) W -> 0 < rsum W ->
  0 <= wsum (fun q => f q * f q) Q W - wsum f Q W * wsum f Q W / rsum W.
Proof.
  intros f Q W Hlen HW Hs.
  set (mu := wsum f Q W / rsum W).
  assert (N : 0 <= wsum (fun q => (f q - mu) * (f q - mu)) Q W).
  { apply wsum_nonneg; [exact HW |]. intros q. apply Rle_0_sqr. }
  rewrite wsum_shift in N by exact Hlen.
  replace (wsum (fun q => f q * f q) Q W - wsum f Q W * wsum f Q W / rsum W)
    with (wsum (fun q => f q * f q) Q W - 2 * mu * wsum f Q W + mu * mu * rsum W).
  - exact N.
  - unfold mu. field. lra.
Qed.

Lemma weighted_C_psd : forall Q W,
  length W = length Q -> Forall (fun w => 0 <= w) W -> 0 < rsum W ->
  positive_semidefinite (weighted_C Q Q W (/ rsum W)).
Proof.
  intros Q W Hlen HW Hs x. unfold weighted_C.
  pose proof (weighted_variance_nonneg (fun q => vdot q x) Q W Hlen HW Hs) as V.
  cbv beta in V. rewrite <- qform_weighted_cov, <- vdot_weighted_sum in V by exact Hlen.
  assert (Hi : 0 < / rsum W) by (apply Rinv_0_lt_compat; exact Hs).
  revert V. generalize (weighted_cov Q Q W) (weighted_sum Q (weights3 W)). intros M c V.
  assert (E : qform (mscale (/ rsum W) (msub M (mscale (/ rsum W) (outer c c)))) x
              = / rsum W * (qform M x - vdot c x * vdot c x / rsum W)).
  { destruct c as [[? ?] ?], x as [[? ?] ?]. split_vec. unfold qform. mat_unfold.
    field. lra. }
  rewrite E. apply Rmult_le_pos; lra.
Qed.

Lemma trace_weighted_C : forall Q W iw,
  trace (weighted_C Q Q W iw)
  = (weighted_sq Q (weights3 W)
     - vtotal (vmul (weighted_sum Q (weights3 W)) (weighted_sum Q (weights3 W))) * iw) * iw.
Proof.
  intros Q W iw. unfold weighted_C.
  assert (T : trace (weighted_cov Q Q W) = weighted_sq Q (weights3 W)).
  { revert W. induction Q as [| q Q IH]; intros [| w W];
      try (unfold weighted_cov, weighted_sq, total, weights3; simpl;
           unfold mzero, vzero, vtotal; simpl; ring).
    rewrite weighted_cov_cons, weighted_sq_cons, <- IH.
      generalize (weighted_cov Q Q W). intros M. destruct q as [[? ?] ?]. split_vec.
      mat_unfold. ring. }
  rewrite <- T. generalize (weighted_cov Q Q W) (weighted_sum Q (weights3 W)).
  intros M c. destruct c as [[? ?] ?]. split_vec. mat_unfold. ring.
Qed.

(** ** kabsch_weighted on a rigidly moved copy *)

Lemma inverse_weight : forall w, rsum w <> 0 -> 3 / total (weights3 w) = / rsum w.
Proof. intros w H. rewrite total_weights3. field. exact H. Qed.

Lemma rigid_weighted_C : forall Rm t Q W iw,
  length W = length Q -> iw * rsum W = 1 ->
  weighted_C (map (rigid Rm t) Q) Q W iw = mmul Rm (weighted_C Q Q W iw).
Proof.
  intros Rm t Q W iw Hlen Hiw. unfold weighted_C.
  rewrite rigid_cov, rigid_sum by exact Hlen.
  assert (Hne : iw <> 0) by (intros E; rewrite E in Hiw; lra).
  assert (Es : rsum W = / iw) by (apply (Rmult_eq_reg_l iw); [rewrite Hiw; field |]; assumption).
  rewrite Es. generalize (weighted_cov Q Q W) (weighted_sum Q (weights3 W)).
  intros M c. clear Hlen Hiw Es. split_vec. mat_unfold. tuple_eq; field; assumption.
Qed.

Lemma rigid_centered_sq : forall Rm t Q W iw,
  orthogonal Rm -> length W = length Q -> iw * rsum W = 1 ->
  weighted_sq (map (rigid Rm t) Q) (weights3 W)
  - vtotal (vmul (weighted_sum (map (rigid Rm t) Q) (weights3 W))
                 (weighted_sum (map (rigid Rm t) Q) (weights3 W))) * iw
  = weighted_sq Q (weights3 W)
    - vtotal (vmul (weighted_sum Q (weights3 W)) (weighted_sum Q (weights3 W))) * iw.
Proof.
  intros Rm t Q W iw HR Hlen Hiw.
  rewrite rigid_sq, rigid_sum by assumption.
  assert (Hne : iw <> 0) by (intros E; rewrite E in Hiw; lra).
  assert (Es : rsum W = / iw) by (apply (Rmult_eq_reg_l iw); [rewrite Hiw; field |]; assumption).
  rewrite Es.
  generalize (weighted_sq Q (weights3 W)) (weighted_sum Q (weights3 W)). intros sq c.
  assert (E : vdot (matvec Rm c) (matvec Rm c) = vdot c c).
  { rewrite vdot_matvec_transpose, <- matvec_mmul. unfold orthogonal in HR.
    rewrite HR, matvec_eye. reflexivity. }
  fold (vdot c c). rewrite <- E.
  generalize (matvec Rm c). intros z. clear E HR Hlen Hiw Es.
  destruct z as [[? ?] ?], t as [[? ?] ?]. unfold vdot, vmul, vadd, vscale, vtotal.
  field. assumption.
Qed.

Lemma svd_of_rotated : forall Rm M V s0 s1 s2 Wt,
  orthogonal Rm -> symmetric M -> positive_semidefinite M ->
  orthogonal V -> orthogonal Wt ->
  0 < s0 -> 0 < s1 -> 0 < s2 ->
  mmul Rm M = mmul (mmul V (diag (s0, s1, s2))) Wt ->
  mmul V Wt = Rm /\ s0 + s1 + s2 = trace M.
Proof.
  intros Rm M V s0 s1 s2 Wt HR HMs HMp HV HW H0 H1 H2 HC.
  set (S := diag (s0, s1, s2)) in *.
  pose proof (orthogonal_transpose Rm HR) as HRt.
  pose proof (orthogonal_transpose Wt HW) as HWt.
  unfold orthogonal in HR, HRt, HW, HWt. rewrite transpose_involutive in HRt, HWt.
  set (Z := mmul (mmul Wt (transpose Rm)) V).
  assert (HZ : orthogonal Z).
  { unfold Z. apply orthogonal_mmul; [apply orthogonal_mmul |]; auto.
    apply orthogonal_transpose. exact HR. }
  (* Z . S = Wt . M . Wt^T *)
  assert (EZ : mmul Z S = mmul (mmul Wt M) (transpose Wt)).
  { transitivity (mmul (mmul Wt (transpose Rm)) (mmul (mmul (mmul V S) Wt) (transpose Wt))).
    - rewrite (mmul_assoc (mmul V S) Wt), HWt, mmul_eye_r. unfold Z.
      rewrite !mmul_assoc. reflexivity.
    - rewrite <- HC. rewrite !mmul_assoc.
      rewrite <- (mmul_assoc (transpose Rm) Rm), HR, mmul_eye_l. reflexivity. }
  assert (Zid : Z = eye).
  { apply (polar_factor_identity Z s0 s1 s2 HZ H0 H1 H2); fold S; rewrite EZ.
    - unfold symmetric in *. rewrite !transpose_mmul, transpose_involutive, HMs.
      rewrite mmul_assoc. reflexivity.
    - intros x. rewrite qform_congruence. apply HMp. }
  split.
  - (* Wt . Rm^T . V = I  gives  V . Wt = Rm *)
    assert (E1 : mmul (transpose Rm) V = transpose Wt).
    { transitivity (mmul (transpose Wt) Z).
      - unfold Z. rewrite <- !mmul_assoc, HW, mmul_eye_l. reflexivity.
      - rewrite Zid, mmul_eye_r. reflexivity. }
    assert (E2 : V = mmul Rm (transpose Wt)).
    { rewrite <- E1, <- mmul_assoc, HRt, mmul_eye_l. reflexivity. }
    rewrite E2, mmul_assoc, HW, mmul_eye_r. reflexivity.
  - transitivity (trace (mmul Z S)).
    + rewrite Zid, mmul_eye_l. unfold S. mat_unfold. ring.
    + rewrite EZ, trace_mmul_comm, <- mmul_assoc, HW, mmul_eye_l. reflexivity.
Qed.

(** X1: when P is the image of Q under a proper rigid motion
    [q |-> Rm . q + t], the weights are non-negative with positive sum and
    the singular values that [np.linalg.svd] returns are all positive,
    [kabsch_weighted(P, Q, W)] returns that rotation and translation with
    RMSD 0: the returned pair maps the second argument onto the first,
    [Q . U^T + V = P], and [kabsch_weighted_fit(Q, P, W)], which calls
    [kabsch_weighted(P, Q, W)], returns P. *)
Theorem kabsch_weighted_maps_second_onto_first :
  forall (svd : svd_routine) (Q : points) (W : option (list R)) (Rm : mat3) (t : vec3),
  let P := map (rigid Rm t) Q in
  let w := default_weights P W in
  let iw := 3 / total (weights3 w) in
  let C := weighted_C P Q w iw in
  orthogonal Rm -> det Rm = 1 ->
  length w = length Q -> Forall (fun x => 0 <= x) w -> 0 < rsum w ->
  is_svd C (svd C) -> 0 < vcomp (snd (fst (svd C))) 2 ->
  kabsch_weighted svd P Q W = Ok (Rm, t, 0) /\
  map (fun q => vadd (vecmat q (transpose Rm)) t) Q = P /\
  kabsch_weighted_fit svd Q P W = Ok (P, 0).
Proof.
  intros svd Q W Rm t P w iw C HR Hdet Hlen Hw Hs Hsvd Hpos.
  assert (Eiw : iw = / rsum w) by (apply inverse_weight; lra).
  assert (Hiw : iw * rsum w = 1) by (rewrite Eiw; field; lra).
  assert (HP : map (fun q => vadd (vecmat q (transpose Rm)) t) Q = P).
  { unfold P. apply map_ext. intros q. rewrite vecmat_transpose. reflexivity. }
  assert (HK : kabsch_weighted svd P Q W = Ok (Rm, t, 0)).
  { unfold kabsch_weighted, kabsch_weighted_body. fold w.
    assert (LP : length P = length Q) by (unfold P; apply length_map).
    rewrite LP, Hlen, !Nat.eqb_refl. cbn [andb negb].
    rewrite np_div_ok by (rewrite total_weights3; lra). fold iw. cbn [bind].
    unfold kabsch_weighted_core. fold C.
    assert (EC : C = mmul Rm (weighted_C Q Q w iw)).
    { unfold C, P. apply rigid_weighted_C; assumption. }
    destruct (svd C) as [[V Sv] Wt] eqn:Esvd. cbn [fst snd] in Hpos.
    destruct Sv as [[s0 s1] s2]. cbn [vcomp] in Hpos.
    destruct Hsvd as (HV & HW & (Hs2 & Hs21 & Hs10) & HC).
    destruct (svd_of_rotated Rm (weighted_C Q Q w iw) V s0 s1 s2 Wt) as (EU & Etr); auto; try lra.
    { apply weighted_C_symmetric. }
    { rewrite Eiw. apply weighted_C_psd; assumption. }
    { rewrite <- EC. exact HC. }
    match goal with |- context [sign_fix ?x] => assert (Hfix : sign_fix x = x) end.
    { unfold sign_fix. rewrite <- det_mmul, EU, Hdet.
      destruct (Rlt_dec 1 0); [lra | reflexivity]. }
    rewrite Hfix. cbv iota beta. rewrite EU.
    assert (Emsd : (weighted_sq P (weights3 w)
                    - vtotal (vmul (weighted_sum P (weights3 w)) (weighted_sum P (weights3 w))) * iw
                    + (weighted_sq Q (weights3 w)
                       - vtotal (vmul (weighted_sum Q (weights3 w))
                                      (weighted_sum Q (weights3 w))) * iw)) * iw
                   - 2 * vtotal (s0, s1, s2) = 0).
    { unfold P. rewrite rigid_centered_sq by assumption.
      rewrite trace_weighted_C in Etr. unfold vtotal at 3. lra. }
    rewrite Emsd.
    assert (Ec : clamp0 0 = 0) by (apply clamp0_id; lra).
    rewrite Ec, np_sqrt_ok by lra. rewrite sqrt_0. cbn [bind].
    assert (Et : vscale iw (vsub (weighted_sum P (weights3 w))
                                 (matvec Rm (weighted_sum Q (weights3 w)))) = t).
    { unfold P. rewrite rigid_sum by exact Hlen.
      assert (Es : rsum w = / iw).
      { rewrite Eiw. rewrite Rinv_inv. reflexivity. }
      rewrite Es. generalize (matvec Rm (weighted_sum Q (weights3 w))). intros z.
      assert (Hne : iw <> 0) by (intros E; rewrite E in Hiw; lra).
      clear - Hne. destruct z as [[? ?] ?], t as [[? ?] ?].
      unfold vscale, vsub, vadd. tuple_eq; field; assumption. }
    rewrite Et. reflexivity. }
  split; [exact HK |]. split; [exact HP |].
  unfold kabsch_weighted_fit. rewrite HK. cbn [bind]. rewrite HP. reflexivity.
Qed.

Lemma kabsch_weighted_maps_second_onto_first_witness :
  let P := map (rigid quarter_turn (1, 2, 3)) octa_Q in
  kabsch_weighted octa_svd P octa_Q None = Ok (quarter_turn, (1, 2, 3), 0) /\
  map (fun q => vadd (vecmat q (transpose quarter_turn)) (1, 2, 3)) octa_Q = P /\
  kabsch_weighted_fit octa_svd octa_Q P None = Ok (P, 0).
Proof.
  apply (kabsch_weighted_maps_second_onto_first octa_svd octa_Q None quarter_turn (1, 2, 3)).
  - unfold orthogonal, quarter_turn. mat_unfold. tuple_eq; ring.
  - unfold quarter_turn. mat_unfold. ring.
  - reflexivity.
  - simpl. repeat constructor; lra.
  - simpl. lra.
  - unfold is_svd, octa_svd, orthogonal, quarter_turn. repeat split; try lra.
    + mat_unfold. tuple_eq; ring.
    + mat_unfold. tuple_eq; ring.
    + unfold weighted_C, weighted_cov, weighted_sum, weights3, total, rigid, octa_Q.
      simpl. mat_unfold. tuple_eq; field.
  - simpl. lra.
Defined.

(** ** rmsd as a distance *)

Lemma total_squares_cons : forall d (diff : points),
  total (map (fun x => vmul x x) (d :: diff))
  = vdot d d + total (map (fun x => vmul x x) diff).
Proof.
  intros d diff. unfold total. cbn [map vsum fold_right].
  rewrite vtotal_vadd. reflexivity.
Qed.

Lemma vdot_self_nonneg : forall v, 0 <= vdot v v.
Proof.
  intros [[x y] z]. unfold vdot, vmul, vtotal.
  pose proof (Rle_0_sqr x). pose proof (Rle_0_sqr y). pose proof (Rle_0_sqr z).
  unfold Rsqr in *. lra.
Qed.

Lemma vdot_self_eq_zero : forall v, vdot v v = 0 -> v = vzero.
Proof.
  intros [[x y] z] H. unfold vdot, vmul, vtotal in H.
  pose proof (Rle_0_sqr x). pose proof (Rle_0_sqr y). pose proof (Rle_0_sqr z).
  unfold Rsqr in *.
  assert (x * x = 0) by lra. assert (y * y = 0) by lra. assert (z * z = 0) by lra.
  unfold vzero. tuple_eq; apply Rsqr_0_uniq; assumption.
Qed.

Lemma total_squares_zero : forall diff : points,
  total (map (fun x => vmul x x) diff) = 0 -> Forall (fun d => d = vzero) diff.
Proof.
  induction diff as [| d diff IH]; intros H; [constructor |].
  rewrite total_squares_cons in H.
  pose proof (vdot_self_nonneg d). pose proof (total_squares_nonneg diff).
  constructor.
  - apply vdot_self_eq_zero. lra.
  - apply IH. lra.
Qed.

Lemma map2_vsub_zero : forall V W : points, length V = length W ->
  Forall (fun d => d = vzero) (map2 vsub V W) -> V = W.
Proof.
  induction V as [| v V IH]; intros [| w W] Hlen H; try discriminate; [reflexivity |].
  cbn [map2] in H. inversion H as [| ? ? Hd Hr]; subst.
  f_equal.
  - destruct v as [[? ?] ?], w as [[? ?] ?]. unfold vsub, vzero in Hd.
    injection Hd as ? ? ?. tuple_eq; lra.
  - apply IH; [simpl in Hlen; lia | exact Hr].
Qed.

Lemma map2_vsub_self : forall V : points,
  total (map (fun x => vmul x x) (map2 vsub V V)) = 0.
Proof.
  induction V as [| v V IH]; [unfold total; simpl; unfold vtotal, vzero; simpl; lra |].
  cbn [map2]. rewrite total_squares_cons, IH.
  destruct v as [[? ?] ?]. unfold vdot, vmul, vsub, vtotal. ring.
Qed.

Lemma rmsd_value : forall V W : points, V <> [] -> length V = length W ->
  rmsd V W
  = Ok (sqrt (total (map (fun d => vmul d d) (map2 vsub V W)) / INR (length V))).
Proof.
  intros V W Hne Hlen. unfold rmsd, broadcast2.
  rewrite Hlen, Nat.eqb_refl. rewrite <- Hlen. cbn [bind].
  assert (0 < INR (length V)).
  { apply lt_0_INR. destruct V; [contradiction | simpl; lia]. }
  rewrite np_div_ok by lra. cbn [bind]. rewrite np_sqrt_ok; [reflexivity |].
  apply Rmult_le_pos; [apply total_squares_nonneg |].
  apply Rlt_le, Rinv_0_lt_compat. assumption.
Qed.

(** X2: on two non-empty arrays of the same length, [rmsd] returns 0
    exactly when the two arrays are equal. *)
Theorem rmsd_zero_iff : forall V W : points, V <> [] -> length V = length W ->
  (rmsd V W = Ok 0 <-> V = W).
Proof.
  intros V W Hne Hlen. rewrite rmsd_value by assumption.
  assert (HN : 0 < INR (length V)).
  { apply lt_0_INR. destruct V; [contradiction | simpl; lia]. }
  pose proof (total_squares_nonneg (map2 vsub V W)) as Hnn.
  split.
  - intros H. injection H as H.
    apply sqrt_eq_0 in H.
    + apply map2_vsub_zero; [exact Hlen |]. apply total_squares_zero.
      unfold Rdiv in H. apply Rmult_integral in H. destruct H as [H | H]; [exact H |].
      pose proof (Rinv_0_lt_compat _ HN). lra.
    + apply Rmult_le_pos; [exact Hnn |]. apply Rlt_le, Rinv_0_lt_compat. exact HN.
  - intros <-. rewrite map2_vsub_self. f_equal.
    unfold Rdiv. rewrite Rmult_0_l. apply sqrt_0.
Qed.

Lemma rmsd_zero_iff_witness :
  rmsd [(1, 2, 3); (4, 5, 6)] [(1, 2, 3); (4, 5, 6)] = Ok 0
  <-> [(1, 2, 3); (4, 5, 6)] = [(1, 2, 3); (4, 5, 6)].
Proof.
  apply (rmsd_zero_iff [(1, 2, 3); (4, 5, 6)] [(1, 2, 3); (4, 5, 6)]).
  - discriminate.
  - reflexivity.
Defined.

Lemma total_squares_swap : forall V W : points,
  total (map (fun d => vmul d d) (map2 vsub V W))
  = total (map (fun d => vmul d d) (map2 vsub W V)).
Proof.
  induction V as [| v V IH]; intros [| w W]; try reflexivity.
  cbn [map2]. rewrite !total_squares_cons, IH. f_equal.
  destruct v as [[? ?] ?], w as [[? ?] ?]. unfold vdot, vmul, vsub, vtotal. ring.
Qed.

(** X3: [rmsd] is symmetric on arrays of the same length (the divisor is
    [len(V)], the length of the first argument). *)
Theorem rmsd_symmetric : forall V W : points, length V = length W ->
  rmsd V W = rmsd W V.
Proof.
  intros V W Hlen. unfold rmsd, broadcast2.
  rewrite Hlen, Nat.eqb_refl. cbn [bind]. rewrite <- Hlen, total_squares_swap.
  reflexivity.
Qed.

Lemma rmsd_symmetric_witness :
  rmsd [(1, 2, 3); (4, 5, 6)] [(0, 0, 0); (1, 1, 1)]
  = rmsd [(0, 0, 0); (1, 1, 1)] [(1, 2, 3); (4, 5, 6)].
Proof.
  apply (rmsd_symmetric [(1, 2, 3); (4, 5, 6)] [(0, 0, 0); (1, 1, 1)]).
  reflexivity.
Defined.

(** ** centroid and centring *)

Lemma centroid_value : forall X : points, X <> [] ->
  centroid X = Ok (vscale (/ INR (length X)) (vsum X)).
Proof.
  intros X Hne. unfold centroid.
  assert (HN : INR (length X) <> 0).
  { apply not_0_INR. destruct X; [contradiction | discriminate]. }
  destruct (vsum X) as [[s0 s1] s2].
  rewrite !np_div_ok by exact HN. cbn [bind]. unfold vscale.
  apply f_equal. tuple_eq; field; exact HN.
Qed.

Lemma vsum_map_vsub : forall (X : points) c,
  vsum (map (fun x => vsub x c) X) = vsub (vsum X) (vscale (INR (length X)) c).
Proof.
  intros X c. induction X as [| x X IH].
  - simpl. destruct c as [[? ?] ?]. unfold vzero, vsub, vscale. tuple_eq; ring.
  - cbn [map vsum fold_right length]. fold (vsum (map (fun x => vsub x c) X)).
    fold (vsum X). rewrite IH, S_INR.
    destruct x as [[? ?] ?], c as [[? ?] ?], (vsum X) as [[? ?] ?].
    unfold vadd, vsub, vscale. tuple_eq; ring.
Qed.

Lemma vsum_map_vadd : forall (X : points) a,
  vsum (map (fun x => vadd x a) X) = vadd (vsum X) (vscale (INR (length X)) a).
Proof.
  intros X a. induction X as [| x X IH].
  - simpl. destruct a as [[? ?] ?]. unfold vzero, vadd, vscale. tuple_eq; ring.
  - cbn [map vsum fold_right length]. fold (vsum (map (fun x => vadd x a) X)).
    fold (vsum X). rewrite IH, S_INR.
    destruct x as [[? ?] ?], a as [[? ?] ?], (vsum X) as [[? ?] ?].
    unfold vadd, vscale. tuple_eq; ring.
Qed.

(** X4: the mean of an empty array is [nan] and of no other; after
    [X - centroid(X)] a non-empty array has its centroid at the origin. *)
Theorem centroid_center_origin : forall X : points,
  (centroid X = Nan <-> X = []) /\
  (X <> [] -> centroid (center X) = Ok vzero).
Proof.
  intros X. split.
  - split.
    + intros H. destruct X as [| x X]; [reflexivity |].
      rewrite centroid_value in H by discriminate. discriminate.
    + intros ->. unfold centroid. simpl. rewrite np_div_zero. reflexivity.
  - intros Hne. unfold center. rewrite (centroid_value X Hne).
    assert (HN : INR (length X) <> 0).
    { apply not_0_INR. destruct X; [contradiction | discriminate]. }
    rewrite centroid_value by (destruct X; [contradiction | discriminate]).
    rewrite length_map, vsum_map_vsub. apply f_equal.
    destruct (vsum X) as [[? ?] ?]. unfold vscale, vsub, vzero.
    tuple_eq; field; exact HN.
Qed.

Lemma centroid_center_origin_witness :
  (centroid [(1, 2, 3); (3, 4, 5)] = Nan <-> [(1, 2, 3); (3, 4, 5)] = @nil vec3) /\
  (([(1, 2, 3); (3, 4, 5)] : points) <> [] ->
   centroid (center [(1, 2, 3); (3, 4, 5)]) = Ok vzero).
Proof.
  apply (centroid_center_origin [(1, 2, 3); (3, 4, 5)]).
Defined.

Lemma center_shift : forall (X : points) a, center (map (fun x => vadd x a) X) = center X.
Proof.
  intros X a. destruct X as [| x0 X0]; [reflexivity |].
  set (X := x0 :: X0). assert (Hne : X <> []) by discriminate.
  unfold center. rewrite (centroid_value X Hne).
  rewrite centroid_value by discriminate.
  rewrite length_map, vsum_map_vadd, map_map.
  assert (HN : INR (length X) <> 0) by (apply not_0_INR; discriminate).
  apply map_ext. intros x.
  destruct x as [[? ?] ?], a as [[? ?] ?], (vsum X) as [[? ?] ?].
  unfold vadd, vsub, vscale. tuple_eq; field; exact HN.
Qed.

(** X5: with [translate=True], [kabsch_rmsd] does not depend on where the
    two point sets are: shifting P by a and Q by b leaves the result
    unchanged, whatever [np.linalg.svd] returns and with or without
    weights. *)
Theorem kabsch_rmsd_translation_invariant :
  forall (svd : svd_routine) (P Q : points) (W : option (list R)) (a b : vec3),
  kabsch_rmsd svd (map (fun p => vadd p a) P) (map (fun q => vadd q b) Q) W true
  = kabsch_rmsd svd P Q W true.
Proof.
  intros svd P Q W a b. unfold kabsch_rmsd. rewrite !center_shift. reflexivity.
Qed.

(** X6: the outcomes of [kabsch_rmsd] without weights: a [ValueError] when
    the two arrays have different lengths, [nan] on two empty arrays, and
    a non-negative number otherwise. *)
Theorem kabsch_rmsd_outcome : forall (svd : svd_routine) (P Q : points) (translate : bool),
  let res := kabsch_rmsd svd P Q None translate in
  if negb (Nat.eqb (length P) (length Q)) then res = Raise ValueError
  else if Nat.eqb (length P) 0 then res = Nan
  else exists r, res = Ok r /\ 0 <= r.
Proof.
  intros svd P Q translate res. subst res. unfold kabsch_rmsd.
  set (P' := if translate then center P else P).
  set (Q' := if translate then center Q else Q).
  assert (LP : length P' = length P).
  { unfold P', center. destruct translate; [| reflexivity].
    destruct (centroid P); try reflexivity. apply length_map. }
  assert (LQ : length Q' = length Q).
  { unfold Q', center. destruct translate; [| reflexivity].
    destruct (centroid Q); try reflexivity. apply length_map. }
  rewrite <- LP, <- LQ. clearbody P' Q'. clear LP LQ.
  unfold kabsch_rotate.
  destruct (Nat.eqb_spec (length P') (length Q')) as [E | E]; cbn [negb].
  - destruct (kabsch_ok svd P' Q' E) as (U & ->). cbn [bind].
    destruct (Nat.eqb_spec (length P') 0) as [Z | Z].
    + destruct P'; [| discriminate]. destruct Q'; [| discriminate].
      unfold rmsd, broadcast2. simpl. rewrite np_div_zero. reflexivity.
    + apply rmsd_ok.
      * destruct P'; [contradiction | discriminate].
      * rewrite length_map. exact E.
  - unfold kabsch, covariance. apply Nat.eqb_neq in E. rewrite E. reflexivity.
Qed.

(** ** kabsch on a rotated copy *)

Lemma rmsd_self : forall V : points, V <> [] -> rmsd V V = Ok 0.
Proof.
  intros V Hne. rewrite rmsd_value by auto. rewrite map2_vsub_self.
  f_equal. unfold Rdiv. rewrite Rmult_0_l. apply sqrt_0.
Qed.

Lemma covariance_rotated : forall Rm (P : points),
  msum (map2 outer P (map (fun p => vecmat p Rm) P))
  = mmul (msum (map2 outer P P)) Rm.
Proof.
  intros Rm. induction P as [| p P IH].
  - simpl. destruct Rm as [[[[? ?] ?] [[? ?] ?]] [[? ?] ?]]. mat_unfold. tuple_eq; ring.
  - cbn [map map2 msum fold_right].
    fold (msum (map2 outer P (map (fun p => vecmat p Rm) P))).
    fold (msum (map2 outer P P)). rewrite IH.
    generalize (msum (map2 outer P P)). clear IH. intros M.
    destruct p as [[? ?] ?]. split_vec. mat_unfold. tuple_eq; ring.
Qed.

Lemma gram_symmetric : forall P : points, symmetric (msum (map2 outer P P)).
Proof.
  unfold symmetric. induction P as [| p P IH].
  - simpl. mat_unfold. reflexivity.
  - cbn [map2 msum fold_right]. fold (msum (map2 outer P P)).
    assert (L : forall A B, transpose (madd A B) = madd (transpose A) (transpose B)) by mat_ring.
    rewrite L, IH. f_equal. destruct p as [[? ?] ?]. mat_unfold. tuple_eq; ring.
Qed.

Lemma gram_psd : forall P : points, positive_semidefinite (msum (map2 outer P P)).
Proof.
  intros P x. induction P as [| p P IH].
  - simpl. destruct x as [[? ?] ?]. unfold qform. mat_unfold. lra.
  - cbn [map2 msum fold_right]. fold (msum (map2 outer P P)).
    revert IH. generalize (msum (map2 outer P P)). intros M IH.
    assert (E : qform (madd (outer p p) M) x = vdot p x * vdot p x + qform M x).
    { destruct p as [[? ?] ?], x as [[? ?] ?]. split_vec. unfold qform. mat_unfold. ring. }
    rewrite E. pose proof (Rle_0_sqr (vdot p x)) as S. unfold Rsqr in S. lra.
Qed.

(** X7: [kabsch] recovers a rotation.  When Q is P turned by a proper
    rotation, [Q = P . Rm], and the singular values that [np.linalg.svd]
    returns for [P^T . Q] are all positive, [kabsch(P, Q)] returns Rm,
    [kabsch_rotate(P, Q)] returns Q, and [kabsch_rmsd(P, Q)] is 0. *)
Theorem kabsch_recovers_rotation : forall (svd : svd_routine) (P : points) (Rm : mat3),
  let Q := map (fun p => vecmat p Rm) P in
  let C := msum (map2 outer P Q) in
  orthogonal Rm -> det Rm = 1 ->
  is_svd C (svd C) -> 0 < vcomp (snd (fst (svd C))) 2 ->
  kabsch svd P Q = Ok Rm /\
  kabsch_rotate svd P Q = Ok Q /\
  kabsch_rmsd svd P Q None false = Ok 0.
Proof.
  intros svd P Rm Q C HR Hdet Hsvd Hpos.
  set (M := msum (map2 outer P P)).
  assert (EC : C = mmul M Rm) by (unfold C, Q, M; apply covariance_rotated).
  assert (LQ : length P = length Q) by (unfold Q; rewrite length_map; reflexivity).
  assert (HK : kabsch svd P Q = Ok Rm /\ P <> []).
  { unfold kabsch, covariance. rewrite LQ, Nat.eqb_refl. cbn [bind]. fold C.
    destruct (svd C) as [[V Sv] Wt] eqn:Esvd. cbn [fst snd] in Hpos.
    destruct Sv as [[s0 s1] s2]. cbn [vcomp] in Hpos.
    destruct Hsvd as (HV & HW & (Hs2 & Hs21 & Hs10) & HC).
    destruct (svd_of_rotated (transpose Rm) M (transpose Wt) s0 s1 s2 (transpose V))
      as (EU & Etr); auto using orthogonal_transpose; try lra.
    { apply gram_symmetric. }
    { apply gram_psd. }
    { pose proof (gram_symmetric P) as SM. unfold symmetric in SM. fold M in SM.
      rewrite <- SM at 1. rewrite <- transpose_mmul, <- EC, HC.
      rewrite !transpose_mmul.
      assert (D : transpose (diag (s0, s1, s2)) = diag (s0, s1, s2)) by mat_ring.
      rewrite D, mmul_assoc. reflexivity. }
    rewrite <- transpose_mmul in EU.
    apply (f_equal transpose) in EU. rewrite !transpose_involutive in EU.
    match goal with |- context [sign_fix ?x] => assert (Hfix : sign_fix x = x) end.
    { unfold sign_fix. rewrite <- det_mmul, EU, Hdet.
      destruct (Rlt_dec 1 0); [lra | reflexivity]. }
    rewrite Hfix. cbv iota beta. rewrite EU. split; [reflexivity |].
    intros EP. unfold M in Etr. rewrite EP in Etr. simpl in Etr.
    unfold mzero, vzero, trace in Etr. lra. }
  destruct HK as (HK & Hne).
  split; [exact HK |].
  assert (HRot : kabsch_rotate svd P Q = Ok Q) by (unfold kabsch_rotate; rewrite HK; reflexivity).
  split; [exact HRot |].
  unfold kabsch_rmsd. rewrite HRot. cbn [bind]. apply rmsd_self.
  unfold Q. destruct P; [contradiction | discriminate].
Qed.

Lemma kabsch_recovers_rotation_witness :
  let Q := map (fun p => vecmat p quarter_turn) octa_Q in
  kabsch octa_svd_rows octa_Q Q = Ok quarter_turn /\
  kabsch_rotate octa_svd_rows octa_Q Q = Ok Q /\
  kabsch_rmsd octa_svd_rows octa_Q Q None false = Ok 0.
Proof.
  apply (kabsch_recovers_rotation octa_svd_rows octa_Q quarter_turn).
  - unfold orthogonal, quarter_turn. mat_unfold. tuple_eq; ring.
  - unfold quarter_turn. mat_unfold. ring.
  - unfold is_svd, octa_svd_rows, orthogonal, quarter_turn. repeat split; try lra.
    + mat_unfold. tuple_eq; ring.
    + mat_unfold. tuple_eq; ring.
    + unfold octa_Q. simpl. mat_unfold. tuple_eq; ring.
  - simpl. lra.
Defined.

(** ** The translation of kabsch_weighted *)

(** X8: whatever [np.linalg.svd] returns, on inputs of equal length with
    weights of non-zero sum [kabsch_weighted(P, Q, W)] returns, and its
    rotation U and translation V carry the weighted centroid of Q to the
    weighted centroid of P: [sum_j w_j (U . q_j + V) = sum_j w_j p_j]. *)
Theorem kabsch_weighted_matches_centroids :
  forall (svd : svd_routine) (P Q : points) (W : option (list R)),
  let w := default_weights P W in
  length Q = length P -> length w = length P -> rsum w <> 0 ->
  exists U V r,
    kabsch_weighted svd P Q W = Ok (U, V, r) /\
    weighted_sum (map (fun q => vadd (vecmat q (transpose U)) V) Q) (weights3 w)
    = weighted_sum P (weights3 w).
Proof.
  intros svd P Q W w HQ Hw Hs.
  unfold kabsch_weighted, kabsch_weighted_body. fold w.
  rewrite HQ, Hw, !Nat.eqb_refl. cbn [andb negb].
  rewrite np_div_ok by (rewrite total_weights3; lra). cbn [bind].
  rewrite inverse_weight by exact Hs.
  unfold kabsch_weighted_core.
  destruct (sign_fix _) as [[V0 Sv] W'].
  rewrite np_sqrt_ok by apply clamp0_nonneg. cbn [bind].
  do 3 eexists. split; [reflexivity |].
  set (U := mmul V0 W').
  assert (E : map (fun q => vadd (vecmat q (transpose U)) (vscale (/ rsum w)
                (vsub (weighted_sum P (weights3 w)) (matvec U (weighted_sum Q (weights3 w)))))) Q
              = map (rigid U (vscale (/ rsum w)
                (vsub (weighted_sum P (weights3 w)) (matvec U (weighted_sum Q (weights3 w)))))) Q).
  { apply map_ext. intros q. unfold rigid. rewrite vecmat_transpose. reflexivity. }
  rewrite E, rigid_sum by congruence.
  generalize (matvec U (weighted_sum Q (weights3 w))) (weighted_sum P (weights3 w)).
  intros [[? ?] ?] [[? ?] ?]. unfold vadd, vsub, vscale. tuple_eq; field; exact Hs.
Qed.

Lemma kabsch_weighted_matches_centroids_witness :
  let svd : svd_routine := fun _ => (eye, (1, 0, 0), eye) in
  let P : points := [(0, 0, 0); (2, 0, 0)] in
  let Q : points := [(1, 0, 0); (1, 4, 0)] in
  let w := [1; 3] in
  exists U V r,
    kabsch_weighted svd P Q (Some w) = Ok (U, V, r) /\
    weighted_sum (map (fun q => vadd (vecmat q (transpose U)) V) Q) (weights3 w)
    = weighted_sum P (weights3 w).
Proof.
  intros svd P Q w.
  apply (kabsch_weighted_matches_centroids svd P Q (Some w)).
  - reflexivity.
  - reflexivity.
  - simpl. lra.
Defined.

(** ** Searches for a least score *)

(** A loop invariant that may mention the elements already visited. *)
Lemma for_each_prefix : forall {A St : Type} (Inv : list A -> St -> Prop)
    (body : St -> A -> outcome St),
  (forall done a s s', Inv done s -> body s a = Ok s' -> Inv (done ++ [a]) s') ->
  forall l done s s', Inv done s -> for_each l body s = Ok s' -> Inv (done ++ l) s'.
Proof.
  intros A St Inv body Hbody. induction l as [| a l IH]; intros done s s' Hs H; simpl in H.
  - injection H as <-. rewrite app_nil_r. exact Hs.
  - destruct (body s a) as [s1 | | e] eqn:E; simpl in H; try discriminate.
    replace (done ++ a :: l) with ((done ++ [a]) ++ l) by (rewrite <- app_assoc; reflexivity).
    apply (IH (done ++ [a]) s1 s'); [| exact H]. apply (Hbody done a s s1); assumption.
Qed.

Lemma brute_score_functional : forall svd A B w r r',
  brute_score svd A B w r -> brute_score svd A B w r' -> r = r'.
Proof.
  intros svd A B w r r' (Bw & E1 & E2) (Bw' & E1' & E2'). congruence.
Qed.

(** X9: [brute_permutation] returns an ordering of least Kabsch RMSD.  On
    two non-empty groups of equal size it returns a permutation v of
    [0..n), and [kabsch_rmsd(A, B[v])] is no larger than
    [kabsch_rmsd(A, B[w])] for every permutation w of [0..n). *)
Theorem brute_permutation_least : forall (svd : svd_routine) (A B : points),
  A <> [] -> length A = length B ->
  exists v r,
    brute_permutation svd A B = Ok (Some v) /\
    Permutation v (seq 0 (length A)) /\
    brute_score svd A B v r /\
    forall w r', Permutation w (seq 0 (length A)) ->
                 brute_score svd A B w r' -> r <= r'.
Proof.
  intros svd A B Hne HAB.
  destruct (brute_permutation_ok svd A B Hne HAB) as (v & Hv & Pv).
  destruct (generate_permutations_spec nat (seq 0 (length A)) (seq_NoDup _ _))
    as (orderings & E & L & N & PO).
  rewrite length_seq in E, L.
  rewrite (brute_permutation_unfold svd A B orderings E) in Hv.
  destruct (for_each orderings (brute_step svd A B) (None, None)) as [st | |] eqn:F;
    simpl in Hv; try discriminate.
  injection Hv as Hv.
  set (Inv := fun (done : list (list nat)) (st : option R * option (list nat)) =>
    match st with
    | (None, None) => forall w r, In w done -> ~ brute_score svd A B w r
    | (Some r, Some v) =>
        brute_score svd A B v r /\
        forall w r', In w done -> brute_score svd A B w r' -> r <= r'
    | _ => False
    end).
  assert (HI : Inv ([] ++ orderings) st).
  { apply (for_each_prefix Inv (brute_step svd A B)) with (s := (None, None)); [| | exact F].
    - intros done w s s' Hs Hb. unfold brute_step in Hb.
      destruct (take B w) as [Bw | |] eqn:T; cbn [bind] in Hb; try discriminate.
      destruct (kabsch_rmsd svd A Bw None false) as [r | |] eqn:K; try discriminate.
      + assert (Sw : brute_score svd A B w r) by (exists Bw; auto).
        destruct s as [[b |] [u |]]; unfold Inv in Hs; try contradiction; cbn [fst below] in Hb.
        * destruct Hs as (Su & Hmin).
          destruct (Rlt_dec r b) as [Lt | Ge]; injection Hb as <-; unfold Inv.
          -- split; [exact Sw |]. intros w' r' Hin Sw'.
             apply in_app_or in Hin. destruct Hin as [Hin | [<- | []]].
             ++ pose proof (Hmin w' r' Hin Sw'). lra.
             ++ rewrite (brute_score_functional _ _ _ _ _ _ Sw Sw'). lra.
          -- split; [exact Su |]. intros w' r' Hin Sw'.
             apply in_app_or in Hin. destruct Hin as [Hin | [<- | []]].
             ++ exact (Hmin w' r' Hin Sw').
             ++ rewrite <- (brute_score_functional _ _ _ _ _ _ Sw Sw'). lra.
        * injection Hb as <-. unfold Inv.
          split; [exact Sw |]. intros w' r' Hin Sw'.
          apply in_app_or in Hin. destruct Hin as [Hin | [<- | []]].
          -- exfalso. exact (Hs w' r' Hin Sw').
          -- rewrite (brute_score_functional _ _ _ _ _ _ Sw Sw'). lra.
      + injection Hb as <-.
        assert (Nw : forall r', ~ brute_score svd A B w r').
        { intros r' (Bw' & T' & K'). congruence. }
        destruct s as [[b |] [u |]]; unfold Inv in *; try contradiction.
        * destruct Hs as (Su & Hmin). split; [exact Su |]. intros w' r' Hin Sw'.
          apply in_app_or in Hin. destruct Hin as [Hin | [<- | []]].
          -- exact (Hmin w' r' Hin Sw').
          -- exfalso. exact (Nw r' Sw').
        * intros w' r' Hin Sw'.
          apply in_app_or in Hin. destruct Hin as [Hin | [<- | []]].
          -- exact (Hs w' r' Hin Sw').
          -- exact (Nw r' Sw').
    - unfold Inv. intros w r []. }
  simpl in HI. destruct st as [[r |] [u |]]; unfold Inv in HI; simpl in Hv;
    try contradiction; try discriminate.
  injection Hv as ->. destruct HI as (Sv & Hmin).
  exists v, r. split.
  { rewrite (brute_permutation_unfold svd A B orderings E), F. reflexivity. }
  split; [exact Pv |]. split; [exact Sv |].
  intros w r' Pw Sw. apply (Hmin w r'); [apply PO; exact Pw | exact Sw].
Qed.

Lemma brute_permutation_least_witness :
  let A : points := [(1, 0, 0); (0, 1, 0)] in
  let B : points := [(0, 1, 0); (1, 0, 0)] in
  exists v r,
    brute_permutation mirror_svd A B = Ok (Some v) /\
    Permutation v (seq 0 (length A)) /\
    brute_score mirror_svd A B v r /\
    forall w r', Permutation w (seq 0 (length A)) ->
                 brute_score mirror_svd A B w r' -> r <= r'.
Proof.
  intros A B. apply (brute_permutation_least mirror_svd A B).
  - discriminate.
  - reflexivity.
Defined.

(** ** What check_reflections returns *)




Section ReflectionSearch.

Variable reorder_method : option reorder_fn.
Variable rotation_method : option rotation_fn.
Variable keep_stereo : bool.
Variables p_atoms q_atoms : labels.
Variables p_coord q_coord : points.

Let score := candidate_rmsd reorder_method rotation_method p_atoms q_atoms p_coord q_coord.
Let body := reflection_body reorder_method rotation_method keep_stereo
                            p_atoms q_atoms p_coord q_coord.

Let passed (cand : (nat * nat * nat) * Z * ((Z * Z * Z) * Z)) : bool :=
  negb (skipped keep_stereo (snd (fst cand)) (snd (snd cand))).

(** One pass: a skipped pair leaves the three minima alone; a scored one
    replaces them when its score is strictly below the least so far. *)
Lemma reflection_body_pass : forall st cand st',
  body st cand = Ok st' ->
  (passed cand = false /\ st' = st) \/
  (passed cand = true /\
   ((exists r, score cand = Ok r /\
       if below r (min_rmsd st)
       then min_rmsd st' = Some r /\ min_swap st' = Some (fst (fst cand)) /\
            min_reflection st' = Some (fst (snd cand))
       else min_rmsd st' = min_rmsd st /\ min_swap st' = min_swap st /\
            min_reflection st' = min_reflection st) \/
    (score cand = Nan /\ min_rmsd st' = min_rmsd st /\ min_swap st' = min_swap st /\
     min_reflection st' = min_reflection st))).
Proof.
  intros st [[swap i] [reflection j]] st' H.
  unfold body, reflection_body in H. unfold passed, score, candidate_rmsd. cbn [fst snd].
  destruct (skipped keep_stereo i j); cbn [negb].
  - left. injection H as <-. auto.
  - right. split; [reflexivity |].
    set (tc := center (map (fun x => vecmat x (diag (IZR3 reflection)))
                           (map (swap_axes swap) q_coord))) in *.
    destruct reorder_method as [f |].
    + destruct (f p_atoms q_atoms p_coord tc) as [r | |]; cbn [bind] in *; try discriminate.
      destruct (take_z tc r) as [c | |]; cbn [bind] in *; try discriminate.
      destruct (take_z q_atoms r) as [a | |]; cbn [bind] in *; try discriminate.
      destruct (match rotation_method with
                | Some f0 => f0 p_coord c | None => rmsd p_coord c end) as [x | |];
        try discriminate.
      * left. exists x. split; [reflexivity |].
        destruct (below x (min_rmsd st)); injection H as <-; cbn; auto.
      * right. injection H as <-. cbn. auto.
    + cbn [bind] in *.
      destruct (match rotation_method with
                | Some f0 => f0 p_coord tc | None => rmsd p_coord tc end) as [x | |];
        try discriminate.
      * left. exists x. split; [reflexivity |].
        destruct (below x (min_rmsd st)); injection H as <-; cbn; auto.
      * right. injection H as <-. cbn. auto.
Qed.

Let Inv (done : list ((nat * nat * nat) * Z * ((Z * Z * Z) * Z))) (st : refl_state) : Prop :=
  match min_rmsd st with
  | Some r =>
      (exists cand, In cand done /\ passed cand = true /\ score cand = Ok r /\
                    min_swap st = Some (fst (fst cand)) /\
                    min_reflection st = Some (fst (snd cand))) /\
      (forall cand r', In cand done -> passed cand = true -> score cand = Ok r' -> r <= r')
  | None =>
      forall cand r', In cand done -> passed cand = true -> score cand <> Ok r'
  end.

Lemma reflection_search_invariant : forall done cand st st',
  Inv done st -> body st cand = Ok st' -> Inv (done ++ [cand]) st'.
Proof.
  intros done cand st st' HI Hb.
  destruct (reflection_body_pass st cand st' Hb)
    as [(Hp & ->) | (Hp & [(r & Hs & Hr) | (Hs & E1 & E2 & E3)])].
  - (* skipped *)
    unfold Inv in *. destruct (min_rmsd st) as [b |].
    + destruct HI as ((c0 & I0 & P0 & S0 & W0) & Hmin). split.
      * exists c0. split; [apply in_or_app; auto | auto].
      * intros c r' Hin Pc Sc. apply in_app_or in Hin. destruct Hin as [Hin | [<- | []]].
        -- exact (Hmin c r' Hin Pc Sc).
        -- congruence.
    + intros c r' Hin Pc Sc. apply in_app_or in Hin. destruct Hin as [Hin | [<- | []]].
      * exact (HI c r' Hin Pc Sc).
      * congruence.
  - (* scored *)
    unfold Inv in *. destruct (min_rmsd st) as [b |] eqn:Eb; cbn [below] in Hr.
    + destruct HI as ((c0 & I0 & P0 & S0 & W0 & W1) & Hmin).
      destruct (Rlt_dec r b) as [Lt | Ge].
      * destruct Hr as (-> & E2 & E3). split.
        -- exists cand. split; [apply in_or_app; simpl; auto | auto].
        -- intros c r' Hin Pc Sc. apply in_app_or in Hin. destruct Hin as [Hin | [<- | []]].
           ++ pose proof (Hmin c r' Hin Pc Sc). lra.
           ++ rewrite Hs in Sc. injection Sc as <-. lra.
      * destruct Hr as (-> & E2 & E3). split.
        -- exists c0. split; [apply in_or_app; auto |]. rewrite E2, E3. auto.
        -- intros c r' Hin Pc Sc. apply in_app_or in Hin. destruct Hin as [Hin | [<- | []]].
           ++ exact (Hmin c r' Hin Pc Sc).
           ++ rewrite Hs in Sc. injection Sc as <-. lra.
    + destruct Hr as (-> & E2 & E3). split.
      * exists cand. split; [apply in_or_app; simpl; auto | auto].
      * intros c r' Hin Pc Sc. apply in_app_or in Hin. destruct Hin as [Hin | [<- | []]].
        -- exfalso. exact (HI c r' Hin Pc Sc).
        -- rewrite Hs in Sc. injection Sc as <-. lra.
  - (* nan *)
    unfold Inv in *. rewrite E1. destruct (min_rmsd st) as [b |].
    + destruct HI as ((c0 & I0 & P0 & S0 & W0 & W1) & Hmin). split.
      * exists c0. split; [apply in_or_app; auto |]. rewrite E2, E3. auto.
      * intros c r' Hin Pc Sc. apply in_app_or in Hin. destruct Hin as [Hin | [<- | []]].
        -- exact (Hmin c r' Hin Pc Sc).
        -- congruence.
    + intros c r' Hin Pc Sc. apply in_app_or in Hin. destruct Hin as [Hin | [<- | []]].
      * exact (HI c r' Hin Pc Sc).
      * congruence.
Qed.

(** X11: [check_reflections] returns the least score.  When it returns
    [min_rmsd = r], some pair of a swap and a reflection that was not
    skipped has score r, it is the returned [min_swap] and
    [min_reflection], and no pair that was not skipped has a smaller
    score; when it returns [min_rmsd = inf], no pair had a score. *)
Theorem check_reflections_least : forall m sw rf review,
  check_reflections reorder_method rotation_method keep_stereo
                    p_atoms q_atoms p_coord q_coord = Ok (m, sw, rf, review) ->
  match m with
  | Some r =>
      (exists cand, In cand (evaluated keep_stereo) /\
         candidate_rmsd reorder_method rotation_method p_atoms q_atoms p_coord q_coord cand
         = Ok r /\
         sw = Some (fst (fst cand)) /\ rf = Some (fst (snd cand))) /\
      (forall cand r', In cand (evaluated keep_stereo) ->
         candidate_rmsd reorder_method rotation_method p_atoms q_atoms p_coord q_coord cand
         = Ok r' -> r <= r')
  | None =>
      forall cand r', In cand (evaluated keep_stereo) ->
        candidate_rmsd reorder_method rotation_method p_atoms q_atoms p_coord q_coord cand
        <> Ok r'
  end.
Proof.
  intros m sw rf review H. unfold check_reflections in H.
  destruct (for_each candidates _ _) as [st | |] eqn:F; simpl in H; try discriminate.
  destruct (aligned p_atoms q_atoms (min_review st)) as [[|] | |]; simpl in H; try discriminate.
  injection H as <- <- <- <-.
  assert (HI : Inv ([] ++ candidates) st).
  { apply (for_each_prefix Inv body reflection_search_invariant candidates []
             (mk_refl_state None None None None None) st); [| exact F].
    unfold Inv. cbn. intros c r' []. }
  simpl in HI. unfold Inv in HI.
  assert (Ev : forall cand, In cand (evaluated keep_stereo)
                            <-> In cand candidates /\ passed cand = true).
  { intros cand. unfold evaluated. rewrite filter_In. reflexivity. }
  destruct (min_rmsd st) as [r |].
  - destruct HI as ((c0 & I0 & P0 & S0 & W0 & W1) & Hmin). split.
    + exists c0. rewrite Ev. auto.
    + intros cand r' Hin. apply Ev in Hin. destruct Hin. apply Hmin; assumption.
  - intros cand r' Hin. apply Ev in Hin. destruct Hin. apply HI; assumption.
Qed.

End ReflectionSearch.

Lemma check_reflections_least_witness :
  (exists cand, In cand (evaluated true) /\
     candidate_rmsd None None ["H"%string] ["H"%string] [vzero] [vzero] cand = Ok 0 /\
     Some (0, 1, 2)%nat = Some (fst (fst cand)) /\
     Some (1, 1, 1)%Z = Some (fst (snd cand))) /\
  (forall cand r', In cand (evaluated true) ->
     candidate_rmsd None None ["H"%string] ["H"%string] [vzero] [vzero] cand = Ok r' ->
     0 <= r').
Proof.
  apply (check_reflections_least None None true ["H"%string] ["H"%string] [vzero] [vzero]
           (Some 0) (Some (0, 1, 2)%nat) (Some (1, 1, 1)%Z) None).
  exact check_reflections_origin.
Defined.

(** ** rotation_matrix_vectors *)

Lemma cross_norm_sq : forall a b,
  vdot (cross a b) (cross a b) = vdot a a * vdot b b - vdot a b * vdot a b.
Proof. intros [[? ?] ?] [[? ?] ?]. unfold vdot, vmul, cross, vtotal. ring. Qed.

Lemma rodrigues_divisor_value : forall v1 v2,
  rodrigues_divisor v1 v2 = vdot (cross v1 v2) (cross v1 v2).
Proof.
  intros v1 v2. unfold rodrigues_divisor, norm. apply sqrt_sqrt. apply vdot_self_nonneg.
Qed.

(** [(I + [v]x + k [v]x^2) . v1] for [v = v1 x v2]. *)
Lemma rodrigues_apply : forall v1 v2 k,
  matvec (madd (madd eye (skew (cross v1 v2)))
               (mscale k (mmul (skew (cross v1 v2)) (skew (cross v1 v2))))) v1
  = vadd (vadd v1 (vsub (vscale (vdot v1 v1) v2) (vscale (vdot v1 v2) v1)))
         (vscale (- (k * vdot (cross v1 v2) (cross v1 v2))) v1).
Proof.
  intros [[x1 y1] z1] [[x2 y2] z2] k. unfold cross, skew. mat_unfold. tuple_eq; ring.
Qed.

(** [U^T . U] and [det U] for [U = I + [v]x + k [v]x^2]. *)
Lemma rodrigues_gram : forall v k,
  let U := madd (madd eye (skew v)) (mscale k (mmul (skew v) (skew v))) in
  mmul (transpose U) U
  = madd eye (mscale (2 * k - 1 - k * k * vdot v v) (mmul (skew v) (skew v))).
Proof.
  intros [[x y] z] k. unfold skew. mat_unfold. tuple_eq; ring.
Qed.

Lemma rodrigues_det : forall v k,
  det (madd (madd eye (skew v)) (mscale k (mmul (skew v) (skew v))))
  = (1 - k * vdot v v) * (1 - k * vdot v v) + vdot v v.
Proof.
  intros [[x y] z] k. unfold skew. mat_unfold. ring.
Qed.

Lemma cross_self : forall v, cross v v = vzero.
Proof. intros [[? ?] ?]. unfold cross, vzero. tuple_eq; ring. Qed.

Lemma cross_neg : forall v, cross (vneg v) v = vzero.
Proof. intros [[? ?] ?]. unfold cross, vneg, vzero. tuple_eq; ring. Qed.

(** X12: the Rodrigues branch of [rotation_matrix_vectors] rotates v1 onto
    v2.  For two unit vectors that are not collinear the function returns
    a matrix U with [U . v1 = v2]; U is orthogonal with determinant +1, and
    as it is applied in [reorder_inertia_hungarian], to rows from the
    right, it takes v2 back to v1: [v2 . U = v1]. *)
Theorem rotation_matrix_vectors_rotates : forall v1 v2 : vec3,
  vdot v1 v1 = 1 -> vdot v2 v2 = 1 -> cross v1 v2 <> vzero ->
  exists U,
    rotation_matrix_vectors v1 v2 = Ok U /\
    matvec U v1 = v2 /\
    orthogonal U /\ det U = 1 /\
    vecmat v2 U = v1.
Proof.
  intros v1 v2 H1 H2 Hx.
  set (v := cross v1 v2) in *. set (c := vdot v1 v2).
  set (D := vdot v v).
  assert (HD : D = 1 - c * c).
  { unfold D, v. rewrite cross_norm_sq, H1, H2. unfold c. ring. }
  assert (Dpos : 0 < D) by (apply vdot_self_positive; exact Hx).
  unfold rotation_matrix_vectors, rmv_branch_of.
  destruct (vec_eq_dec v1 v2) as [E | _].
  { exfalso. apply Hx. unfold v. rewrite E. apply cross_self. }
  destruct (vec_eq_dec v1 (vneg v2)) as [E | _].
  { exfalso. apply Hx. unfold v. rewrite E. apply cross_neg. }
  rewrite rodrigues_divisor_value. fold v. fold D. fold c.
  rewrite np_div_ok by lra. cbn [bind].
  set (k := (1 - c) / D).
  assert (Hk : k * D = 1 - c) by (unfold k; field; lra).
  assert (Hc : k * (1 + c) = 1).
  { assert (N : 1 - c <> 0) by (intros Z; rewrite HD in Dpos; nra).
    apply (Rmult_eq_reg_l (1 - c)); [| exact N].
    replace ((1 - c) * (k * (1 + c))) with (k * (1 - c * c)) by ring.
    rewrite <- HD, Hk. ring. }
  set (U := madd (madd eye (skew v)) (mscale k (mmul (skew v) (skew v)))).
  assert (HU : matvec U v1 = v2).
  { unfold U, v. rewrite rodrigues_apply. fold v. fold D. fold c.
    rewrite H1, Hk.
    destruct v1 as [[? ?] ?], v2 as [[? ?] ?].
    unfold vadd, vsub, vscale. tuple_eq; ring. }
  assert (HO : orthogonal U).
  { unfold orthogonal, U. rewrite (rodrigues_gram v k). fold D.
    replace (2 * k - 1 - k * k * D) with 0.
    - generalize (mmul (skew v) (skew v)). intros M. split_vec. mat_unfold. tuple_eq; ring.
    - replace (k * k * D) with (k * (k * D)) by ring. rewrite Hk.
      replace (2 * k - 1 - k * (1 - c)) with (k * (1 + c) - 1) by ring. rewrite Hc. ring. }
  exists U. split; [reflexivity |]. split; [exact HU |]. split; [exact HO |]. split.
  - unfold U. rewrite rodrigues_det. fold D. rewrite Hk, HD. ring.
  - unfold vecmat. rewrite <- HU, <- matvec_mmul. unfold orthogonal in HO.
    rewrite HO. apply matvec_eye.
Qed.

Lemma rotation_matrix_vectors_rotates_witness :
  exists U,
    rotation_matrix_vectors (1, 0, 0) (0, 1, 0) = Ok U /\
    matvec U (1, 0, 0) = (0, 1, 0) /\
    orthogonal U /\ det U = 1 /\
    vecmat (0, 1, 0) U = (1, 0, 0).
Proof.
  apply (rotation_matrix_vectors_rotates (1, 0, 0) (0, 1, 0)).
  - unfold vdot, vmul, vtotal. ring.
  - unfold vdot, vmul, vtotal. ring.
  - unfold cross, vzero. intros H. injection H as _ _ H. lra.
Defined.

(** X13: the branch for opposite vectors returns the half turn about the
    y axis whatever the vectors are.  It is a rotation, but it takes v
    onto -v only when v has no y component. *)
Theorem rotation_matrix_vectors_opposite : forall v : vec3,
  v <> vzero ->
  exists U,
    rotation_matrix_vectors v (vneg v) = Ok U /\
    U = ((-1, 0, 0), (0, 1, 0), (0, 0, -1)) /\
    orthogonal U /\ det U = 1 /\
    (matvec U v = vneg v <-> vcomp v 1 = 0).
Proof.
  intros v Hv. exists ((-1, 0, 0), (0, 1, 0), (0, 0, -1)).
  split; [| split; [reflexivity |]].
  - unfold rotation_matrix_vectors, rmv_branch_of.
    destruct (vec_eq_dec v (vneg v)) as [E | _].
    { exfalso. apply Hv. destruct v as [[x y] z]. unfold vneg in E.
      injection E as ? ? ?. unfold vzero. tuple_eq; lra. }
    destruct (vec_eq_dec v (vneg (vneg v))) as [_ | N]; [reflexivity |].
    exfalso. apply N. destruct v as [[x y] z]. unfold vneg. tuple_eq; ring.
  - split; [unfold orthogonal; mat_unfold; tuple_eq; ring |].
    split; [mat_unfold; ring |].
    destruct v as [[x y] z]. cbn [vcomp]. mat_unfold. unfold vneg. split.
    + intros E. injection E as _ E _. lra.
    + intros ->. tuple_eq; ring.
Qed.

Lemma rotation_matrix_vectors_opposite_witness :
  exists U,
    rotation_matrix_vectors (0, 1, 0) (vneg (0, 1, 0)) = Ok U /\
    U = ((-1, 0, 0), (0, 1, 0), (0, 0, -1)) /\
    orthogonal U /\ det U = 1 /\
    (matvec U (0, 1, 0) = vneg (0, 1, 0) <-> vcomp (0, 1, 0) 1 = 0).
Proof.
  apply (rotation_matrix_vectors_opposite (0, 1, 0)).
  unfold vzero. intros H. injection H as H. lra.
Defined.

(** ** Centre of mass and tensor of inertia *)

Lemma vsum_weighted_shift : forall (ws : list R) (V : points) t,
  length ws = length V ->
  vsum (map2 vscale ws (map (fun x => vadd x t) V))
  = vadd (vsum (map2 vscale ws V)) (vscale (rsum ws) t).
Proof.
  induction ws as [| w ws IH]; intros [| x V] t H; try discriminate.
  - simpl. destruct t as [[? ?] ?]. unfold vzero, vadd, vscale, rsum. simpl. tuple_eq; ring.
  - cbn [map map2 vsum fold_right]. fold (vsum (map2 vscale ws (map (fun x => vadd x t) V))).
    fold (vsum (map2 vscale ws V)). rewrite IH by (simpl in H; lia).
    unfold rsum. cbn [fold_right]. fold (rsum ws).
    destruct x as [[? ?] ?], t as [[? ?] ?], (vsum (map2 vscale ws V)) as [[? ?] ?].
    unfold vadd, vscale. tuple_eq; ring.
Qed.

(** [get_cm] follows a translation of the coordinates. *)
Lemma get_cm_shift : forall atoms (V : points) t,
  get_cm atoms (map (fun x => vadd x t) V) = (cm <- get_cm atoms V ;; Ok (vadd cm t)).
Proof.
  intros atoms V t. unfold get_cm.
  destruct (masses atoms) as [ws | |]; cbn [bind]; try reflexivity.
  rewrite length_map.
  destruct (Nat.eqb_spec (length ws) (length V)) as [E | E]; cbn [negb]; [| reflexivity].
  destruct (Req_dec_T (rsum ws) 0) as [Z | NZ]; [reflexivity |].
  rewrite vsum_weighted_shift by exact E.
  destruct (vsum (map2 vscale ws V)) as [[s0 s1] s2], t as [[t0 t1] t2].
  unfold vadd, vscale. cbn [bind]. apply f_equal. tuple_eq; field; exact NZ.
Qed.

Lemma get_cm_known : forall (atoms : list string) (V : points),
  Forall known_label atoms -> length atoms = length V -> atoms <> [] ->
  exists ws cm, masses atoms = Ok ws /\ get_cm atoms V = Ok cm /\
                vscale (rsum ws) cm = vsum (map2 vscale ws V).
Proof.
  intros atoms V H L Hne. unfold get_cm. destruct (masses_known atoms H) as (ws & -> & Lw & P).
  cbn [bind]. rewrite Lw, L, Nat.eqb_refl. cbn [negb].
  assert (S : 0 < rsum ws).
  { apply rsum_positive; [| exact P]. intros ->. destruct atoms; [contradiction | discriminate]. }
  destruct (Req_dec_T (rsum ws) 0) as [Z | NZ]; [lra |].
  exists ws. destruct (vsum (map2 vscale ws V)) as [[s0 s1] s2].
  eexists. split; [reflexivity |]. split; [reflexivity |].
  mat_unfold. tuple_eq; field; exact NZ.
Qed.

(** X14: the outcomes of [get_cm]: a [KeyError] when some label is not an
    element symbol of [ELEMENTS_WEIGHTS] (in any letter case), a
    [ValueError] when there are not as many labels as rows, a
    [ZeroDivisionError] on empty input, and otherwise the mass-weighted
    mean of the rows. *)
Theorem get_cm_outcome : forall (atoms : list string) (V : points),
  (~ Forall known_label atoms -> get_cm atoms V = Raise KeyError) /\
  (Forall known_label atoms -> length atoms <> length V ->
   get_cm atoms V = Raise ValueError) /\
  (atoms = [] -> V = [] -> get_cm atoms V = Raise ZeroDivisionError) /\
  (Forall known_label atoms -> length atoms = length V -> atoms <> [] ->
   exists ws cm, masses atoms = Ok ws /\ get_cm atoms V = Ok cm /\
                 vscale (rsum ws) cm = vsum (map2 vscale ws V)).
Proof.
  intros atoms V. repeat split.
  - intros H. unfold get_cm. rewrite (masses_unknown atoms H). reflexivity.
  - intros H L. unfold get_cm. destruct (masses_known atoms H) as (ws & -> & Lw & _).
    cbn [bind]. rewrite Lw. apply Nat.eqb_neq in L. rewrite L. reflexivity.
  - intros -> ->. unfold get_cm. simpl.
    destruct (Req_dec_T 0 0) as [_ | N]; [reflexivity |].
    exfalso. apply N. reflexivity.
  - apply get_cm_known.
Qed.

Lemma get_cm_outcome_witness :
  let atoms := ["C"%string; "h"%string] in
  let V : points := [(0, 0, 0); (1, 0, 0)] in
  (~ Forall known_label atoms -> get_cm atoms V = Raise KeyError) /\
  (Forall known_label atoms -> length atoms <> length V ->
   get_cm atoms V = Raise ValueError) /\
  (atoms = [] -> V = [] -> get_cm atoms V = Raise ZeroDivisionError) /\
  (Forall known_label atoms -> length atoms = length V -> atoms <> [] ->
   exists ws cm, masses atoms = Ok ws /\ get_cm atoms V = Ok cm /\
                 vscale (rsum ws) cm = vsum (map2 vscale ws V)).
Proof.
  intros atoms V. apply (get_cm_outcome atoms V).
Defined.

(** X15: the tensor of inertia does not depend on where the molecule is:
    [get_inertia_tensor(atoms, V + t) = get_inertia_tensor(atoms, V)] for
    every translation t, errors included. *)
Theorem get_inertia_tensor_translation_invariant :
  forall (atoms : list string) (V : points) (t : vec3),
  get_inertia_tensor atoms (map (fun x => vadd x t) V) = get_inertia_tensor atoms V.
Proof.
  intros atoms V t. unfold get_inertia_tensor. rewrite get_cm_shift.
  destruct (get_cm atoms V) as [cm | |]; cbn [bind]; try reflexivity.
  rewrite map_map.
  replace (map (fun x => vsub (vadd x t) (vadd cm t)) V) with (map (fun x => vsub x cm) V);
    [reflexivity |].
  apply map_ext. intros [[? ?] ?]. destruct cm as [[? ?] ?], t as [[? ?] ?].
  unfold vsub, vadd. tuple_eq; ring.
Qed.

(** The matrix [get_inertia_tensor] builds from its six accumulators. *)
Lemma inertia_step_qform : forall Ixx Iyy Izz Ixy Ixz Iyz m a x,
  let tensor := fun acc : inertia_acc =>
    let '(Ixx, Iyy, Izz, Ixy, Ixz, Iyz) := acc in
    ((Ixx, Ixy, Ixz), (Ixy, Iyy, Iyz), (Ixz, Iyz, Izz)) in
  qform (tensor (inertia_step (Ixx, Iyy, Izz, Ixy, Ixz, Iyz) m a)) x
  = qform (tensor (Ixx, Iyy, Izz, Ixy, Ixz, Iyz)) x
    + m * vdot (cross a x) (cross a x).
Proof.
  intros Ixx Iyy Izz Ixy Ixz Iyz m [[a0 a1] a2] [[x0 x1] x2] tensor.
  unfold tensor, inertia_step, qform, cross. mat_unfold. ring.
Qed.

Lemma inertia_loop_psd : forall atoms (CV : points) acc acc' x,
  Forall known_label atoms ->
  inertia_loop acc atoms CV = Ok acc' ->
  let tensor := fun acc : inertia_acc =>
    let '(Ixx, Iyy, Izz, Ixy, Ixz, Iyz) := acc in
    ((Ixx, Ixy, Ixz), (Ixy, Iyy, Iyz), (Ixz, Iyz, Izz)) in
  0 <= qform (tensor acc) x -> 0 <= qform (tensor acc') x.
Proof.
  intros atoms CV acc acc' x H. revert CV acc.
  induction H as [| a atoms (m & Hm) _ IH]; intros CV acc E tensor Hacc.
  - simpl in E. injection E as <-. exact Hacc.
  - cbn [inertia_loop] in E. destruct CV as [| p CV].
    + injection E as <-. exact Hacc.
    + rewrite Hm in E. cbn [bind] in E.
      apply (IH CV (inertia_step acc m p) E).
      destruct acc as [[[[[Ixx Iyy] Izz] Ixy] Ixz] Iyz].
      rewrite (inertia_step_qform Ixx Iyy Izz Ixy Ixz Iyz m p x).
      assert (Mp : 0 < m) by (eapply lookup_positive; eauto using weights_positive).
      pose proof (vdot_self_nonneg (cross p x)) as N.
      pose proof (Rmult_le_pos m _ (Rlt_le _ _ Mp) N).
      unfold tensor in Hacc. lra.
Qed.

(** X16: for a non-empty molecule of known elements with a coordinate row
    for every label, [get_inertia_tensor] returns a symmetric positive
    semidefinite matrix. *)
Theorem get_inertia_tensor_psd : forall (atoms : list string) (V : points),
  atoms <> [] -> Forall known_label atoms -> length V = length atoms ->
  exists I, get_inertia_tensor atoms V = Ok I /\
            symmetric I /\ positive_semidefinite I.
Proof.
  intros atoms V Hne Hk Hlen. unfold get_inertia_tensor.
  destruct (get_cm_known atoms V Hk (eq_sym Hlen) Hne) as (ws & cm & _ & -> & _).
  cbn [bind].
  destruct (inertia_loop_known atoms (map (fun x => vsub x cm) V) (0, 0, 0, 0, 0, 0) Hk)
    as (acc' & E).
  rewrite E. cbn [bind].
  pose proof (fun x => inertia_loop_psd atoms _ _ acc' x Hk E) as P. cbv zeta in P.
  destruct acc' as [[[[[Ixx Iyy] Izz] Ixy] Ixz] Iyz].
  eexists. split; [reflexivity |]. split.
  - unfold symmetric. mat_unfold. reflexivity.
  - intros x. apply P. destruct x as [[? ?] ?]. unfold qform. mat_unfold. lra.
Qed.

Lemma get_inertia_tensor_psd_witness :
  exists I, get_inertia_tensor ["O"%string; "H"%string] [(0, 0, 0); (1, 0, 0)] = Ok I /\
            symmetric I /\ positive_semidefinite I.
Proof.
  apply (get_inertia_tensor_psd ["O"%string; "H"%string] [(0, 0, 0); (1, 0, 0)]).
  - discriminate.
  - repeat constructor; eexists; reflexivity.
  - reflexivity.
Defined.

(** ** generate_permutations with n other than the length *)

Lemma heap_turns_mono : forall m n, (m <= n)%nat -> (heap_turns m <= heap_turns n)%nat.
Proof.
  intros m n H. induction H as [| n H IH]; [lia |].
  cbn [heap_turns]. nia.
Qed.

Lemma swap_out_of_range : forall {A : Type} (l : list A) a b,
  (length l <= b)%nat -> swap l a b = None.
Proof.
  intros A l a b H. unfold swap.
  destruct (nth_error l a); [| reflexivity].
  assert (E : nth_error l b = None) by (apply nth_error_None; exact H).
  rewrite E. reflexivity.
Qed.

(** X17: with [n] larger than the number of elements, the generator
    yields what it yields for [n = len(elements)], every arrangement,
    and then fails with an [IndexError] in the swap at index
    [len(elements)] instead of finishing. *)
Theorem generate_permutations_beyond : forall (A : Type) (elements : list A) (n : nat),
  elements <> [] -> (length elements < n)%nat ->
  generate_permutations elements n
  = (fst (generate_permutations elements (length elements)), GenRaise IndexError).
Proof.
  intros A elements n Hne Hn.
  set (m := length elements) in *.
  assert (Hm : (1 <= m)%nat) by (unfold m; destruct elements; [contradiction | simpl; lia]).
  rewrite (generate_permutations_rec A elements m) by (unfold m; lia). cbn [fst].
  unfold generate_permutations.
  pose proof (heap_turns_mono m n ltac:(lia)) as Mono.
  replace (S (heap_turns n))
    with (heap_turns m + S (heap_turns n - heap_turns m))%nat by lia.
  rewrite (heap_loop_level A m n (repeat 0%nat n) elements).
  - set (l' := snd (heap_rec m elements)).
    assert (L : length l' = m) by (unfold l'; apply heap_rec_length).
    cbn [heap_loop].
    destruct (Nat.ltb_spec m n) as [_ | Bad]; [| lia].
    rewrite nth_repeat.
    destruct (Nat.ltb_spec 0 m) as [_ | Bad]; [| lia].
    assert (S1 : swap l' 0 m = None) by (apply swap_out_of_range; lia).
    destruct (Nat.even m); rewrite S1; unfold prepend; cbn [fst snd];
      rewrite app_nil_r; reflexivity.
  - lia.
  - unfold m. lia.
  - apply repeat_length.
  - intros j _. apply nth_repeat.
Qed.

Lemma generate_permutations_beyond_witness :
  generate_permutations [1; 2]%nat 5
  = (fst (generate_permutations [1; 2]%nat (length [1; 2]%nat)), GenRaise IndexError).
Proof.
  apply (generate_permutations_beyond nat [1; 2]%nat 5).
  - discriminate.
  - simpl. lia.
Defined.

Lemma NoDup_map_on : forall {A B : Type} (f : A -> B) (l : list A),
  NoDup l -> (forall x y, In x l -> In y l -> f x = f y -> x = y) -> NoDup (map f l).
Proof.
  intros A B f l H. induction H as [| x l Hx H IH]; intros Hinj; simpl; constructor.
  - intros Hin. apply in_map_iff in Hin. destruct Hin as (y & E & Hy).
    assert (y = x) by (apply Hinj; simpl; auto). subst. contradiction.
  - apply IH. intros a b Ha Hb. apply Hinj; simpl; auto.
Qed.

Lemma skipn_agree : forall {A : Type} (d : A) n (o l : list A),
  length o = length l ->
  (forall p, (n <= p)%nat -> nth p o d = nth p l d) ->
  skipn n o = skipn n l.
Proof.
  intros A d n o l Hlen H. apply nth_error_ext. intros i.
  rewrite !nth_error_skipn.
  destruct (Nat.lt_ge_cases (n + i) (length l)) as [Lt | Ge].
  - rewrite (nth_error_nth' o d) by lia. rewrite (nth_error_nth' l d) by lia.
    rewrite H by lia. reflexivity.
  - assert (E1 : nth_error o (n + i) = None) by (apply nth_error_None; lia).
    assert (E2 : nth_error l (n + i) = None) by (apply nth_error_None; lia).
    congruence.
Qed.

(** X18: with [n] at most the number of elements, the generator permutes
    the first n positions only.  On distinct elements it finishes after
    yielding [n!] lists, no list twice, and they are exactly the lists that
    arrange the first n elements and leave the others where they are. *)
Theorem generate_permutations_prefix : forall (A : Type) (elements : list A) (n : nat),
  NoDup elements -> (n <= length elements)%nat ->
  exists perms,
    generate_permutations elements n = (perms, Exhausted) /\
    length perms = fact n /\
    NoDup perms /\
    (forall p, In p perms <->
               Permutation (firstn n p) (firstn n elements) /\
               skipn n p = skipn n elements).
Proof.
  intros A elements n Hnd Hn.
  exists (elements :: fst (heap_rec n elements)).
  split; [apply generate_permutations_rec; exact Hn |].
  destruct elements as [| x0 rest] eqn:El.
  - assert (n = 0%nat) by (simpl in Hn; lia). subst n. simpl.
    split; [reflexivity |]. split; [constructor; [intros [] | constructor] |].
    intros p. split.
    + intros [<- | []]. auto.
    + intros (_ & E). auto.
  - rewrite <- El in *. clear El.
    destruct (heap_rec_ok A x0 n elements Hn Hnd) as (_ & B2 & B3 & B4).
    set (perms := elements :: fst (heap_rec n elements)) in *.
    assert (Hperm : forall o, In o perms -> Permutation o elements).
    { intros o [<- | Ho]; [reflexivity |].
      apply (proj2 (heap_rec_perm A n elements)). exact Ho. }
    assert (Htail : forall o, In o perms -> skipn n o = skipn n elements).
    { intros o Ho. apply (skipn_agree x0).
      - apply Permutation_length, Hperm, Ho.
      - apply B4. exact Ho. }
    assert (Hhead : forall o, In o perms -> Permutation (firstn n o) (firstn n elements)).
    { intros o Ho. pose proof (Hperm o Ho) as P.
      rewrite <- (firstn_skipn n o), <- (firstn_skipn n elements) in P.
      rewrite (Htail o Ho) in P. apply Permutation_app_inv_r in P. exact P. }
    split; [exact B2 |]. split; [exact B3 |].
    intros p. split.
    + intros Hp. split; [apply Hhead | apply Htail]; exact Hp.
    + intros (P1 & P2).
      assert (Hin : In (firstn n p) (map (firstn n) perms)).
      { apply (arrangements_all A (firstn n elements)).
        - apply NoDup_map_on; [exact B3 |].
          intros a b Ha Hb E.
          rewrite <- (firstn_skipn n a), <- (firstn_skipn n b).
          rewrite E, (Htail a Ha), (Htail b Hb). reflexivity.
        - rewrite length_map, B2, length_firstn, Nat.min_l by exact Hn. reflexivity.
        - intros o Ho. apply in_map_iff in Ho. destruct Ho as (o' & <- & Ho').
          apply Hhead. exact Ho'.
        - exact P1. }
      apply in_map_iff in Hin. destruct Hin as (o & E & Ho).
      replace p with o; [exact Ho |].
      rewrite <- (firstn_skipn n o), <- (firstn_skipn n p).
      rewrite E, (Htail o Ho), P2. reflexivity.
Qed.

Lemma generate_permutations_prefix_witness :
  exists perms,
    generate_permutations [1; 2; 3]%nat 2 = (perms, Exhausted) /\
    length perms = fact 2 /\
    NoDup perms /\
    (forall p, In p perms <->
               Permutation (firstn 2 p) (firstn 2 [1; 2; 3]%nat) /\
               skipn 2 p = skipn 2 [1; 2; 3]%nat).
Proof.
  apply (generate_permutations_prefix nat [1; 2; 3]%nat 2).
  - repeat constructor; simpl; intuition lia.
  - simpl. lia.
Defined.

(** ** kabsch_fit *)

(** The factors after the sign correction multiply to the rotation, when
    the second set is the first one turned by it. *)
Lemma sign_fix_rotated : forall (svd : svd_routine) (P : points) (Rm : mat3),
  let C := msum (map2 outer P (map (fun p => vecmat p Rm) P)) in
  orthogonal Rm -> det Rm = 1 ->
  is_svd C (svd C) -> 0 < vcomp (snd (fst (svd C))) 2 ->
  P <> [] /\
  exists V Sv Wt, sign_fix (svd C) = (V, Sv, Wt) /\ mmul V Wt = Rm.
Proof.
  intros svd P Rm C HR Hdet Hsvd Hpos.
  set (M := msum (map2 outer P P)).
  assert (EC : C = mmul M Rm) by (unfold C, M; apply covariance_rotated).
  destruct (svd C) as [[V Sv] Wt] eqn:Esvd. cbn [fst snd] in Hpos.
  destruct Sv as [[s0 s1] s2]. cbn [vcomp] in Hpos.
  destruct Hsvd as (HV & HW & (Hs2 & Hs21 & Hs10) & HC).
  destruct (svd_of_rotated (transpose Rm) M (transpose Wt) s0 s1 s2 (transpose V))
    as (EU & Etr); auto using orthogonal_transpose; try lra.
  { apply gram_symmetric. }
  { apply gram_psd. }
  { pose proof (gram_symmetric P) as SM. unfold symmetric in SM. fold M in SM.
    rewrite <- SM at 1. rewrite <- transpose_mmul, <- EC, HC.
    rewrite !transpose_mmul.
    assert (D : transpose (diag (s0, s1, s2)) = diag (s0, s1, s2)) by mat_ring.
    rewrite D, mmul_assoc. reflexivity. }
  rewrite <- transpose_mmul in EU.
  apply (f_equal transpose) in EU. rewrite !transpose_involutive in EU.
  split.
  - intros EP. unfold M in Etr. rewrite EP in Etr. simpl in Etr.
    unfold mzero, vzero, trace in Etr. lra.
  - exists V, (s0, s1, s2), Wt. split; [| exact EU].
    unfold sign_fix. rewrite <- det_mmul, EU, Hdet.
    destruct (Rlt_dec 1 0); [lra | reflexivity].
Qed.

Lemma vsum_map_rigid_rows : forall (P : points) Rm t,
  vsum (map (fun p => vadd (vecmat p Rm) t) P)
  = vadd (vecmat (vsum P) Rm) (vscale (INR (length P)) t).
Proof.
  intros P Rm t. induction P as [| p P IH].
  - simpl. destruct t as [[? ?] ?]. split_vec. mat_unfold. tuple_eq; ring.
  - cbn [map vsum fold_right length].
    fold (vsum (map (fun p => vadd (vecmat p Rm) t) P)). fold (vsum P).
    rewrite IH, S_INR. generalize (vsum P) (INR (length P)). clear IH. intros s N.
    destruct p as [[? ?] ?], t as [[? ?] ?], s as [[? ?] ?]. split_vec.
    mat_unfold. tuple_eq; ring.
Qed.

(** X19: [kabsch_fit] carries P onto Q when Q is a rigid image of P.  If
    [Q = P . Rm + t] for a proper rotation Rm, and the singular values that
    [np.linalg.svd] returns for the covariance of the centred sets are all
    positive, then [kabsch_fit(P, Q)] returns Q itself, the rotation Rm
    and the centroid of Q; the weights argument plays no part. *)
Theorem kabsch_fit_rigid :
  forall (svd : svd_routine) (P : points) (Rm : mat3) (t : vec3) (W : option (list R)),
  let Q := map (fun p => vadd (vecmat p Rm) t) P in
  let C := msum (map2 outer (center P) (center Q)) in
  orthogonal Rm -> det Rm = 1 ->
  is_svd C (svd C) -> 0 < vcomp (snd (fst (svd C))) 2 ->
  exists QC, centroid Q = Ok QC /\ kabsch_fit svd P Q W = Ok (Q, Rm, QC).
Proof.
  intros svd P Rm t W Q C HR Hdet Hsvd Hpos.
  assert (Hcase : P = [] \/ P <> []) by (destruct P; [left; reflexivity | right; discriminate]).
  destruct Hcase as [EP | Hne].
  { exfalso. subst P. unfold C, Q in *. simpl in *.
    assert (Z0 : center (@nil vec3) = []).
    { unfold center, centroid. simpl. rewrite np_div_zero. reflexivity. }
    rewrite Z0 in *. simpl in *.
    destruct (svd mzero) as [[V Sv] Wt]. destruct Sv as [[s0 s1] s2].
    cbn [fst snd vcomp] in Hpos. destruct Hsvd as (HV & HW & (Hs2 & Hs21 & Hs10) & HC).
    assert (Z : diag (s0, s1, s2) = mzero).
    { pose proof (orthogonal_transpose _ HW) as HWt. unfold orthogonal in HV, HWt.
      rewrite transpose_involutive in HWt.
      transitivity (mmul (mmul (transpose V) (mmul (mmul V (diag (s0, s1, s2))) Wt))
                         (transpose Wt)).
      - rewrite <- !mmul_assoc, HV, mmul_eye_l.
        rewrite mmul_assoc, HWt, mmul_eye_r. reflexivity.
      - rewrite <- HC. generalize (transpose V) (transpose Wt). intros A B.
        split_vec. mat_unfold. tuple_eq; ring. }
    unfold diag, mzero, vzero in Z. injection Z as _ _ Z. lra. }
  assert (HN : INR (length P) <> 0).
  { apply not_0_INR. destruct P; [contradiction | discriminate]. }
  assert (HQne : Q <> []) by (unfold Q; destruct P; [contradiction | discriminate]).
  set (c := vscale (/ INR (length P)) (vsum P)).
  set (QC := vadd (vecmat c Rm) t).
  assert (EcP : centroid P = Ok c) by (apply centroid_value; exact Hne).
  assert (EcQ : centroid Q = Ok QC).
  { rewrite (centroid_value Q HQne). unfold Q at 1 2. rewrite length_map, vsum_map_rigid_rows.
    apply f_equal. unfold QC, c. generalize (vsum P). intros s.
    destruct s as [[? ?] ?], t as [[? ?] ?]. split_vec. mat_unfold.
    tuple_eq; field; exact HN. }
  assert (EP0 : center P = map (fun p => vsub p c) P) by (unfold center; rewrite EcP; reflexivity).
  assert (EQ0 : center Q = map (fun p => vecmat p Rm) (center P)).
  { unfold center at 1. rewrite EcQ, EP0. unfold Q. rewrite !map_map.
    apply map_ext. intros p. unfold QC. generalize c. intros c'.
    destruct p as [[? ?] ?], t as [[? ?] ?], c' as [[? ?] ?]. split_vec.
    mat_unfold. tuple_eq; ring. }
  exists QC. split; [exact EcQ |].
  unfold kabsch_fit, covariance. fold C.
  assert (L : length (center P) = length (center Q)) by (rewrite EQ0, length_map; reflexivity).
  rewrite L, Nat.eqb_refl. cbn [bind].
  assert (EC : C = msum (map2 outer (center P) (map (fun p => vecmat p Rm) (center P)))).
  { unfold C. rewrite EQ0. reflexivity. }
  rewrite EC in Hsvd, Hpos |- *.
  destruct (sign_fix_rotated svd (center P) Rm HR Hdet Hsvd Hpos)
    as (_ & V & Sv & Wt & -> & EU).
  rewrite EU, EcQ. cbn [bind]. do 2 f_equal. f_equal.
  rewrite EP0. unfold Q. rewrite map_map. apply map_ext. intros p.
  unfold QC. generalize c. intros c'.
  destruct p as [[? ?] ?], t as [[? ?] ?], c' as [[? ?] ?]. split_vec.
  mat_unfold. tuple_eq; ring.
Qed.

Lemma kabsch_fit_rigid_witness :
  let Q := map (fun p => vadd (vecmat p quarter_turn) (1, 2, 3)) octa_Q in
  exists QC, centroid Q = Ok QC /\
             kabsch_fit octa_svd_rows octa_Q Q None = Ok (Q, quarter_turn, QC).
Proof.
  apply (kabsch_fit_rigid octa_svd_rows octa_Q quarter_turn (1, 2, 3) None).
  - unfold orthogonal, quarter_turn. mat_unfold. tuple_eq; ring.
  - unfold quarter_turn. mat_unfold. ring.
  - unfold is_svd, octa_svd_rows, orthogonal, quarter_turn. repeat split; try lra.
    + mat_unfold. tuple_eq; ring.
    + mat_unfold. tuple_eq; ring.
    + unfold center. rewrite !centroid_value by discriminate.
      unfold octa_Q. simpl. mat_unfold. tuple_eq; field.
  - simpl. lra.
Defined.

(** ** Quaternions *)

Ltac mat4_unfold :=
  cbv [quaternion_transform upper_left mmul4 vecmat4 transpose4 vdot4 vadd4 madd4
       makeW makeQ makeW3 makeQ3 mzero4 col4] in *.

Lemma quaternion_transform_gram : forall r,
  mmul (transpose (quaternion_transform r)) (quaternion_transform r)
  = mscale (vdot4 r r * vdot4 r r) eye.
Proof.
  intros [[[r1 r2] r3] r4]. mat4_unfold. mat_unfold. tuple_eq; ring.
Qed.

Lemma quaternion_transform_det : forall r,
  det (quaternion_transform r) = vdot4 r r * vdot4 r r * vdot4 r r.
Proof.
  intros [[[r1 r2] r3] r4]. mat4_unfold. mat_unfold. ring.
Qed.

Lemma quaternion_transform_unit : forall r, vdot4 r r = 1 ->
  orthogonal (quaternion_transform r) /\ det (quaternion_transform r) = 1.
Proof.
  intros r H. split.
  - unfold orthogonal. rewrite quaternion_transform_gram, H. mat_unfold. tuple_eq; ring.
  - rewrite quaternion_transform_det, H. ring.
Qed.

(** X20: [quaternion_transform] turns a unit quaternion into a proper
    rotation matrix, and any quaternion r into [|r|^2] times one:
    [rot^T . rot = |r|^4 I] and [det rot = |r|^6]. *)
Theorem quaternion_transform_rotation : forall r : vec4,
  mmul (transpose (quaternion_transform r)) (quaternion_transform r)
  = mscale (vdot4 r r * vdot4 r r) eye /\
  det (quaternion_transform r) = vdot4 r r * vdot4 r r * vdot4 r r /\
  (vdot4 r r = 1 -> orthogonal (quaternion_transform r) /\ det (quaternion_transform r) = 1).
Proof.
  intros r. split; [apply quaternion_transform_gram |].
  split; [apply quaternion_transform_det | apply quaternion_transform_unit].
Qed.

Lemma quaternion_transform_rotation_witness :
  let r : vec4 := (3 / 5, 0, 0, 4 / 5) in
  mmul (transpose (quaternion_transform r)) (quaternion_transform r)
  = mscale (vdot4 r r * vdot4 r r) eye /\
  det (quaternion_transform r) = vdot4 r r * vdot4 r r * vdot4 r r /\
  (vdot4 r r = 1 -> orthogonal (quaternion_transform r) /\ det (quaternion_transform r) = 1).
Proof.
  intros r. apply (quaternion_transform_rotation r).
Defined.

Lemma take_seq_prefix : forall {A : Type} (Y : list A) n,
  (n <= length Y)%nat -> take Y (seq 0 n) = Ok (firstn n Y).
Proof.
  intros A Y n H. apply take_from_nth.
  - rewrite length_firstn, length_seq. lia.
  - intros t i Ht.
    assert (Lt : (t < n)%nat).
    { assert (L : (t < length (seq 0 n))%nat) by (apply nth_error_Some; congruence).
      rewrite length_seq in L. exact L. }
    rewrite nth_error_seq in Ht.
    destruct (Nat.ltb_spec t n) as [_ | Bad]; [| lia].
    injection Ht as <-. simpl. symmetry. rewrite nth_error_firstn.
    destruct (Nat.ltb_spec t n) as [_ | Bad]; [reflexivity | lia].
Qed.

Lemma take_seq_short : forall {A : Type} (Y : list A) n,
  (length Y < n)%nat -> take Y (seq 0 n) = Raise IndexError.
Proof.
  intros A Y n H.
  assert (G : forall k s, (s <= length Y)%nat -> (length Y < s + k)%nat ->
              take Y (seq s k) = Raise IndexError).
  { induction k as [| k IH]; intros s Hs Hk; [lia |].
    cbn [seq take].
    destruct (nth_error Y s) as [y |] eqn:E; [| reflexivity].
    assert (s < length Y)%nat by (apply nth_error_Some; congruence).
    rewrite IH by lia. reflexivity. }
  apply G; lia.
Qed.

Lemma symmetric_term : forall x y : vec3,
  transpose4 (mmul4 (transpose4 (makeQ3 x)) (makeW3 y))
  = mmul4 (transpose4 (makeQ3 x)) (makeW3 y).
Proof.
  intros [[x1 x2] x3] [[y1 y2] y3]. mat4_unfold.
  tuple_eq; ring.
Qed.

Lemma transpose4_madd4 : forall A B : mat4,
  transpose4 (madd4 A B) = madd4 (transpose4 A) (transpose4 B).
Proof.
  intros [[[[[[? ?] ?] ?] [[[? ?] ?] ?]] [[[? ?] ?] ?]] [[[? ?] ?] ?]]
         [[[[[[? ?] ?] ?] [[[? ?] ?] ?]] [[[? ?] ?] ?]] [[[? ?] ?] ?]].
  reflexivity.
Qed.

(** X21: the matrix that [quaternion_rotate] hands to [np.linalg.eigh]
    is symmetric, so nothing is lost when [eigh] reads one triangle of it;
    with no points, what is handed over is the float 0.0 and not a
    matrix. *)
Theorem quaternion_sum_symmetric : forall X Ys : points,
  match quaternion_sum X Ys with
  | Matrix A => transpose4 A = A /\ X <> [] /\ Ys <> []
  | Scalar x => x = 0 /\ (X = [] \/ Ys = [])
  end.
Proof.
  intros X Ys. unfold quaternion_sum.
  destruct X as [| x X]; [simpl; auto |].
  destruct Ys as [| y Ys]; [simpl; auto |].
  cbn [map map2]. split; [| split; discriminate].
  set (l := map2 (fun q w => mmul4 (transpose4 q) w) (map makeQ3 (x :: X)) (map makeW3 (y :: Ys))).
  assert (G : forall X Ys : points,
            transpose4 (msum4 (map2 (fun q w => mmul4 (transpose4 q) w)
                                    (map makeQ3 X) (map makeW3 Ys)))
            = msum4 (map2 (fun q w => mmul4 (transpose4 q) w)
                          (map makeQ3 X) (map makeW3 Ys))).
  { induction X0 as [| a X0 IH]; intros [| b Ys0]; try reflexivity.
    cbn [map map2 msum4 fold_right].
    fold (msum4 (map2 (fun q w => mmul4 (transpose4 q) w) (map makeQ3 X0) (map makeW3 Ys0))).
    rewrite transpose4_madd4, symmetric_term, IH. reflexivity. }
  apply (G (x :: X) (y :: Ys)).
Qed.

Lemma quaternion_sum_shape : forall X Ys : points,
  match quaternion_sum X Ys with
  | Matrix _ => True
  | Scalar _ => X = [] \/ Ys = []
  end.
Proof.
  intros X Ys. unfold quaternion_sum.
  destruct X as [| x X]; [simpl; auto |].
  destruct Ys as [| y Ys]; [simpl; auto |]. exact I.
Qed.

(** X22: [quaternion_rotate] returns a proper rotation.  When
    [np.linalg.eigh] returns normalised eigenvectors and Y has at least
    as many rows as the non-empty X, the result is an orthogonal matrix of
    determinant +1, and [quaternion_rmsd] on sets of equal length is a
    non-negative number; when Y has fewer rows than X, both raise an
    [IndexError]. *)
Theorem quaternion_rotate_rotation : forall (eigh : eigh_routine) (X Y : points),
  eigh_ok eigh ->
  ((length Y < length X)%nat ->
   quaternion_rotate eigh X Y = Raise IndexError /\
   quaternion_rmsd eigh X Y = Raise IndexError) /\
  (X <> [] -> (length X <= length Y)%nat ->
   exists rot, quaternion_rotate eigh X Y = Ok rot /\ orthogonal rot /\ det rot = 1) /\
  (X <> [] -> length X = length Y ->
   exists r, quaternion_rmsd eigh X Y = Ok r /\ 0 <= r).
Proof.
  intros eigh X Y He.
  assert (Hrot : X <> [] -> (length X <= length Y)%nat ->
            exists rot, quaternion_rotate eigh X Y = Ok rot /\ orthogonal rot /\ det rot = 1).
  { intros Hne Hlen. unfold quaternion_rotate.
    rewrite take_seq_prefix by exact Hlen. cbn [bind].
    pose proof (quaternion_sum_shape X (firstn (length X) Y)) as S.
    destruct (quaternion_sum X (firstn (length X) Y)) as [A | x].
    - destruct (He A) as (vals & vecs & -> & Hu). cbn [bind].
      eexists. split; [reflexivity |]. apply quaternion_transform_unit. apply Hu.
    - exfalso. destruct S as [S | S]; [contradiction |].
      apply (f_equal (@length vec3)) in S.
      rewrite length_firstn, Nat.min_l in S by exact Hlen.
      destruct X; [contradiction | discriminate]. }
  split; [| split].
  - intros Hlt. unfold quaternion_rmsd, quaternion_rotate.
    rewrite take_seq_short by exact Hlt. split; reflexivity.
  - exact Hrot.
  - intros Hne Hlen. unfold quaternion_rmsd.
    destruct (Hrot Hne ltac:(lia)) as (rot & -> & _). cbn [bind].
    apply rmsd_ok.
    + destruct X; [contradiction | discriminate].
    + rewrite length_map. exact Hlen.
Qed.

Lemma quaternion_rotate_rotation_witness :
  let X : points := [(1, 0, 0); (0, 1, 0)] in
  let Y : points := [(0, 1, 0); (-1, 0, 0)] in
  ((length Y < length X)%nat ->
   quaternion_rotate unit_eigh X Y = Raise IndexError /\
   quaternion_rmsd unit_eigh X Y = Raise IndexError) /\
  (X <> [] -> (length X <= length Y)%nat ->
   exists rot, quaternion_rotate unit_eigh X Y = Ok rot /\ orthogonal rot /\ det rot = 1) /\
  (X <> [] -> length X = length Y ->
   exists r, quaternion_rmsd unit_eigh X Y = Ok r /\ 0 <= r).
Proof.
  intros X Y. apply (quaternion_rotate_rotation unit_eigh X Y).
  intros A. do 2 eexists. split; [reflexivity |].
  intros [| [| [| i]]]; unfold col4, transpose4, vdot4; ring.
Defined.

(** ** kabsch_rotate as an isometry *)

Lemma orthogonal_rows_dot : forall U a b, orthogonal U ->
  vdot (vecmat a U) (vecmat b U) = vdot a b.
Proof.
  intros U a b HU. unfold vecmat.
  rewrite vdot_matvec_transpose, transpose_involutive, <- matvec_mmul.
  pose proof (orthogonal_transpose U HU) as HT. unfold orthogonal in HT.
  rewrite transpose_involutive in HT. rewrite HT, matvec_eye. reflexivity.
Qed.

(** X23: [kabsch_rotate] moves P rigidly.  With factors from
    [np.linalg.svd] that are orthogonal, the rows of the rotated P have the
    inner products of the rows of P: lengths, distances and angles within
    P are kept. *)
Theorem kabsch_rotate_isometry : forall (svd : svd_routine) (P Q : points),
  length P = length Q ->
  is_svd (msum (map2 outer P Q)) (svd (msum (map2 outer P Q))) ->
  exists P', kabsch_rotate svd P Q = Ok P' /\
             length P' = length P /\
             forall i j, vdot (nth i P' vzero) (nth j P' vzero)
                         = vdot (nth i P vzero) (nth j P vzero).
Proof.
  intros svd P Q Hlen Hsvd. unfold kabsch_rotate, kabsch, covariance.
  rewrite Hlen, Nat.eqb_refl. cbn [bind].
  set (C := msum (map2 outer P Q)) in *.
  destruct (svd C) as [[V Sv] W] eqn:E.
  destruct Hsvd as (HV & HW & _ & _).
  destruct (sign_fix (V, Sv, W)) as [[V' Sv'] W'] eqn:F.
  destruct (@sign_fix_det V Sv W V' Sv' W' HV HW F) as (D & HV' & ->).
  cbn [bind].
  assert (HU : orthogonal (mmul V' W)) by (apply orthogonal_mmul; assumption).
  eexists. split; [reflexivity |]. split; [rewrite length_map; exact Hlen |].
  intros i j.
  assert (Z : vecmat vzero (mmul V' W) = vzero).
  { generalize (mmul V' W). intros M. split_vec. mat_unfold. tuple_eq; ring. }
  rewrite <- Z at 1 2.
  rewrite !(map_nth (fun p => vecmat p (mmul V' W))).
  apply orthogonal_rows_dot. exact HU.
Qed.

Lemma kabsch_rotate_isometry_witness :
  exists P', kabsch_rotate mirror_svd mirror_P mirror_Q = Ok P' /\
             length P' = length mirror_P /\
             forall i j, vdot (nth i P' vzero) (nth j P' vzero)
                         = vdot (nth i mirror_P vzero) (nth j mirror_P vzero).
Proof.
  apply (kabsch_rotate_isometry mirror_svd mirror_P mirror_Q).
  - reflexivity.
  - unfold is_svd, mirror_svd, orthogonal. simpl.
    repeat split; try lra; mat_unfold; tuple_eq; ring.
Defined.

(** ** Letter case of the labels *)

Lemma lower_ascii_idempotent : forall c, lower_ascii (lower_ascii c) = lower_ascii c.
Proof.
  intros [[] [] [] [] [] [] [] []]; reflexivity.
Qed.

Lemma lower_idempotent : forall x, lower (lower x) = lower x.
Proof.
  induction x as [| c x IH]; [reflexivity |].
  cbn [lower]. rewrite lower_ascii_idempotent, IH. reflexivity.
Qed.

Lemma masses_lower : forall atoms, masses (map lower atoms) = masses atoms.
Proof.
  induction atoms as [| a atoms IH]; [reflexivity |].
  cbn [map masses]. rewrite lower_idempotent, IH. reflexivity.
Qed.

Lemma inertia_loop_lower : forall atoms CV acc,
  inertia_loop acc (map lower atoms) CV = inertia_loop acc atoms CV.
Proof.
  induction atoms as [| a atoms IH]; intros CV acc; [reflexivity |].
  cbn [map inertia_loop]. destruct CV as [| x CV]; [reflexivity |].
  rewrite lower_idempotent.
  destruct (lookup (lower a) ELEMENTS_WEIGHTS); cbn [bind]; auto.
Qed.

(** X24: the element lookup ignores the letter case of the labels:
    [get_cm], [get_inertia_tensor] and [get_principal_axis] give the same
    outcome on the lower-cased labels as on the labels themselves. *)
Theorem inertia_ignores_letter_case :
  forall (eig : eig_routine) (atoms : list string) (V : points),
  get_cm (map lower atoms) V = get_cm atoms V /\
  get_inertia_tensor (map lower atoms) V = get_inertia_tensor atoms V /\
  get_principal_axis eig (map lower atoms) V = get_principal_axis eig atoms V.
Proof.
  intros eig atoms V.
  assert (E1 : get_cm (map lower atoms) V = get_cm atoms V).
  { unfold get_cm. rewrite masses_lower. reflexivity. }
  assert (E2 : get_inertia_tensor (map lower atoms) V = get_inertia_tensor atoms V).
  { unfold get_inertia_tensor. rewrite E1.
    destruct (get_cm atoms V); cbn [bind]; try reflexivity.
    rewrite inertia_loop_lower. reflexivity. }
  split; [exact E1 |]. split; [exact E2 |].
  unfold get_principal_axis. rewrite E2. reflexivity.
Qed.

(** ** The singular values of a matrix are determined by it *)

Lemma cubic_roots_le : forall a b c a' b' c' : R,
  c <= b -> b <= a -> c' <= b' -> b' <= a' ->
  a + b + c = a' + b' + c' ->
  a * b + b * c + c * a = a' * b' + b' * c' + c' * a' ->
  a * b * c = a' * b' * c' ->
  a <= a' /\ c' <= c.
Proof.
  intros a b c a' b' c' H1 H2 H3 H4 E1 E2 E3.
  assert (F : forall x, (x - a) * (x - b) * (x - c) = (x - a') * (x - b') * (x - c')).
  { intros x.
    replace ((x - a) * (x - b) * (x - c))
      with (x * x * x - (a + b + c) * (x * x) + (a * b + b * c + c * a) * x - a * b * c)
      by ring.
    rewrite E1, E2, E3. ring. }
  split.
  - pose proof (F a) as Fa.
    replace ((a - a) * (a - b) * (a - c)) with 0 in Fa by ring.
    symmetry in Fa. apply Rmult_integral in Fa. destruct Fa as [Fa | Fa]; [| lra].
    apply Rmult_integral in Fa. destruct Fa; lra.
  - pose proof (F c) as Fc.
    replace ((c - a) * (c - b) * (c - c)) with 0 in Fc by ring.
    symmetry in Fc. apply Rmult_integral in Fc. destruct Fc as [Fc | Fc]; [| lra].
    apply Rmult_integral in Fc. destruct Fc; lra.
Qed.

Lemma sorted_triple_unique : forall a b c a' b' c' : R,
  c <= b -> b <= a -> c' <= b' -> b' <= a' ->
  a + b + c = a' + b' + c' ->
  a * b + b * c + c * a = a' * b' + b' * c' + c' * a' ->
  a * b * c = a' * b' * c' ->
  a = a' /\ b = b' /\ c = c'.
Proof.
  intros a b c a' b' c' H1 H2 H3 H4 E1 E2 E3.
  destruct (cubic_roots_le a b c a' b' c') as (L1 & L2); auto.
  destruct (cubic_roots_le a' b' c' a b c) as (L3 & L4); auto.
  repeat split; lra.
Qed.

Lemma square_inj_nonneg : forall x y, 0 <= x -> 0 <= y -> x * x = y * y -> x = y.
Proof.
  intros x y Hx Hy H.
  assert (E : (x - y) * (x + y) = 0) by (ring_simplify; lra).
  apply Rmult_integral in E. destruct E as [E | E]; [lra |].
  assert (x = 0) by lra. assert (y = 0) by lra. lra.
Qed.

(** [C^T . C = W^T . D^2 . W] *)
Lemma gram_of_svd : forall V D W, orthogonal V ->
  mmul (transpose (mmul (mmul V D) W)) (mmul (mmul V D) W)
  = mmul (mmul (transpose W) (mmul (transpose D) D)) W.
Proof.
  intros V D W HV. unfold orthogonal in HV.
  rewrite !transpose_mmul.
  rewrite !mmul_assoc. f_equal.
  rewrite <- (mmul_assoc (transpose V) V), HV, mmul_eye_l.
  rewrite <- !mmul_assoc. reflexivity.
Qed.

Lemma trace_conjugate : forall W M, orthogonal W ->
  trace (mmul (mmul (transpose W) M) W) = trace M.
Proof.
  intros W M HW. pose proof (orthogonal_transpose W HW) as HT. unfold orthogonal in HT.
  rewrite transpose_involutive in HT.
  rewrite trace_mmul_comm, <- mmul_assoc, HT, mmul_eye_l. reflexivity.
Qed.

Lemma square_conjugate : forall W M, orthogonal W ->
  mmul (mmul (mmul (transpose W) M) W) (mmul (mmul (transpose W) M) W)
  = mmul (mmul (transpose W) (mmul M M)) W.
Proof.
  intros W M HW. pose proof (orthogonal_transpose W HW) as HT. unfold orthogonal in HT.
  rewrite transpose_involutive in HT.
  rewrite !mmul_assoc. f_equal. f_equal.
  rewrite <- (mmul_assoc W (transpose W)), HT, mmul_eye_l. reflexivity.
Qed.

Lemma det_conjugate : forall W M, orthogonal W ->
  det (mmul (mmul (transpose W) M) W) = det M.
Proof.
  intros W M HW. rewrite !det_mmul, det_transpose.
  pose proof (orthogonal_det_sq W HW) as D.
  replace (det W * det M * det W) with (det M * (det W * det W)) by ring.
  rewrite D. ring.
Qed.

(** Two decompositions of one matrix have the same singular values. *)
Lemma singular_values_unique : forall C V S W V2 S2 W2,
  is_svd C (V, S, W) -> is_svd C (V2, S2, W2) -> S = S2.
Proof.
  intros C V [[s0 s1] s2] W V2 [[t0 t1] t2] W2
         (HV & HW & (A2 & A21 & A10) & HC) (HV2 & HW2 & (B2 & B21 & B10) & HC2).
  set (D := diag (s0, s1, s2)) in *. set (D2 := diag (t0, t1, t2)) in *.
  set (M := mmul (transpose C) C).
  assert (M1 : M = mmul (mmul (transpose W) (mmul (transpose D) D)) W).
  { unfold M. rewrite HC. apply gram_of_svd. exact HV. }
  assert (M2 : M = mmul (mmul (transpose W2) (mmul (transpose D2) D2)) W2).
  { unfold M. rewrite HC2. apply gram_of_svd. exact HV2. }
  assert (T1 : trace M = s0 * s0 + s1 * s1 + s2 * s2).
  { rewrite M1, trace_conjugate by exact HW. unfold D. mat_unfold. ring. }
  assert (T2 : trace M = t0 * t0 + t1 * t1 + t2 * t2).
  { rewrite M2, trace_conjugate by exact HW2. unfold D2. mat_unfold. ring. }
  assert (Q1 : trace (mmul M M)
               = s0 * s0 * (s0 * s0) + s1 * s1 * (s1 * s1) + s2 * s2 * (s2 * s2)).
  { rewrite M1, square_conjugate, trace_conjugate by exact HW. unfold D. mat_unfold. ring. }
  assert (Q2 : trace (mmul M M)
               = t0 * t0 * (t0 * t0) + t1 * t1 * (t1 * t1) + t2 * t2 * (t2 * t2)).
  { rewrite M2, square_conjugate, trace_conjugate by exact HW2. unfold D2. mat_unfold. ring. }
  assert (P1 : det M = s0 * s0 * (s1 * s1) * (s2 * s2)).
  { rewrite M1, det_conjugate by exact HW. unfold D. mat_unfold. ring. }
  assert (P2 : det M = t0 * t0 * (t1 * t1) * (t2 * t2)).
  { rewrite M2, det_conjugate by exact HW2. unfold D2. mat_unfold. ring. }
  clearbody M. clear M1 M2 HC HC2.
  set (a := s0 * s0) in *. set (b := s1 * s1) in *. set (c := s2 * s2) in *.
  set (a' := t0 * t0) in *. set (b' := t1 * t1) in *. set (c' := t2 * t2) in *.
  assert (Hcb : c <= b) by (unfold c, b; nra).
  assert (Hba : b <= a) by (unfold b, a; nra).
  assert (Hcb' : c' <= b') by (unfold c', b'; nra).
  assert (Hba' : b' <= a') by (unfold b', a'; nra).
  assert (E1 : a + b + c = a' + b' + c') by lra.
  assert (E2 : a * b + b * c + c * a = a' * b' + b' * c' + c' * a').
  { assert (X : a * a + b * b + c * c = a' * a' + b' * b' + c' * c') by lra.
    assert (Y : (a + b + c) * (a + b + c) = (a' + b' + c') * (a' + b' + c'))
      by (rewrite E1; reflexivity).
    lra. }
  assert (E3 : a * b * c = a' * b' * c') by lra.
  destruct (sorted_triple_unique a b c a' b' c') as (Ea & Eb & Ec); auto.
  assert (s0 = t0) by (apply square_inj_nonneg; [lra | lra | exact Ea]).
  assert (s1 = t1) by (apply square_inj_nonneg; [lra | lra | exact Eb]).
  assert (s2 = t2) by (apply square_inj_nonneg; [lra | lra | exact Ec]).
  subst. reflexivity.
Qed.

(** The sum of the singular values after the sign correction is the same
    for every decomposition of a matrix. *)
Lemma fixed_sum_unique : forall C V S W V2 S2 W2,
  is_svd C (V, S, W) -> is_svd C (V2, S2, W2) ->
  vtotal (snd (fst (sign_fix (V, S, W)))) = vtotal (snd (fst (sign_fix (V2, S2, W2)))).
Proof.
  intros C V S W V2 S2 W2 H1 H2.
  pose proof (singular_values_unique C V S W V2 S2 W2 H1 H2) as <-.
  destruct S as [[s0 s1] s2].
  destruct H1 as (HV & HW & (A2 & A21 & A10) & HC).
  destruct H2 as (HV2 & HW2 & _ & HC2).
  assert (D1 : det C = det V * det W * (s0 * s1 * s2)).
  { rewrite HC, !det_mmul. unfold diag. mat_unfold. ring. }
  assert (D2 : det C = det V2 * det W2 * (s0 * s1 * s2)).
  { rewrite HC2, !det_mmul. unfold diag. mat_unfold. ring. }
  unfold sign_fix.
  destruct (Rlt_dec (det V * det W) 0) as [N1 | N1],
           (Rlt_dec (det V2 * det W2) 0) as [N2 | N2];
    cbn [fst snd neg_last vtotal]; try reflexivity.
  - (* fixed, not fixed: s2 = 0 *)
    destruct (Req_dec s2 0) as [Z | NZ]; [rewrite Z; ring |].
    exfalso. assert (Ppos : 0 < s0 * s1 * s2).
    { apply Rmult_lt_0_compat; [apply Rmult_lt_0_compat |]; lra. }
    assert (X : det V * det W = det V2 * det W2).
    { apply (Rmult_eq_reg_r (s0 * s1 * s2)); lra. }
    lra.
  - destruct (Req_dec s2 0) as [Z | NZ]; [rewrite Z; ring |].
    exfalso. assert (Ppos : 0 < s0 * s1 * s2).
    { apply Rmult_lt_0_compat; [apply Rmult_lt_0_compat |]; lra. }
    assert (X : det V * det W = det V2 * det W2).
    { apply (Rmult_eq_reg_r (s0 * s1 * s2)); lra. }
    lra.
Qed.

(** The trace of [U^T . C] for the rotation [U] of the corrected factors
    is the sum of the corrected singular values. *)
Lemma sign_fix_trace : forall V S W V' S' W',
  orthogonal V -> orthogonal W ->
  sign_fix (V, S, W) = (V', S', W') ->
  trace (mmul (transpose (mmul V' W')) (mmul (mmul V (diag S)) W)) = vtotal S'.
Proof.
  intros V S W V' S' W' HV HW F. unfold sign_fix in F.
  pose proof (orthogonal_transpose W HW) as HT. unfold orthogonal in HT.
  rewrite transpose_involutive in HT.
  assert (K : forall J, mmul (transpose V') V = J ->
              trace (mmul (transpose (mmul V' W)) (mmul (mmul V (diag S)) W))
              = trace (mmul J (diag S))).
  { intros J EJ. rewrite transpose_mmul.
    rewrite trace_mmul_comm.
    rewrite (mmul_assoc (mmul V (diag S)) W), <- (mmul_assoc W (transpose W)), HT, mmul_eye_l.
    rewrite trace_mmul_comm, <- mmul_assoc, EJ. reflexivity. }
  destruct (Rlt_dec (det V * det W) 0); injection F as <- <- <-.
  - rewrite (K (diag (1, 1, -1))).
    + destruct S as [[? ?] ?]. mat_unfold. ring.
    + unfold orthogonal in HV. revert HV. clear. intros HV.
      destruct V as [[[[a b] c] [[d e] f]] [[g h] i]]. mat_unfold.
      injection HV as ? ? ? ? ? ? ? ? ?. tuple_eq; lra.
  - rewrite (K eye).
    + destruct S as [[? ?] ?]. mat_unfold. ring.
    + exact HV.
Qed.

(** ** Sums over a point set *)

Lemma sumsq_cons : forall x (X : points), sumsq (x :: X) = vdot x x + sumsq X.
Proof. intros x X. unfold sumsq. apply total_squares_cons. Qed.

Lemma rsum_repeat : forall k n, rsum (repeat k n) = INR n * k.
Proof.
  intros k n. induction n as [| n IH]; [simpl; unfold rsum; simpl; ring |].
  cbn [repeat]. unfold rsum in *. cbn [fold_right]. rewrite IH, S_INR. ring.
Qed.

Lemma weighted_sum_uniform : forall k (P : points),
  weighted_sum P (weights3 (repeat k (length P))) = vscale k (vsum P).
Proof.
  intros k. induction P as [| p P IH].
  - simpl. unfold weighted_sum. simpl. unfold vzero, vscale. tuple_eq; ring.
  - cbn [length repeat]. rewrite weighted_sum_cons, IH.
    cbn [vsum fold_right]. fold (vsum P).
    destruct p as [[? ?] ?], (vsum P) as [[? ?] ?]. unfold vadd, vscale. tuple_eq; ring.
Qed.

Lemma weighted_sq_uniform : forall k (P : points),
  weighted_sq P (weights3 (repeat k (length P))) = k * sumsq P.
Proof.
  intros k. induction P as [| p P IH].
  - unfold weighted_sq, sumsq, total. simpl. unfold vtotal, vzero. ring.
  - cbn [length repeat]. rewrite weighted_sq_cons, IH, sumsq_cons. ring.
Qed.

Lemma weighted_cov_uniform : forall k (P Q : points), length P = length Q ->
  weighted_cov P Q (repeat k (length P)) = mscale k (msum (map2 outer P Q)).
Proof.
  intros k. induction P as [| p P IH]; intros [| q Q] H; try discriminate.
  - unfold weighted_cov. simpl. mat_unfold. tuple_eq; ring.
  - cbn [length repeat]. rewrite weighted_cov_cons, IH by (simpl in H; lia).
    cbn [map2 msum fold_right]. fold (msum (map2 outer P Q)).
    generalize (msum (map2 outer P Q)). intros M.
    destruct p as [[? ?] ?], q as [[? ?] ?]. split_vec. mat_unfold. tuple_eq; ring.
Qed.

Lemma sumsq_centered : forall c (P : points),
  sumsq (map (fun p => vsub p c) P)
  = sumsq P - 2 * vdot c (vsum P) + INR (length P) * vdot c c.
Proof.
  intros c. induction P as [| p P IH].
  - unfold sumsq, total. simpl. destruct c as [[? ?] ?]. mat_unfold. ring.
  - cbn [map length]. rewrite !sumsq_cons, IH, S_INR.
    cbn [vsum fold_right]. fold (vsum P).
    destruct p as [[? ?] ?], c as [[? ?] ?], (vsum P) as [[? ?] ?]. mat_unfold. ring.
Qed.

Lemma covariance_centered : forall a b (P Q : points), length P = length Q ->
  msum (map2 outer (map (fun p => vsub p a) P) (map (fun q => vsub q b) Q))
  = madd (msub (msub (msum (map2 outer P Q)) (outer a (vsum Q))) (outer (vsum P) b))
         (mscale (INR (length P)) (outer a b)).
Proof.
  intros a b. induction P as [| p P IH]; intros [| q Q] H; try discriminate.
  - simpl. destruct a as [[? ?] ?], b as [[? ?] ?]. mat_unfold. tuple_eq; ring.
  - cbn [map map2 msum fold_right length vsum].
    fold (msum (map2 outer (map (fun p => vsub p a) P) (map (fun q => vsub q b) Q))).
    fold (msum (map2 outer P Q)). fold (vsum P). fold (vsum Q).
    rewrite IH by (simpl in H; lia). rewrite S_INR.
    generalize (msum (map2 outer P Q)) (vsum P) (vsum Q) (INR (length P)).
    intros M sP sQ N.
    destruct p as [[? ?] ?], q as [[? ?] ?], a as [[? ?] ?], b as [[? ?] ?],
             sP as [[? ?] ?], sQ as [[? ?] ?].
    split_vec. mat_unfold. tuple_eq; ring.
Qed.

(** [sum_j |p_j . U - q_j|^2] for an orthogonal U. *)
Lemma rotated_residual : forall U (P Q : points), orthogonal U -> length P = length Q ->
  sumsq (map2 vsub (map (fun p => vecmat p U) P) Q)
  = sumsq P + sumsq Q - 2 * trace (mmul (transpose U) (msum (map2 outer P Q))).
Proof.
  intros U P Q HU. revert Q. induction P as [| p P IH]; intros [| q Q] H; try discriminate.
  - unfold sumsq, total. simpl. generalize (transpose U). intros T. split_vec.
    mat_unfold. ring.
  - cbn [map map2 msum fold_right]. fold (msum (map2 outer P Q)).
    rewrite !sumsq_cons, IH by (simpl in H; lia).
    assert (E : vdot (vsub (vecmat p U) q) (vsub (vecmat p U) q)
                = vdot p p + vdot q q - 2 * vdot (vecmat p U) q).
    { rewrite <- (orthogonal_rows_dot U p p HU).
      generalize (vecmat p U). intros z.
      destruct z as [[? ?] ?], q as [[? ?] ?]. mat_unfold. ring. }
    rewrite E.
    assert (T : trace (mmul (transpose U) (madd (outer p q) (msum (map2 outer P Q))))
                = vdot (vecmat p U) q + trace (mmul (transpose U) (msum (map2 outer P Q)))).
    { generalize (msum (map2 outer P Q)). intros M. clear.
      destruct p as [[? ?] ?], q as [[? ?] ?]. split_vec. mat_unfold. ring. }
    rewrite T. ring.
Qed.

Lemma sign_fix_scale : forall k V s0 s1 s2 W,
  vtotal (snd (fst (sign_fix (V, (k * s0, k * s1, k * s2), W))))
  = k * vtotal (snd (fst (sign_fix (V, (s0, s1, s2), W)))).
Proof.
  intros k V s0 s1 s2 W. unfold sign_fix.
  destruct (Rlt_dec (det V * det W) 0); cbn [fst snd neg_last vtotal]; ring.
Qed.

Lemma is_svd_scale : forall k C V s0 s1 s2 W, 0 < k ->
  is_svd (mscale (/ k) C) (V, (s0, s1, s2), W) ->
  is_svd C (V, (k * s0, k * s1, k * s2), W).
Proof.
  intros k C V s0 s1 s2 W Hk (HV & HW & (A2 & A21 & A10) & HC).
  split; [exact HV |]. split; [exact HW |]. split.
  - repeat split; nra.
  - assert (E : C = mscale k (mscale (/ k) C)).
    { rewrite mscale_mscale, Rinv_r, mscale_one by lra. reflexivity. }
    rewrite E, HC. generalize V W. clear. intros V W. split_vec. mat_unfold. tuple_eq; ring.
Qed.

(** ** kabsch_rmsd and kabsch_weighted_rmsd under uniform weights *)

Lemma kabsch_rmsd_value : forall (svd : svd_routine) (P Q : points),
  P <> [] -> length P = length Q ->
  is_svd (msum (map2 outer P Q)) (svd (msum (map2 outer P Q))) ->
  let x := (sumsq P + sumsq Q
            - 2 * vtotal (snd (fst (sign_fix (svd (msum (map2 outer P Q)))))))
           / INR (length P) in
  kabsch_rmsd svd P Q None false = Ok (sqrt x) /\ 0 <= x.
Proof.
  intros svd P Q Hne Hlen Hsvd x.
  assert (HN : 0 < INR (length P)).
  { apply lt_0_INR. destruct P; [contradiction | simpl; lia]. }
  unfold kabsch_rmsd, kabsch_rotate, kabsch, covariance.
  rewrite Hlen, Nat.eqb_refl. cbn [bind].
  set (C := msum (map2 outer P Q)) in *.
  destruct (svd C) as [[V Sv] W] eqn:E.
  pose proof Hsvd as (HV & HW & _ & HC).
  destruct (sign_fix (V, Sv, W)) as [[V' Sv'] W'] eqn:F.
  destruct (@sign_fix_det V Sv W V' Sv' W' HV HW F) as (D & HV' & EW).
  cbn [bind].
  assert (HU : orthogonal (mmul V' W')) by (subst W'; apply orthogonal_mmul; assumption).
  rewrite rmsd_value.
  - fold (sumsq (map2 vsub (map (fun p => vecmat p (mmul V' W')) P) Q)).
    rewrite rotated_residual by assumption. fold C.
    rewrite HC at 1. rewrite (sign_fix_trace V Sv W V' Sv' W' HV HW F).
    rewrite length_map. subst x. cbn [fst snd].
    split; [reflexivity |].
    pose proof (total_squares_nonneg (map2 vsub (map (fun p => vecmat p (mmul V' W')) P) Q)) as NN.
    fold (sumsq (map2 vsub (map (fun p => vecmat p (mmul V' W')) P) Q)) in NN.
    rewrite rotated_residual in NN by assumption. fold C in NN.
    rewrite HC in NN at 1. rewrite (sign_fix_trace V Sv W V' Sv' W' HV HW F) in NN.
    apply Rmult_le_pos; [exact NN |]. apply Rlt_le, Rinv_0_lt_compat. exact HN.
  - destruct P; [contradiction | discriminate].
  - rewrite length_map. exact Hlen.
Qed.

Lemma center_value : forall X : points, X <> [] ->
  center X = map (fun x => vsub x (vscale (/ INR (length X)) (vsum X))) X.
Proof. intros X H. unfold center. rewrite centroid_value by exact H. reflexivity. Qed.

Lemma kabsch_weighted_uniform_value : forall (svd : svd_routine) (P Q : points),
  P <> [] -> length P = length Q ->
  let N := INR (length P) in
  let w := default_weights P None in
  let C2 := weighted_C P Q w (3 / total (weights3 w)) in
  C2 = mscale (/ N) (msum (map2 outer (center P) (center Q))) /\
  kabsch_weighted_rmsd svd P Q None
  = Ok (sqrt (clamp0 ((sumsq (center P) + sumsq (center Q)) / N
                      - 2 * vtotal (snd (fst (sign_fix (svd C2))))))).
Proof.
  intros svd P Q Hne Hlen N w C2.
  assert (HN : 0 < N).
  { apply lt_0_INR. destruct P; [contradiction | simpl; lia]. }
  assert (HQne : Q <> []) by (destruct Q; [destruct P; [contradiction | discriminate] | discriminate]).
  set (k := 1 / N).
  assert (Ew : w = repeat k (length P)) by reflexivity.
  assert (Ew' : w = repeat k (length Q)) by (rewrite <- Hlen; exact Ew).
  assert (Es : rsum w = 1).
  { rewrite Ew, rsum_repeat. unfold k. fold N. field. lra. }
  assert (Eiw : 3 / total (weights3 w) = 1).
  { rewrite inverse_weight by lra. rewrite Es. apply Rinv_1. }
  assert (ECP : weighted_sum P (weights3 w) = vscale k (vsum P)).
  { rewrite Ew. apply weighted_sum_uniform. }
  assert (ECQ : weighted_sum Q (weights3 w) = vscale k (vsum Q)).
  { rewrite Ew'. apply weighted_sum_uniform. }
  assert (ESP : weighted_sq P (weights3 w) = k * sumsq P).
  { rewrite Ew. apply weighted_sq_uniform. }
  assert (ESQ : weighted_sq Q (weights3 w) = k * sumsq Q).
  { rewrite Ew'. apply weighted_sq_uniform. }
  assert (ECov : weighted_cov P Q w = mscale k (msum (map2 outer P Q))).
  { rewrite Ew. apply weighted_cov_uniform. exact Hlen. }
  assert (EcP : sumsq (center P) = sumsq P - vdot (vsum P) (vsum P) / N).
  { rewrite center_value, sumsq_centered by exact Hne. fold N.
    generalize (vsum P). intros [[? ?] ?]. mat_unfold. field. lra. }
  assert (EcQ : sumsq (center Q) = sumsq Q - vdot (vsum Q) (vsum Q) / N).
  { rewrite center_value, sumsq_centered by exact HQne. rewrite <- Hlen. fold N.
    generalize (vsum Q). intros [[? ?] ?]. mat_unfold. field. lra. }
  assert (EC2 : C2 = mscale (/ N) (msum (map2 outer (center P) (center Q)))).
  { unfold C2, weighted_C. rewrite Eiw, ECov, ECP, ECQ.
    rewrite (center_value P Hne), (center_value Q HQne), covariance_centered by exact Hlen.
    rewrite <- Hlen. fold N. unfold k.
    generalize (msum (map2 outer P Q)) (vsum P) (vsum Q). intros M sP sQ.
    assert (NZ : N <> 0) by lra. clearbody N. clear - NZ.
    destruct sP as [[? ?] ?], sQ as [[? ?] ?]. split_vec. mat_unfold.
    tuple_eq; field; exact NZ. }
  split; [exact EC2 |].
  unfold kabsch_weighted_rmsd, kabsch_weighted, kabsch_weighted_body.
  fold w. rewrite <- Hlen, Nat.eqb_refl.
  assert (Lw : length w = length P) by (rewrite Ew; apply repeat_length).
  rewrite Lw, Nat.eqb_refl. cbn [andb negb].
  rewrite np_div_ok by (rewrite total_weights3, Es; lra). cbn [bind].
  unfold kabsch_weighted_core. fold C2.
  destruct (sign_fix (svd C2)) as [[V' S'] W'] eqn:F.
  rewrite np_sqrt_ok by apply clamp0_nonneg. cbn [bind fst snd].
  do 3 f_equal.
  rewrite Eiw, ECP, ECQ, ESP, ESQ, EcP, EcQ. unfold k.
  generalize (vsum P) (vsum Q) (sumsq P) (sumsq Q) (vtotal S').
  intros sP sQ a b f.
  assert (NZ : N <> 0) by lra. clearbody N. clear - NZ.
  destruct sP as [[? ?] ?], sQ as [[? ?] ?]. mat_unfold. field. exact NZ.
Qed.

(** X25: with [translate=True] and no weights, [kabsch_rmsd] and
    [kabsch_weighted_rmsd] agree.  On two non-empty sets of equal length,
    when [np.linalg.svd] returns a decomposition (orthogonal factors,
    singular values in descending order) of each of the two covariance
    matrices, the unweighted path on the centred sets and the weighted
    path with its default uniform weights return the same number. *)
Theorem kabsch_rmsd_uniform_weights : forall (svd : svd_routine) (P Q : points),
  P <> [] -> length P = length Q ->
  let C1 := msum (map2 outer (center P) (center Q)) in
  let w := default_weights P None in
  let C2 := weighted_C P Q w (3 / total (weights3 w)) in
  is_svd C1 (svd C1) -> is_svd C2 (svd C2) ->
  exists r, kabsch_rmsd svd P Q None true = Ok r /\
            kabsch_weighted_rmsd svd P Q None = Ok r /\
            0 <= r.
Proof.
  intros svd P Q Hne Hlen C1 w C2 H1 H2.
  set (N := INR (length P)).
  assert (HN : 0 < N).
  { apply lt_0_INR. destruct P; [contradiction | simpl; lia]. }
  assert (HQne : Q <> []) by (destruct Q; [destruct P; [contradiction | discriminate] | discriminate]).
  assert (LP : length (center P) = length P).
  { rewrite center_value by exact Hne. apply length_map. }
  assert (LQ : length (center Q) = length Q).
  { rewrite center_value by exact HQne. apply length_map. }
  assert (E0 : kabsch_rmsd svd P Q None true
               = kabsch_rmsd svd (center P) (center Q) None false) by reflexivity.
  destruct (kabsch_rmsd_value svd (center P) (center Q)) as (K1 & K2).
  { intros Z. rewrite Z in LP. destruct P; [contradiction | discriminate]. }
  { congruence. }
  { exact H1. }
  fold C1 in K1, K2. rewrite LP in K1, K2. fold N in K1, K2.
  destruct (kabsch_weighted_uniform_value svd P Q Hne Hlen) as (EC2 & K3).
  fold w in EC2, K3. fold C2 in EC2, K3. fold C1 in EC2. fold N in EC2, K3.
  assert (EF : vtotal (snd (fst (sign_fix (svd C1))))
               = N * vtotal (snd (fst (sign_fix (svd C2))))).
  { destruct (svd C1) as [[V1 S1] W1]. destruct (svd C2) as [[V2 [[t0 t1] t2]] W2].
    rewrite EC2 in H2. apply is_svd_scale in H2; [| exact HN].
    rewrite (fixed_sum_unique C1 V1 S1 W1 V2 (N * t0, N * t1, N * t2) W2 H1 H2).
    apply sign_fix_scale. }
  set (x := (sumsq (center P) + sumsq (center Q)) / N
            - 2 * vtotal (snd (fst (sign_fix (svd C2))))) in *.
  assert (Ex : (sumsq (center P) + sumsq (center Q)
                - 2 * vtotal (snd (fst (sign_fix (svd C1))))) / N = x).
  { rewrite EF. unfold x. field. lra. }
  rewrite Ex in K1, K2.
  exists (sqrt x). split; [rewrite E0; exact K1 |]. split.
  - rewrite K3, clamp0_id by exact K2. reflexivity.
  - apply sqrt_pos.
Qed.

Lemma kabsch_rmsd_uniform_weights_witness :
  exists r, kabsch_rmsd diag_svd octa_Q octa_Q2 None true = Ok r /\
            kabsch_weighted_rmsd diag_svd octa_Q octa_Q2 None = Ok r /\
            0 <= r.
Proof.
  apply (kabsch_rmsd_uniform_weights diag_svd octa_Q octa_Q2).
  - discriminate.
  - reflexivity.
  - rewrite !center_value by discriminate.
    unfold is_svd, diag_svd, orthogonal, octa_Q, octa_Q2. simpl. mat_unfold.
    repeat split; try (tuple_eq; field); lra.
  - unfold is_svd, diag_svd, orthogonal, weighted_C, weighted_cov, weighted_sum, weights3,
      total, octa_Q, octa_Q2. simpl. mat_unfold.
    repeat split; try (tuple_eq; field); lra.
Defined.

(** ** reorder_distance pairs by rank *)

Lemma perm_seq_bound : forall (l : list nat) n k,
  Permutation l (seq 0 n) -> (k < n)%nat -> (nth k l 0 < n)%nat.
Proof.
  intros l n k P Hk.
  assert (I : In (nth k l 0%nat) l).
  { apply nth_In. rewrite (Permutation_length P), length_seq. exact Hk. }
  apply (Permutation_in _ P) in I. apply in_seq in I. lia.
Qed.

(** An ascending list that is a permutation of [0..n) is [0..n). *)
Lemma sorted_perm_id : forall (l : list nat) n,
  Permutation l (seq 0 n) ->
  (forall a b, (a <= b)%nat -> (b < n)%nat -> (nth a l 0 <= nth b l 0)%nat) ->
  forall k, (k < n)%nat -> nth k l 0%nat = k.
Proof.
  intros l n P Hs.
  assert (Ln : length l = n) by (rewrite (Permutation_length P); apply length_seq).
  assert (Nd : NoDup l).
  { apply (Permutation_NoDup (Permutation_sym P)). apply seq_NoDup. }
  assert (Strict : forall a b, (a < b)%nat -> (b < n)%nat -> (nth a l 0 < nth b l 0)%nat).
  { intros a b Hab Hb. pose proof (Hs a b ltac:(lia) Hb) as Le.
    assert (Ne : nth a l 0%nat <> nth b l 0%nat).
    { intros E. apply (proj1 (NoDup_nth l 0%nat) Nd) in E; lia. }
    lia. }
  assert (Up : forall m k, (k + m < n)%nat -> (nth k l 0 + m <= nth (k + m) l 0)%nat).
  { induction m as [| m IH]; intros k Hk.
    - rewrite !Nat.add_0_r. lia.
    - pose proof (IH k ltac:(lia)) as I1.
      pose proof (Strict (k + m)%nat (k + S m)%nat ltac:(lia) Hk) as I2. lia. }
  intros k Hk.
  pose proof (Up k 0%nat ltac:(lia)) as Lo. simpl in Lo.
  pose proof (Up (n - 1 - k)%nat k ltac:(lia)) as Hi.
  replace (k + (n - 1 - k))%nat with (n - 1)%nat in Hi by lia.
  pose proof (perm_seq_bound l n (n - 1) P ltac:(lia)) as Bd.
  lia.
Qed.

Lemma nth_map_norm : forall (X : points) i, (i < length X)%nat ->
  nth i (map norm X) 0 = norm (nth i X vzero).
Proof.
  intros X i H. rewrite (nth_indep _ 0 (norm vzero)) by (rewrite length_map; exact H).
  apply map_nth.
Qed.

Lemma nth_map_INR : forall (l : list nat) i, (i < length l)%nat ->
  nth i (map INR l) 0 = INR (nth i l 0%nat).
Proof.
  intros l i H. change 0 with (INR 0). apply map_nth.
Qed.

(** X26: within one group of equal labels [reorder_distance] pairs the
    atoms by rank of their distance to the origin.  When [np.argsort]
    sorts the three lists it is given, the view is a permutation of the
    group, and a P atom strictly closer to the origin than another one is
    given a Q atom that is no farther than the one given to the other. *)
Theorem distance_view_pairs_by_rank :
  forall (argsort : argsort_routine) (A B : points),
  length A = length B ->
  sorts_keys argsort (map norm A) ->
  sorts_keys argsort (map norm B) ->
  sorts_keys argsort (map INR (argsort (map norm A))) ->
  exists view,
    distance_view argsort A B = Ok (Some view) /\
    Permutation view (seq 0 (length A)) /\
    forall i j, (i < length A)%nat -> (j < length A)%nat ->
      norm (nth i A vzero) < norm (nth j A vzero) ->
      norm (nth (nth i view 0%nat) B vzero) <= norm (nth (nth j view 0%nat) B vzero).
Proof.
  intros argsort A B HAB (PA & SA) (PB & SB) (PT & ST).
  set (n := length A) in *.
  set (sA := argsort (map norm A)) in *.
  set (sB := argsort (map norm B)) in *.
  set (tr := argsort (map INR sA)) in *.
  rewrite length_map in PA, PB, SA, SB. fold n in PA, SA. rewrite <- HAB in PB, SB.
  assert (LA : length sA = n) by (rewrite (Permutation_length PA); apply length_seq).
  assert (LB : length sB = n) by (rewrite (Permutation_length PB); apply length_seq).
  rewrite length_map, LA in PT, ST.
  assert (LT : length tr = n) by (rewrite (Permutation_length PT); apply length_seq).
  destruct (take_permutation sB tr) as (view & E & PV).
  { rewrite LB. exact PT. }
  assert (LV : length view = n) by (rewrite (Permutation_length PV); exact LB).
  exists view. split; [unfold distance_view; fold sA sB tr; rewrite E; reflexivity |].
  split; [eauto using Permutation_trans |].
  (* the view at i is sB at the rank of i *)
  assert (Hview : forall i, (i < n)%nat -> nth i view 0%nat = nth (nth i tr 0%nat) sB 0%nat).
  { intros i Hi.
    assert (Ei : nth_error tr i = Some (nth i tr 0%nat)) by (apply nth_error_nth'; lia).
    destruct (take_nth sB tr view E i _ Ei) as (Ev & Hb).
    rewrite (nth_error_nth' sB 0%nat Hb) in Ev.
    apply (nth_error_nth _ _ 0%nat) in Ev. exact Ev. }
  (* tr is the inverse of sA *)
  assert (Hinv : forall k, (k < n)%nat -> nth (nth k tr 0%nat) sA 0%nat = k).
  { set (g := map (fun t => nth t sA 0%nat) tr).
    assert (Pg : Permutation g (seq 0 n)).
    { apply Permutation_trans with sA; [| exact PA].
      destruct (take_permutation sA tr) as (l & El & Pl); [rewrite LA; exact PT |].
      replace g with l; [exact Pl |].
      apply take_spec in El. unfold g.
      apply (map_Some_inj). rewrite <- El, map_map. apply map_ext_in.
      intros t Ht. apply nth_error_nth'.
      apply (Permutation_in _ PT) in Ht. apply in_seq in Ht. lia. }
    assert (Sg : forall a b, (a <= b)%nat -> (b < n)%nat -> (nth a g 0 <= nth b g 0)%nat).
    { intros a b Hab Hb. pose proof (ST a b Hab Hb) as Le.
      assert (Ta : (nth a tr 0 < n)%nat) by (apply perm_seq_bound; [exact PT | lia]).
      assert (Tb : (nth b tr 0 < n)%nat) by (apply perm_seq_bound; [exact PT | lia]).
      rewrite !nth_map_INR in Le by lia.
      apply INR_le in Le.
      unfold g.
      rewrite (nth_indep _ 0%nat (nth 0%nat sA 0%nat)) by (rewrite length_map; lia).
      rewrite (nth_indep (map _ tr) 0%nat (nth 0%nat sA 0%nat)) by (rewrite length_map; lia).
      rewrite !(map_nth (fun t => nth t sA 0%nat)). exact Le. }
    intros k Hk. pose proof (sorted_perm_id g n Pg Sg k Hk) as Ek.
    unfold g in Ek.
    rewrite (nth_indep _ 0%nat (nth 0%nat sA 0%nat)) in Ek by (rewrite length_map; lia).
    rewrite (map_nth (fun t => nth t sA 0%nat)) in Ek. exact Ek. }
  intros i j Hi Hj Hlt.
  assert (Ti : (nth i tr 0 < n)%nat) by (apply perm_seq_bound; assumption).
  assert (Tj : (nth j tr 0 < n)%nat) by (apply perm_seq_bound; assumption).
  assert (Rk : (nth i tr 0 < nth j tr 0)%nat).
  { destruct (Nat.lt_ge_cases (nth i tr 0%nat) (nth j tr 0%nat)) as [L | G]; [exact L |].
    exfalso. pose proof (SA _ _ G Ti) as Le.
    rewrite (Hinv i Hi), (Hinv j Hj) in Le.
    rewrite !nth_map_norm in Le by (fold n; lia). lra. }
  pose proof (SB _ _ (Nat.lt_le_incl _ _ Rk) Tj) as Le.
  rewrite <- (Hview i Hi), <- (Hview j Hj) in Le.
  assert (Vi : (nth i view 0 < n)%nat).
  { apply perm_seq_bound; [eauto using Permutation_trans | exact Hi]. }
  assert (Vj : (nth j view 0 < n)%nat).
  { apply perm_seq_bound; [eauto using Permutation_trans | exact Hj]. }
  rewrite !nth_map_norm in Le by (rewrite <- HAB; fold n; lia). exact Le.
Qed.

Lemma pair_argsort_sorts : forall x y, sorts_keys pair_argsort [x; y].
Proof.
  intros x y. unfold sorts_keys, pair_argsort. simpl.
  destruct (Rlt_dec y x) as [L | G]; split.
  - apply perm_swap.
  - intros [| [| a]] [| [| b]] Hab Hb; simpl; try lia; lra.
  - reflexivity.
  - intros [| [| a]] [| [| b]] Hab Hb; simpl; try lia; lra.
Qed.

Lemma distance_view_pairs_by_rank_witness :
  let A : points := [(2, 0, 0); (1, 0, 0)] in
  let B : points := [(0, 3, 0); (0, 0, 5)] in
  exists view,
    distance_view pair_argsort A B = Ok (Some view) /\
    Permutation view (seq 0 (length A)) /\
    forall i j, (i < length A)%nat -> (j < length A)%nat ->
      norm (nth i A vzero) < norm (nth j A vzero) ->
      norm (nth (nth i view 0%nat) B vzero) <= norm (nth (nth j view 0%nat) B vzero).
Proof.
  intros A B. apply (distance_view_pairs_by_rank pair_argsort A B).
  - reflexivity.
  - apply pair_argsort_sorts.
  - apply pair_argsort_sorts.
  - unfold A. simpl map at 2. unfold pair_argsort at 2.
    destruct (Rlt_dec _ _); apply pair_argsort_sorts.
Defined.

(** ** rmsd of one row against many *)

Lemma broadcast2_single_left : forall f v (W : points),
  broadcast2 f [v] W = Ok (map (fun w => f v w) W).
Proof.
  intros f v W. unfold broadcast2.
  destruct W as [| w [| w' W']]; reflexivity.
Qed.

Lemma broadcast2_single_right : forall f v (W : points), W <> [] ->
  broadcast2 f W [v] = Ok (map (fun w => f w v) W).
Proof.
  intros f v W H. unfold broadcast2.
  destruct W as [| w [| w' W']]; [contradiction | reflexivity | reflexivity].
Qed.

Lemma sumsq_map_swap : forall v (W : points),
  sumsq (map (fun w => vsub v w) W) = sumsq (map (fun w => vsub w v) W).
Proof.
  intros v. induction W as [| w W IH]; [reflexivity |].
  cbn [map]. rewrite !sumsq_cons, IH. f_equal.
  destruct v as [[? ?] ?], w as [[? ?] ?]. mat_unfold. ring.
Qed.

(** X27: one row against m rows is broadcast, and the divisor is the
    length of the first argument only: [rmsd([v], W)] is [sqrt(m)] times
    [rmsd(W, [v])]. *)
Theorem rmsd_single_row_asymmetric : forall (v : vec3) (W : points),
  W <> [] ->
  exists r, rmsd W [v] = Ok r /\ 0 <= r /\
            rmsd [v] W = Ok (sqrt (INR (length W)) * r).
Proof.
  intros v W Hne.
  assert (HN : 0 < INR (length W)).
  { apply lt_0_INR. destruct W; [contradiction | simpl; lia]. }
  set (S := sumsq (map (fun w => vsub w v) W)).
  assert (HS : 0 <= S) by apply total_squares_nonneg.
  exists (sqrt (S / INR (length W))). split; [| split].
  - unfold rmsd. rewrite broadcast2_single_right by exact Hne. cbn [bind].
    fold (sumsq (map (fun w => vsub w v) W)). fold S.
    rewrite np_div_ok by lra. cbn [bind].
    apply np_sqrt_ok. apply Rmult_le_pos; [exact HS |].
    apply Rlt_le, Rinv_0_lt_compat. exact HN.
  - apply sqrt_pos.
  - unfold rmsd. rewrite broadcast2_single_left. cbn [bind length].
    fold (sumsq (map (fun w => vsub v w) W)). rewrite sumsq_map_swap. fold S.
    rewrite np_div_ok by (simpl; lra). cbn [bind].
    rewrite np_sqrt_ok by (simpl; unfold Rdiv; rewrite Rinv_1; lra).
    f_equal. rewrite <- sqrt_mult.
    + f_equal. simpl. field. lra.
    + lra.
    + apply Rmult_le_pos; [exact HS |]. apply Rlt_le, Rinv_0_lt_compat. exact HN.
Qed.

Lemma rmsd_single_row_asymmetric_witness :
  exists r, rmsd [(1, 0, 0); (0, 1, 0)] [(0, 0, 0)] = Ok r /\ 0 <= r /\
            rmsd [(0, 0, 0)] [(1, 0, 0); (0, 1, 0)]
            = Ok (sqrt (INR (length [(1, 0, 0); (0, 1, 0)])) * r).
Proof.
  apply (rmsd_single_row_asymmetric (0, 0, 0) [(1, 0, 0); (0, 1, 0)]).
  discriminate.
Defined.

(** ** Reflections against rotations only *)

Lemma reflection_runs_compare :
  forall (reorder_method : option reorder_fn) (rotation_method : option rotation_fn)
         (p_atoms q_atoms : labels) (p_coord q_coord : points) l st1 st2 st1' st2',
  for_each l (reflection_body reorder_method rotation_method false
                              p_atoms q_atoms p_coord q_coord) st1 = Ok st1' ->
  for_each l (reflection_body reorder_method rotation_method true
                              p_atoms q_atoms p_coord q_coord) st2 = Ok st2' ->
  below_or_equal (min_rmsd st1) (min_rmsd st2) ->
  below_or_equal (min_rmsd st1') (min_rmsd st2').
Proof.
  intros rm rot pa qa pc qc. induction l as [| a l IH]; intros st1 st2 st1' st2' F1 F2 H.
  - simpl in F1, F2. injection F1 as <-. injection F2 as <-. exact H.
  - cbn [for_each] in F1, F2.
    destruct (reflection_body rm rot false pa qa pc qc st1 a) as [s1 | |] eqn:B1;
      cbn [bind] in F1; try discriminate.
    destruct (reflection_body rm rot true pa qa pc qc st2 a) as [s2 | |] eqn:B2;
      cbn [bind] in F2; try discriminate.
    apply (IH s1 s2 st1' st2' F1 F2). clear IH F1 F2.
    apply reflection_body_pass in B1. apply reflection_body_pass in B2.
    destruct B1 as [(Bad & _) | (_ & B1)]; [unfold skipped in Bad; simpl in Bad; discriminate |].
    unfold below_or_equal in *.
    destruct B2 as [(_ & ->) | (_ & B2)].
    + (* skipped under keep_stereo *)
      destruct B1 as [(r & _ & U1) | (_ & U1 & _)].
      * destruct (min_rmsd st2) as [y |]; [| exact I].
        destruct (min_rmsd st1) as [x |]; [| contradiction].
        cbn [below] in U1. destruct (Rlt_dec r x); destruct U1 as (-> & _); lra.
      * rewrite U1. exact H.
    + destruct B1 as [(r & S1 & U1) | (S1 & U1 & _)];
        destruct B2 as [(r' & S2 & U2) | (S2 & U2 & _)]; try congruence.
      * assert (r' = r) by congruence. subst r'.
        destruct (min_rmsd st2) as [y |]; cbn [below] in U2.
        -- destruct (min_rmsd st1) as [x |]; [| contradiction]. cbn [below] in U1.
           destruct (Rlt_dec r y); destruct U2 as (-> & _);
             destruct (Rlt_dec r x); destruct U1 as (-> & _); lra.
        -- destruct U2 as (-> & _).
           destruct (min_rmsd st1) as [x |]; cbn [below] in U1.
           ++ destruct (Rlt_dec r x); destruct U1 as (-> & _); lra.
           ++ destruct U1 as (-> & _). lra.
      * rewrite U1, U2. exact H.
Qed.

(** X28: searching the reflections too cannot give a larger RMSD.  When
    [check_reflections] returns both with and without [keep_stereo] on the
    same input, the minimum over all 48 pairs is at most the minimum over
    the pairs that keep the handedness. *)
Theorem check_reflections_all_no_worse :
  forall (reorder_method : option reorder_fn) (rotation_method : option rotation_fn)
         (p_atoms q_atoms : labels) (p_coord q_coord : points)
         m1 s1 f1 v1 m2 s2 f2 v2,
  check_reflections reorder_method rotation_method false
                    p_atoms q_atoms p_coord q_coord = Ok (m1, s1, f1, v1) ->
  check_reflections reorder_method rotation_method true
                    p_atoms q_atoms p_coord q_coord = Ok (m2, s2, f2, v2) ->
  below_or_equal m1 m2.
Proof.
  intros rm rot pa qa pc qc m1 s1 f1 v1 m2 s2 f2 v2 H1 H2.
  unfold check_reflections in H1, H2.
  destruct (for_each candidates (reflection_body rm rot false pa qa pc qc) _)
    as [st1 | |] eqn:F1; cbn [bind] in H1; try discriminate.
  destruct (for_each candidates (reflection_body rm rot true pa qa pc qc) _)
    as [st2 | |] eqn:F2; cbn [bind] in H2; try discriminate.
  destruct (aligned pa qa (min_review st1)) as [[|] | |]; cbn [bind] in H1; try discriminate.
  destruct (aligned pa qa (min_review st2)) as [[|] | |]; cbn [bind] in H2; try discriminate.
  injection H1 as <- _ _ _. injection H2 as <- _ _ _.
  apply (reflection_runs_compare rm rot pa qa pc qc candidates _ _ st1 st2 F1 F2).
  exact I.
Qed.

Lemma check_reflections_origin_all :
  check_reflections None None false ["H"%string] ["H"%string] [vzero] [vzero]
  = Ok (Some 0, Some (0, 1, 2)%nat, Some (1, 1, 1)%Z, None).
Proof.
  unfold check_reflections.
  change candidates with
    (((0, 1, 2)%nat, 1%Z, ((1, 1, 1)%Z, 1%Z)) :: tl candidates).
  cbn [for_each].
  assert (First : reflection_body None None false ["H"%string] ["H"%string] [vzero] [vzero]
                    (mk_refl_state None None None None None)
                    ((0, 1, 2)%nat, 1%Z, ((1, 1, 1)%Z, 1%Z))
                  = Ok (mk_refl_state (Some 0) (Some (0, 1, 2)%nat) (Some (1, 1, 1)%Z)
                                      None None)).
  { unfold reflection_body. simpl skipped. cbv iota.
    rewrite candidate_of_origin. simpl bind. rewrite rmsd_origin. reflexivity. }
  rewrite First. cbn [bind].
  rewrite for_each_fixed; [reflexivity |].
  intros [[s i] [r j]] _. unfold reflection_body. simpl skipped. cbv iota.
  rewrite candidate_of_origin. simpl bind. rewrite rmsd_origin.
  unfold below. simpl. destruct (Rlt_dec 0 0); [lra | reflexivity].
Qed.

Lemma check_reflections_all_no_worse_witness :
  below_or_equal (Some 0) (Some 0).
Proof.
  apply (check_reflections_all_no_worse None None ["H"%string] ["H"%string] [vzero] [vzero]
           (Some 0) (Some (0, 1, 2)%nat) (Some (1, 1, 1)%Z) None
           (Some 0) (Some (0, 1, 2)%nat) (Some (1, 1, 1)%Z) None).
  - exact check_reflections_origin_all.
  - exact check_reflections_origin.
Defined.
